(** * Edge population access (bluepysnap/edges/edge_population.py)

    A shallow embedding of the edge selection and connection-iteration
    engine: the ID resolver [ids], the edge accessor [get] /
    [pathway_edges], and the lazy generator behind [iter_connections].

    Python integers are [Z]; numpy arrays of IDs are [list Z]; Python
    sets are [gset]; the storage backend (libsonata) is a record of
    functions whose calls are logged; the process-wide numpy random
    source is threaded explicitly. *)

From Stdlib Require Import ZArith QArith List String Bool Lia Permutation.
From stdpp Require Import base gmap strings list sets sorting.

Open Scope Z_scope.
Open Scope list_scope.

(** ** Exceptions *)

(** Every failure of the module is a [BluepySnapError]; the message tells
    them apart.  Failures raised inside numpy or by the node population
    are kept separate. *)
Inductive invalid_argument :=
| MissingSourceAndTarget   (* "Either `source` or `target` should be specified" *)
| ExclusiveFlags.          (* "`return_edge_count` and `return_edge_ids` are mutually exclusive" *)

Inductive error :=
| InvalidArgument (why : invalid_argument)
| InvalidIdType            (* "All values from a list must be of type int or CircuitEdgeId." *)
| UnknownProperty (names : gset string)   (* "Unknown edge properties: {...}" *)
| NoSuchProperty (prop : string)          (* "No such property: ..." *)
| NodeIdsError             (* raised by NodePopulation.ids *)
| QueryError               (* raised by the query module while evaluating *)
| NumpyError               (* ValueError / IndexError raised inside numpy *)
| AssertionError.

Inductive result (A : Type) :=
| Ok (a : A)
| Err (e : error).
Arguments Ok {A} a.
Arguments Err {A} e.

(** ** numpy helpers *)

(** [np.unique]: the sorted distinct values. *)
Definition np_unique (xs : list Z) : list Z :=
  merge_sort Z.le (remove_dups xs).

(** [np.unique(xs, return_counts=True)] stacked and transposed: one row
    [(value, count)] per distinct value, ascending. *)
Definition np_unique_counts (xs : list Z) : list (Z * Z) :=
  (fun v => (v, Z.of_nat (count_occ Z.eq_dec xs v))) <$> np_unique xs.

(** [astype(np.uint32)], wrap-around written out.  (The rows pass through
    float64 first, which is exact below 2^53.) *)
Definition to_uint32 (x : Z) : Z := x mod 2 ^ 32.

(** [np.isin(col, test, assume_unique=True)] as a predicate on one
    element (membership, as numpy computes it when both arrays are
    duplicate-free). *)
Definition np_isin (test : list Z) (x : Z) : bool := bool_decide (x ∈ test).

(** [np.median] of integers, as an exact rational.  numpy gives nan on an
    empty input; the only caller asserts non-emptiness first. *)
Definition np_median (xs : list Z) : Q :=
  let s := merge_sort Z.le xs in
  let n := length s in
  if Nat.even n
  then (nth (n / 2 - 1) s 0 + nth (n / 2) s 0) # 2
  else inject_Z (nth (n / 2) s 0).

Definition Qltb (a b : Q) : bool := negb (Qle_bool b a).

(** [np.array_split(xs, n)]: [n] sections, the first [len mod n] of them
    one element longer. *)
Fixpoint split_sizes {A} (sizes : list nat) (xs : list A) : list (list A) :=
  match sizes with
  | [] => []
  | k :: ks => take k xs :: split_sizes ks (drop k xs)
  end.

Definition np_array_split {A} (xs : list A) (n : nat) : list (list A) :=
  let len := length xs in
  let each := (len / n)%nat in
  let extras := (len mod n)%nat in
  split_sizes (replicate extras (S each) ++ replicate (n - extras) each) xs.

(** Boolean-mask indexing [xs[mask]]; numpy raises when the lengths differ. *)
Definition np_mask {A} (xs : list A) (mask : list bool) : result (list A) :=
  if decide (length xs = length mask)
  then Ok (fst <$> filter (fun p => snd p = true) (zip xs mask))
  else Err NumpyError.

(** Python slice [xs[:limit]], negative bounds counted from the end. *)
Definition py_slice_to {A} (xs : list A) (limit : Z) : list A :=
  if 0 <=? limit
  then take (Z.to_nat limit) xs
  else take (Z.to_nat (Z.of_nat (length xs) + limit)) xs.

(** ** The random source *)

(** The contract of [np.random.shuffle] and of
    [np.random.choice(xs, size, replace=False)]: a shuffle is a
    permutation; a choice of [n <= len xs] elements is the first [n]
    elements of a permutation and fails for a larger [n]. *)
Class RandomSource (G : Type) := {
  rand_shuffle : forall {A : Type}, G -> list A -> list A * G;
  rand_choice : forall {A : Type}, G -> list A -> nat -> list A * G;
  rand_shuffle_perm : forall A (g : G) (xs : list A),
      Permutation xs (fst (rand_shuffle g xs));
  rand_choice_spec : forall A (g : G) (xs : list A) (n : nat),
      (n <= length xs)%nat ->
      exists rest, Permutation xs (fst (rand_choice g xs n) ++ rest)
                   /\ length (fst (rand_choice g xs n)) = n;
}.

(** A concrete source: a tape of naturals; each draw removes the element
    at position [head mod length]. *)
Fixpoint tape_draw {A} (fuel : nat) (tape : list nat) (xs : list A)
  : list A * list nat :=
  match fuel with
  | O => ([], tape)
  | S fuel' =>
      match xs with
      | [] => ([], tape)
      | x0 :: _ =>
          let i := (hd O tape mod length xs)%nat in
          let '(out, tape') := tape_draw fuel' (tl tape) (delete i xs) in
          (nth i xs x0 :: out, tape')
      end
  end.

Definition tape_shuffle {A} (tape : list nat) (xs : list A) : list A * list nat :=
  tape_draw (length xs) tape xs.

Definition tape_choice {A} (tape : list nat) (xs : list A) (n : nat)
  : list A * list nat :=
  tape_draw n tape xs.

(** ** Data model *)

(** A libsonata selection: ascending, non-overlapping half-open ranges. *)
Definition Selection := list (Z * Z).

(** Modelled from the spec: [Selection.flatten] of the storage backend,
    which is outside this repository, lists the IDs of the ranges in
    order. *)
Definition flatten (sel : Selection) : list Z :=
  concat ((fun r => seqZ (fst r) (snd r - fst r)) <$> sel).

(** [libsonata.Selection(values)]: consecutive values share a range. *)
Fixpoint selection_from_values (vs : list Z) : Selection :=
  match vs with
  | [] => []
  | v :: vs' =>
      match selection_from_values vs' with
      | (a, b) :: rs => if decide (a = v + 1) then (v, b) :: rs
                        else (v, v + 1) :: (a, b) :: rs
      | [] => [(v, v + 1)]
      end
  end.

Inductive dtype := DFloat64 | DIds | DInt64 | DObject | DOther (name : string).

Inductive cell := CInt (z : Z) | CFloat (q : Q) | CStr (s : string) | CNaN.

Record column := { col_dtype : dtype; col_values : list cell }.

(** The libsonata edge population handle ([self._population]). *)
Record Backend := {
  be_size : N;
  be_source : string;
  be_target : string;
  be_attribute_names : list string;
  be_dynamics_attribute_names : list string;
  be_afferent_edges : list Z -> Selection;
  be_efferent_edges : list Z -> Selection;
  be_connecting_edges : list Z -> list Z -> Selection;
  be_source_nodes : Selection -> list Z;
  be_target_nodes : Selection -> list Z;
  be_get_attribute : string -> Selection -> column;
  be_get_dynamics_attribute : string -> Selection -> column;
}.

(** Calls into the backend that read the edge file. *)
Inductive event :=
| EvSelectAll
| EvAfferentEdges (node_ids : list Z)
| EvEfferentEdges (node_ids : list Z)
| EvConnectingEdges (source_ids target_ids : list Z)
| EvSourceNodes (sel : Selection)
| EvTargetNodes (sel : Selection)
| EvGetAttribute (name : string) (sel : Selection)
| EvGetDynamicsAttribute (name : string) (sel : Selection).

(** Node group specifiers, resolved by the node population collaborator. *)
Inductive node_group :=
| NodeId (id : Z)
| NodeIds (ids : list Z)
| NodeSet (name : string).

Record NodePopulation := {
  np_name : string;
  np_ids : node_group -> option (list Z);
}.

Record EdgePopulation := {
  name : string;
  population : Backend;
  population_type : string;
  source : NodePopulation;
  target : NodePopulation;
}.

(** Values a caller may put in an ID list. *)
Inductive id_value :=
| IntId (id : Z)
| CircuitEdgeId (pop : string) (id : Z).

(** Property requests: a scalar name or a list of names. *)
Inductive props :=
| PropScalar (p : string)
| PropList (ps : list string).

(** pandas results. *)
Inductive frame :=
| Series (sname : string) (sdtype : dtype) (index : list Z) (values : list cell)
| DataFrame (index : list Z) (columns : list (string * column)).

Inductive edges_result :=
| EdgeIds (ids : list Z)
| EdgeFrame (f : frame).

(** Modelled from the spec: the reserved topological names and the
    dynamics prefix of [sonata_constants], a module that is absent here.
    Nothing below depends on their spelling. *)
Definition SOURCE_NODE_ID : string := "@source_node".
Definition TARGET_NODE_ID : string := "@target_node".
Definition DYNAMICS_PREFIX : string := "@dynamics:".

(** Modelled from the spec: [utils.add_dynamic_prefix], absent here,
    prepends the reserved prefix to every dynamics name. *)
Definition add_dynamic_prefix (names : list string) : list string :=
  (fun n => DYNAMICS_PREFIX +:+ n) <$> names.

(** [s.split(sep)[1]]: the piece between the first and the second
    occurrence of [sep]; [None] stands for the IndexError. *)
Definition split_second (sep s : string) : option string :=
  match String.index 0 sep s with
  | None => None
  | Some i =>
      let start := (i + String.length sep)%nat in
      let rest := String.substring start (String.length s - start) s in
      match String.index 0 sep rest with
      | None => Some rest
      | Some j => Some (String.substring 0 j rest)
      end
  end.

(** ** World, effects *)

Section Model.

Context {G : Type} `{RandomSource G}.

Record World := { w_rng : G; w_log : list event }.

(** State (random source, call log) and exceptions. *)
Definition M (A : Type) : Type := World -> World * result A.

Definition ret {A} (a : A) : M A := fun w => (w, Ok a).
Definition raise {A} (e : error) : M A := fun w => (w, Err e).
Definition bind {A B} (m : M A) (k : A -> M B) : M B :=
  fun w => match m w with
           | (w', Ok a) => k a w'
           | (w', Err e) => (w', Err e)
           end.

Notation "x <- m ;; k" := (bind m (fun x => k))
  (at level 100, m at next level, right associativity).

Definition lift {A} (r : result A) : M A := fun w => (w, r).

(** A logged backend call. *)
Definition call {A} (ev : event) (v : A) : M A :=
  fun w => ({| w_rng := w_rng w; w_log := w_log w ++ [ev] |}, Ok v).

Definition shuffle {A} (xs : list A) : M (list A) :=
  fun w => let '(ys, g) := rand_shuffle (w_rng w) xs in
           ({| w_rng := g; w_log := w_log w |}, Ok ys).

(** [np.random.choice(xs, size, replace=False)]. *)
Definition choice {A} (xs : list A) (size : Z) : M (list A) :=
  fun w =>
    if (size <? 0) || (Z.of_nat (length xs) <? size) then (w, Err NumpyError)
    else let '(ys, g) := rand_choice (w_rng w) xs (Z.to_nat size) in
         ({| w_rng := g; w_log := w_log w |}, Ok ys).

Variable self : EdgePopulation.

(** *** Backend calls *)

(** Modelled from the spec: [select_all] of the storage backend, which is
    outside this repository, selects the dense ID range [0, size). *)
Definition select_all_ranges : Selection := [(0, Z.of_N (be_size (population self)))].

Definition select_all : M Selection := call EvSelectAll select_all_ranges.

Definition backend_afferent_edges (node_ids : list Z) : M Selection :=
  call (EvAfferentEdges node_ids) (be_afferent_edges (population self) node_ids).

Definition backend_efferent_edges (node_ids : list Z) : M Selection :=
  call (EvEfferentEdges node_ids) (be_efferent_edges (population self) node_ids).

Definition backend_connecting_edges (s t : list Z) : M Selection :=
  call (EvConnectingEdges s t) (be_connecting_edges (population self) s t).

Definition backend_source_nodes (sel : Selection) : M (list Z) :=
  call (EvSourceNodes sel) (be_source_nodes (population self) sel).

Definition backend_target_nodes (sel : Selection) : M (list Z) :=
  call (EvTargetNodes sel) (be_target_nodes (population self) sel).

Definition backend_get_attribute (p : string) (sel : Selection) : M column :=
  call (EvGetAttribute p sel) (be_get_attribute (population self) p sel).

Definition backend_get_dynamics_attribute (p : string) (sel : Selection) : M column :=
  call (EvGetDynamicsAttribute p sel)
       (be_get_dynamics_attribute (population self) p sel).

(** *** Module-level helpers *)

Definition _is_empty {A} (xs : option (list A)) : bool :=
  match xs with
  | Some l => Nat.eqb (length l) 0
  | None => false
  end.

(** [func] is [efferent_edges] or [afferent_edges] of the backend, called
    with one node ID; the estimate is the median number of ranges. *)
Fixpoint range_sizes (func : list Z -> M Selection) (node_ids : list Z)
  : M (list Z) :=
  match node_ids with
  | [] => ret []
  | node_id :: node_ids' =>
      sel <- func [node_id] ;;
      rest <- range_sizes func node_ids' ;;
      ret (Z.of_nat (length sel) :: rest)
  end.

Definition _estimate_range_size (func : list Z -> M Selection)
    (node_ids : list Z) (n : nat) : M Q :=
  if Nat.eqb (length node_ids) 0 then raise AssertionError
  else
    sample <- (if (n <? length node_ids)%nat
               then choice node_ids (Z.of_nat n)
               else ret node_ids) ;;
    sizes <- range_sizes func sample ;;
    ret (np_median sizes).

Definition _resolve_node_ids (nodes : NodePopulation) (group : option node_group)
  : M (option (list Z)) :=
  match group with
  | None => ret None
  | Some g =>
      match np_ids nodes g with
      | Some ids => ret (Some ids)
      | None => raise NodeIdsError
      end
  end.

Definition size : N := be_size (population self).

Definition _attribute_names : gset string :=
  list_to_set (be_attribute_names (population self)).

Definition _dynamics_params_names : gset string :=
  list_to_set (add_dynamic_prefix (be_dynamics_attribute_names (population self))).

Definition _topology_property_names : gset string :=
  {[ SOURCE_NODE_ID; TARGET_NODE_ID ]}.

Definition property_names : gset string :=
  _attribute_names ∪ _dynamics_params_names ∪ _topology_property_names.

(** Modelled from the spec: [utils.ensure_ids], absent here, converts to
    the fixed ID array type.  On an array of integers only the dtype
    changes. *)
Definition ensure_ids (a : list Z) : list Z := a.

(** The same conversion applied to a Python list, which numpy rejects when
    an entry is a typed ID (a tuple) among integers. *)
Fixpoint ensure_ids_list (a : list id_value) : result (list Z) :=
  match a with
  | [] => Ok []
  | IntId z :: a' =>
      match ensure_ids_list a' with
      | Ok zs => Ok (z :: zs)
      | Err e => Err e
      end
  | CircuitEdgeId _ _ :: _ => Err NumpyError
  end.

Definition ids_column (vs : list Z) : column :=
  {| col_dtype := DIds; col_values := CInt <$> vs |}.

Definition _get_property (prop : string) (selection : Selection) : M column :=
  if decide (prop = SOURCE_NODE_ID) then
    vs <- backend_source_nodes selection ;; ret (ids_column (ensure_ids vs))
  else if decide (prop = TARGET_NODE_ID) then
    vs <- backend_target_nodes selection ;; ret (ids_column (ensure_ids vs))
  else if decide (prop ∈ _attribute_names) then
    backend_get_attribute prop selection
  else if decide (prop ∈ _dynamics_params_names) then
    match split_second DYNAMICS_PREFIX prop with
    | Some stripped => backend_get_dynamics_attribute stripped selection
    | None => raise NumpyError
    end
  else raise (NoSuchProperty prop).

(** *** [_get] *)

Definition empty_object_column : column :=
  {| col_dtype := DObject; col_values := [] |}.

(** [result[p] = values] on a DataFrame: replace the column or append it. *)
Fixpoint set_column (p : string) (c : column) (cols : list (string * column))
  : list (string * column) :=
  match cols with
  | [] => [(p, c)]
  | (q, d) :: cols' =>
      if decide (q = p) then (q, c) :: cols' else (q, d) :: set_column p c cols'
  end.

Fixpoint fill_columns (ps : list string) (selection : Selection)
    (cols : list (string * column)) : M (list (string * column)) :=
  match ps with
  | [] => ret cols
  | p :: ps' =>
      c <- _get_property p selection ;;
      fill_columns ps' selection (set_column p c cols)
  end.

Definition _get (selection : Selection) (properties : option props)
  : M edges_result :=
  let edge_ids := ensure_ids (flatten selection) in
  match properties with
  | None => ret (EdgeIds edge_ids)
  | Some (PropList ps) =>
      if Nat.eqb (length edge_ids) 0 then
        ret (EdgeFrame (DataFrame [] ((fun p => (p, empty_object_column)) <$> ps)))
      else
        cols <- fill_columns ps selection [] ;;
        ret (EdgeFrame (DataFrame edge_ids cols))
  | Some (PropScalar p) =>
      if Nat.eqb (length edge_ids) 0 then
        ret (EdgeFrame (Series p DFloat64 [] []))
      else
        c <- _get_property p selection ;;
        ret (EdgeFrame (Series p (col_dtype c) edge_ids (col_values c)))
  end.

(** *** [ids], [get], [_edge_ids_by_filter] *)

(** The query module is absent here: the query type, the set of property
    names a query mentions and the mask it evaluates to ([None] when the
    evaluation raises) are parameters. *)
Variable Query : Type.
Variable get_properties : Query -> gset string.
Variable resolve_ids : edges_result -> string -> string -> Query -> option (list bool).

Inductive group :=
| GroupNone
| GroupCircuitEdgeIds (entries : list (string * Z))
| GroupArray (a : list Z)
| GroupMapping (q : Query)
| GroupScalar (v : id_value)
| GroupList (vs : list id_value).

(** Modelled from the spec: [CircuitEdgeIds.filter_population(name).get_ids()],
    absent here, keeps the entries of this population and extracts their IDs. *)
Definition filter_population_ids (pop : string) (entries : list (string * Z)) : list Z :=
  snd <$> List.filter (fun e => String.eqb (fst e) pop) entries.

(** Modelled from the spec: [utils.ensure_list], absent here, wraps a single
    value to a one-element list. *)
Definition ensure_list (g : id_value + list id_value) : list id_value :=
  match g with inl v => [v] | inr vs => vs end.

(** [[cid.id for cid in result if cid.population == self.name]] under the
    [try]: an entry without a [population] attribute raises. *)
Fixpoint typed_ids (vs : list id_value) : result (list id_value) :=
  match vs with
  | [] => Ok []
  | IntId _ :: _ => Err InvalidIdType
  | CircuitEdgeId p i :: vs' =>
      match typed_ids vs' with
      | Ok r => Ok (if String.eqb p (name self) then IntId i :: r else r)
      | Err e => Err e
      end
  end.

Definition is_typed (v : option id_value) : bool :=
  match v with Some (CircuitEdgeId _ _) => true | _ => false end.

(** The [else] branch of the dispatch of [ids]. *)
Definition ids_of_list (vs : list id_value) : result (list id_value) :=
  if is_typed (head vs) then typed_ids vs else Ok vs.

(** [np.random.choice] turns its first argument into an array before it
    draws: a list of integers passes as it is, a list that also holds a
    typed ID (a tuple) is rejected by numpy. *)
Definition np_array (a : list id_value) : result (list id_value) :=
  if forallb (fun v => match v with IntId _ => true | CircuitEdgeId _ _ => false end) a
  then Ok a
  else Err NumpyError.

(** Lines 290-295: sample, then limit, then the conversion. *)
Definition sample_step (sample : option Z) (res : list id_value)
  : M (list id_value) :=
  match sample with
  | Some s =>
      if (0 <? length res)%nat
      then
        let size := Z.min s (Z.of_nat (length res)) in
        a <- lift (np_array res) ;;
        choice a size
      else ret res
  | None => ret res
  end.

Definition limit_step (limit : option Z) (res : list id_value) : list id_value :=
  match limit with
  | Some l => py_slice_to res l
  | None => res
  end.

Definition post_process (limit sample : option Z) (res : list id_value)
  : M (list Z) :=
  sampled <- sample_step sample res ;;
  lift (ensure_ids_list (limit_step limit sampled)).

(** The dispatch on the shape of [group]; [by_filter] is the method called
    for a mapping. *)
Definition dispatch (by_filter : Query -> bool -> M (list Z)) (g : group)
    (raise_missing_property : bool) : M (list id_value) :=
  match g with
  | GroupNone => sel <- select_all ;; ret (IntId <$> flatten sel)
  | GroupCircuitEdgeIds entries =>
      ret (IntId <$> filter_population_ids (name self) entries)
  | GroupArray a => ret (IntId <$> a)
  | GroupMapping q =>
      r <- by_filter q raise_missing_property ;; ret (IntId <$> r)
  | GroupScalar v => lift (ids_of_list (ensure_list (inl v)))
  | GroupList vs => lift (ids_of_list (ensure_list (inr vs)))
  end.

Definition ids_with (by_filter : Query -> bool -> M (list Z)) (g : group)
    (limit sample : option Z) (raise_missing_property : bool) : M (list Z) :=
  res <- dispatch by_filter g raise_missing_property ;;
  post_process limit sample res.

Definition get_with (by_filter : Query -> bool -> M (list Z)) (edge_ids : group)
    (properties : option props) : M edges_result :=
  edge_ids <- ids_with by_filter edge_ids None None true ;;
  _get (selection_from_values edge_ids) properties.

(** [_edge_ids_by_filter] calls [ids] with [None] and [get] with an
    array only, so those calls never come back to it. *)
Definition no_filter : Query -> bool -> M (list Z) :=
  fun _ _ => raise AssertionError.

Definition chunk_size : Z := 100000000.

Fixpoint filter_chunks (queries : Query) (properties : gset string)
    (chunks : list (list Z)) : M (list Z) :=
  match chunks with
  | [] => ret []
  | chunk :: chunks' =>
      data <- get_with no_filter (GroupArray chunk)
                (Some (PropList (elements properties))) ;;
      mask <- match resolve_ids data (name self) (population_type self) queries with
              | Some mask => ret mask
              | None => raise QueryError
              end ;;
      picked <- lift (np_mask chunk mask) ;;
      rest <- filter_chunks queries properties chunks' ;;
      ret (picked ++ rest)
  end.

Definition _edge_ids_by_filter (queries : Query) (raise_missing_prop : bool)
  : M (list Z) :=
  let properties := get_properties queries in
  let unknown_props := properties ∖ property_names in
  if raise_missing_prop && negb (bool_decide (unknown_props = ∅)) then
    raise (UnknownProperty unknown_props)
  else
    ids <- ids_with no_filter GroupNone None None true ;;
    let n := Z.to_nat (1 + Z.of_nat (length ids) / chunk_size) in
    filter_chunks queries (properties ∖ unknown_props) (np_array_split ids n).

Definition ids (g : group) (limit sample : option Z)
    (raise_missing_property : bool) : M (list Z) :=
  ids_with _edge_ids_by_filter g limit sample raise_missing_property.

Definition get (edge_ids : group) (properties : option props) : M edges_result :=
  get_with _edge_ids_by_filter edge_ids properties.

(** *** Node and edge accessors *)

Definition resolved (ids : option (list Z)) : list Z := default [] ids.

Definition afferent_nodes (tgt : option node_group) (unique : bool) : M (list Z) :=
  selection <- match tgt with
               | Some _ =>
                   node_ids <- _resolve_node_ids (target self) tgt ;;
                   backend_afferent_edges (resolved node_ids)
               | None => select_all
               end ;;
  res <- backend_source_nodes selection ;;
  ret (ensure_ids (if unique then np_unique res else res)).

Definition efferent_nodes (src : option node_group) (unique : bool) : M (list Z) :=
  selection <- match src with
               | Some _ =>
                   node_ids <- _resolve_node_ids (source self) src ;;
                   backend_efferent_edges (resolved node_ids)
               | None => select_all
               end ;;
  res <- backend_target_nodes selection ;;
  ret (ensure_ids (if unique then np_unique res else res)).

(** Python truthiness of the [properties] argument. *)
Definition truthy (properties : option props) : bool :=
  match properties with
  | None => false
  | Some (PropScalar p) => negb (String.eqb p "")
  | Some (PropList ps) => negb (Nat.eqb (length ps) 0)
  end.

Definition pathway_edges (src tgt : option node_group) (properties : option props)
  : M edges_result :=
  match src, tgt with
  | None, None => raise (InvalidArgument MissingSourceAndTarget)
  | _, _ =>
      source_node_ids <- _resolve_node_ids (source self) src ;;
      target_edge_ids <- _resolve_node_ids (target self) tgt ;;
      selection <- match source_node_ids, target_edge_ids with
                   | None, _ => backend_afferent_edges (resolved target_edge_ids)
                   | Some s, None => backend_efferent_edges s
                   | Some s, Some t => backend_connecting_edges s t
                   end ;;
      if truthy properties then _get selection properties
      else ret (EdgeIds (ensure_ids (flatten selection)))
  end.

Definition afferent_edges (node_id : option node_group) (properties : option props) :=
  pathway_edges None node_id properties.

Definition efferent_edges (node_id : option node_group) (properties : option props) :=
  pathway_edges node_id None properties.

Definition pair_edges (source_node_id target_node_id : option node_group)
    (properties : option props) :=
  pathway_edges source_node_id target_node_id properties.

(** *** The generator [_iter_connections] *)

Inductive direction := DirSource | DirTarget.

(** The nested helper [_optimal_direction]. *)
Definition _optimal_direction (source_node_ids target_node_ids : option (list Z))
  : M direction :=
  match source_node_ids, target_node_ids with
  | None, None => raise (InvalidArgument MissingSourceAndTarget)
  | None, Some _ => ret DirTarget
  | Some _, None => ret DirSource
  | Some s, Some t =>
      range_size_source <- _estimate_range_size backend_efferent_edges s 3 ;;
      range_size_target <- _estimate_range_size backend_afferent_edges t 3 ;;
      ret (if Qltb range_size_source range_size_target then DirSource else DirTarget)
  end.

(** Lines 484-489: which side is iterated and which one filters. *)
Definition primary_side (d : direction) (source_node_ids target_node_ids : option (list Z))
  : option (list Z) :=
  match d with DirTarget => target_node_ids | DirSource => source_node_ids end.

Definition secondary_side (d : direction) (source_node_ids target_node_ids : option (list Z))
  : option (list Z) :=
  match d with DirTarget => source_node_ids | DirSource => target_node_ids end.

Definition get_connected_node_ids (d : direction) (key_node_id : Z) (unique : bool)
  : M (list Z) :=
  match d with
  | DirTarget => afferent_nodes (Some (NodeId key_node_id)) unique
  | DirSource => efferent_nodes (Some (NodeId key_node_id)) unique
  end.

(** What stays fixed while the loops run. *)
Record loop_env := {
  le_direction : direction;
  le_secondary : option (list Z);
  le_unique : bool;
  le_shuffle : bool;
}.

(** The generator object: not started, suspended at a [yield] inside the
    inner loop, or finished. *)
Inductive gen_state :=
| GenCreated (source_node_ids target_node_ids : option (list Z))
             (unique_node_ids shuffle_ : bool)
| GenSuspended (env : loop_env) (key_node_id conn_node_id : Z)
               (rest : list (Z * Z)) (primary_node_ids : list Z)
               (secondary_node_ids_used : gset Z)
| GenFinished.

Inductive signal (A : Type) :=
| Yield (a : A)
| StopIteration
| Raise (e : error).
Arguments Yield {A} a.
Arguments StopIteration {A}.
Arguments Raise {A} e.

(** Lines 501-514: the [(secondary_node_id, count)] rows of one primary node. *)
Definition connected_rows (env : loop_env) (key_node_id : Z) : M (list (Z * Z)) :=
  connected_node_ids <- get_connected_node_ids (le_direction env) key_node_id false ;;
  let with_count :=
    (fun r => (to_uint32 (fst r), to_uint32 (snd r)))
      <$> np_unique_counts connected_node_ids in
  let with_count :=
    match le_secondary env with
    | Some sec => List.filter (fun r => np_isin sec (fst r)) with_count
    | None => with_count
    end in
  if le_shuffle env then shuffle with_count else ret with_count.

(** The inner [for] from some position on: the first row that is not
    skipped, with the rows after it. *)
Fixpoint scan_rows (unique_node_ids : bool) (used : gset Z) (rows : list (Z * Z))
  : option ((Z * Z) * list (Z * Z)) :=
  match rows with
  | [] => None
  | (conn_node_id, edge_count) :: rest =>
      if unique_node_ids && bool_decide (conn_node_id ∈ used)
      then scan_rows unique_node_ids used rest
      else Some ((conn_node_id, edge_count), rest)
  end.

Definition emitted (d : direction) (key_node_id conn_node_id edge_count : Z)
  : Z * Z * Z :=
  match d with
  | DirTarget => (conn_node_id, key_node_id, edge_count)
  | DirSource => (key_node_id, conn_node_id, edge_count)
  end.

(** The outer [for] from some primary node on, up to the next [yield]. *)
Fixpoint run_primaries (env : loop_env) (used : gset Z) (primary_node_ids : list Z)
  : World -> World * (gen_state * signal (Z * Z * Z)) :=
  match primary_node_ids with
  | [] => fun w => (w, (GenFinished, StopIteration))
  | key_node_id :: primary' => fun w =>
      match connected_rows env key_node_id w with
      | (w', Err e) => (w', (GenFinished, Raise e))
      | (w', Ok rows) =>
          match scan_rows (le_unique env) used rows with
          | Some ((conn_node_id, edge_count), rest) =>
              (w', (GenSuspended env key_node_id conn_node_id rest primary' used,
                    Yield (emitted (le_direction env) key_node_id conn_node_id edge_count)))
          | None => run_primaries env used primary' w'
          end
      end
  end.

(** Lines 480-498: everything before the loops. *)
Definition start (source_node_ids target_node_ids : option (list Z))
    (unique_node_ids shuffle_ : bool) : M (option (loop_env * list Z)) :=
  if _is_empty source_node_ids || _is_empty target_node_ids then ret None
  else
    d <- _optimal_direction source_node_ids target_node_ids ;;
    let primary := np_unique (resolved (primary_side d source_node_ids target_node_ids)) in
    primary <- (if shuffle_ then shuffle primary else ret primary) ;;
    let secondary := np_unique <$> secondary_side d source_node_ids target_node_ids in
    ret (Some ({| le_direction := d; le_secondary := secondary;
                  le_unique := unique_node_ids; le_shuffle := shuffle_ |}, primary)).

(** One [next()] on the generator. *)
Definition gen_next (g : gen_state) : World -> World * (gen_state * signal (Z * Z * Z)) :=
  match g with
  | GenCreated s t unique_node_ids shuffle_ => fun w =>
      match start s t unique_node_ids shuffle_ w with
      | (w', Err e) => (w', (GenFinished, Raise e))
      | (w', Ok None) => (w', (GenFinished, StopIteration))
      | (w', Ok (Some (env, primary))) => run_primaries env ∅ primary w'
      end
  | GenSuspended env key_node_id conn_node_id rest primary used => fun w =>
      if le_unique env then
        (* secondary_node_ids_used.add(conn_node_id); break *)
        run_primaries env ({[ conn_node_id ]} ∪ used) primary w
      else
        match scan_rows false used rest with
        | Some ((conn', edge_count), rest') =>
            (w, (GenSuspended env key_node_id conn' rest' primary used,
                 Yield (emitted (le_direction env) key_node_id conn' edge_count)))
        | None => run_primaries env used primary w
        end
  | GenFinished => fun w => (w, (GenFinished, StopIteration))
  end.

(** *** [iter_connections] and its wrapping generator expressions *)

Inductive annotation :=
| NoAnnotation
| EdgeCount (n : Z)
| EdgeIdList (ids : list (string * Z)).

(** [(CircuitNodeId(source.name, s), CircuitNodeId(target.name, t), ...)]. *)
Record connection := {
  conn_source : string * Z;
  conn_target : string * Z;
  conn_annotation : annotation;
}.

Inductive mode := AddCircuitIds | AddEdgeIds | OmitEdgeCount.

Record iterator := { it_mode : mode; it_gen : gen_state }.

Definition annotate (m : mode) (source_id target_id count : Z) : M connection :=
  let s := (np_name (source self), source_id) in
  let t := (np_name (target self), target_id) in
  match m with
  | AddCircuitIds =>
      ret {| conn_source := s; conn_target := t; conn_annotation := EdgeCount count |}
  | OmitEdgeCount =>
      ret {| conn_source := s; conn_target := t; conn_annotation := NoAnnotation |}
  | AddEdgeIds =>
      r <- pair_edges (Some (NodeId source_id)) (Some (NodeId target_id)) None ;;
      let edge_ids := match r with EdgeIds l => l | EdgeFrame _ => [] end in
      ret {| conn_source := s; conn_target := t;
             conn_annotation := EdgeIdList ((fun i => (name self, i)) <$> edge_ids) |}
  end.

(** One [next()] on the iterator returned by [iter_connections]. *)
Definition iter_next (it : iterator) : World -> World * (iterator * signal connection) :=
  fun w =>
    match gen_next (it_gen it) w with
    | (w', (g', Yield (source_id, target_id, count))) =>
        match annotate (it_mode it) source_id target_id count w' with
        | (w'', Ok c) => (w'', ({| it_mode := it_mode it; it_gen := g' |}, Yield c))
        | (w'', Err e) => (w'', ({| it_mode := it_mode it; it_gen := GenFinished |}, Raise e))
        end
    | (w', (g', StopIteration)) =>
        (w', ({| it_mode := it_mode it; it_gen := g' |}, StopIteration))
    | (w', (g', Raise e)) =>
        (w', ({| it_mode := it_mode it; it_gen := g' |}, Raise e))
    end.

Definition iter_connections (src tgt : option node_group)
    (unique_node_ids shuffle_ return_edge_ids return_edge_count : bool) : M iterator :=
  if return_edge_ids && return_edge_count then
    raise (InvalidArgument ExclusiveFlags)
  else
    source_node_ids <- _resolve_node_ids (source self) src ;;
    target_node_ids <- _resolve_node_ids (target self) tgt ;;
    let it := GenCreated source_node_ids target_node_ids unique_node_ids shuffle_ in
    if return_edge_count then ret {| it_mode := AddCircuitIds; it_gen := it |}
    else if return_edge_ids then ret {| it_mode := AddEdgeIds; it_gen := it |}
    else ret {| it_mode := OmitEdgeCount; it_gen := it |}.

(** How a run of [next()] calls ended. *)
Inductive ending := Exhausted | Failed (e : error) | Pending.

(** Advance the iterator up to [fuel] times, collecting what it yields. *)
Fixpoint drain (fuel : nat) (it : iterator) (w : World)
  : World * (list connection * ending) :=
  match fuel with
  | O => (w, ([], Pending))
  | S fuel' =>
      match iter_next it w with
      | (w', (it', Yield c)) =>
          let '(w'', (cs, e)) := drain fuel' it' w' in (w'', (c :: cs, e))
      | (w', (_, StopIteration)) => (w', ([], Exhausted))
      | (w', (_, Raise e)) => (w', ([], Failed e))
      end
  end.

(** *** [property_dtypes], [positions] *)

(** [sort_index]: order the labelled entries by label. *)
Definition sort_index {A} (entries : list (string * A)) : list (string * A) :=
  merge_sort (fun a b => String.le (fst a) (fst b)) entries.

(** [get([0], list(property_names)).dtypes.sort_index()]. *)
Definition property_dtypes : M (list (string * dtype)) :=
  r <- get (GroupList [IntId 0]) (Some (PropList (elements property_names))) ;;
  match r with
  | EdgeFrame (DataFrame _ columns) =>
      ret (sort_index ((fun c => (fst c, col_dtype (snd c))) <$> columns))
  | _ => raise NumpyError
  end.

(** The dict [{f"{side}_{kind}_{p}": p for p in ["x", "y", "z"]}], as its
    items in insertion order. *)
Definition position_props (side kind : string) : list (string * string) :=
  (fun p => (side +:+ "_" +:+ kind +:+ "_" +:+ p, p)) <$> ["x"; "y"; "z"].

(** [DataFrame.rename(columns=mapping)]: labels outside the mapping stay. *)
Definition rename_columns {A} (mapping : gmap string string)
    (columns : list (string * A)) : list (string * A) :=
  (fun c => (default (fst c) (mapping !! fst c), snd c)) <$> columns.

Definition positions (edge_ids : group) (side kind : string) : M frame :=
  if negb (bool_decide (side ∈ ["afferent"; "efferent"])) then raise AssertionError
  else if negb (bool_decide (kind ∈ ["center"; "surface"])) then raise AssertionError
  else
    let props := position_props side kind in
    r <- get edge_ids (Some (PropList (fst <$> props))) ;;
    match r with
    | EdgeFrame (DataFrame index columns) =>
        ret (DataFrame index
               (sort_index (rename_columns (list_to_map props) columns)))
    | EdgeFrame f => ret f
    | EdgeIds _ => raise NumpyError
    end.

(** *** Vocabulary of the statements *)

(** Appending one event to the call log. *)
Definition logged (ev : event) (w : World) : World :=
  {| w_rng := w_rng w; w_log := w_log w ++ [ev] |}.

Definition created (unique_node_ids shuffle_ return_edge_ids return_edge_count : bool)
    (s t : option (list Z)) : iterator :=
  {| it_mode := if return_edge_count then AddCircuitIds
                else if return_edge_ids then AddEdgeIds else OmitEdgeCount;
     it_gen := GenCreated s t unique_node_ids shuffle_ |}.

Definition source_id (c : connection) : Z := snd (conn_source c).
Definition target_id (c : connection) : Z := snd (conn_target c).

Definition primary_id (d : direction) (c : connection) : Z :=
  match d with DirSource => source_id c | DirTarget => target_id c end.

Definition secondary_id (d : direction) (c : connection) : Z :=
  match d with DirSource => target_id c | DirTarget => source_id c end.

(** A bound on the number of [next()] calls that can still yield in
    uniqueness mode. *)
Definition primary_bound (g : gen_state) : nat :=
  match g with
  | GenCreated s t _ _ => S (length (resolved s) + length (resolved t))
  | GenSuspended _ _ _ _ primary _ => length primary
  | GenFinished => O
  end.

(** [sample] is a draw without replacement of [min n (len xs)] elements
    of [xs]. *)
Definition sampled {A} (n : nat) (xs sample : list A) : Prop :=
  length sample = Nat.min n (length xs)
  /\ exists rest, Permutation xs (sample ++ rest).

(** The number of index ranges of the per-node selections. *)
Definition range_counts (f : list Z -> Selection) (node_ids : list Z) : list Z :=
  (fun node_id => Z.of_nat (length (f [node_id]))) <$> node_ids.

Definition is_int (v : id_value) : bool :=
  match v with IntId _ => true | CircuitEdgeId _ _ => false end.

(** A list that holds both a plain integer and a typed edge ID. *)
Definition mixed (vs : list id_value) : bool :=
  existsb is_int vs && existsb (fun v => negb (is_int v)) vs.

Definition row_index (f : frame) : list Z :=
  match f with Series _ _ index _ => index | DataFrame index _ => index end.

Definition column_names (f : frame) : list string :=
  match f with
  | Series p _ _ _ => [p]
  | DataFrame _ columns => fst <$> columns
  end.



(** The distinct names of a list, in order of first occurrence. *)
Definition add_name (names : list string) (p : string) : list string :=
  if decide (p ∈ names) then names else names ++ [p].

Definition first_occurrences (ps : list string) : list string :=
  foldl add_name [] ps.

(** The outer loop reaches [key] among [primary], whose rows give [(c, n)]
    as the first row that is not skipped, [rest] being the rows after it
    and [remaining] the primary nodes after [key]. *)
Definition next_key (env : loop_env) (used : gset Z) (primary : list Z)
    (key c n : Z) (rest : list (Z * Z)) (remaining : list Z) : Prop :=
  exists pre rows (wa wb : World),
    primary = pre ++ key :: remaining
    /\ connected_rows env key wa = (wb, Ok rows)
    /\ scan_rows (le_unique env) used rows = Some ((c, n), rest).

(** What one [next()] that yields does to the generator. *)
Definition yield_step (g : gen_state) (w : World) (env : loop_env) (key c n : Z)
    (rest : list (Z * Z)) (remaining : list Z) (used : gset Z) : Prop :=
  match g with
  | GenCreated s t u sh =>
      exists w0 primary,
        start s t u sh w = (w0, Ok (Some (env, primary)))
        /\ used = ∅ /\ next_key env used primary key c n rest remaining
  | GenSuspended env0 key0 conn0 rest0 primary0 used0 =>
      env = env0
      /\ ((le_unique env = true /\ used = {[ conn0 ]} ∪ used0
           /\ next_key env used primary0 key c n rest remaining)
          \/ (le_unique env = false /\ used = used0
              /\ ((key = key0 /\ remaining = primary0 /\ rest0 = (c, n) :: rest)
                  \/ (rest0 = []
                      /\ next_key env used primary0 key c n rest remaining))))
  | GenFinished => False
  end.

(** The node IDs the backend lists for one primary node, one per edge:
    the sources of its afferent edges or the targets of its efferent
    edges; [None] when the node population does not resolve the ID. *)
Definition connected_of (d : direction) (key_node_id : Z) : option (list Z) :=
  match d with
  | DirTarget =>
      (fun ids => be_source_nodes (population self)
                    (be_afferent_edges (population self) ids))
        <$> np_ids (target self) (NodeId key_node_id)
  | DirSource =>
      (fun ids => be_target_nodes (population self)
                    (be_efferent_edges (population self) ids))
        <$> np_ids (source self) (NodeId key_node_id)
  end.

(** The annotation a connection carries in each mode; in the edge-ID mode
    it is what [pair_edges] selects for the pair, tagged with the
    population name. *)
Definition annotated (m : mode) (c : connection) : Prop :=
  match m with
  | AddCircuitIds => exists n, conn_annotation c = EdgeCount n
  | OmitEdgeCount => conn_annotation c = NoAnnotation
  | AddEdgeIds =>
      exists source_ids target_ids,
        np_ids (source self) (NodeId (source_id c)) = Some source_ids
        /\ np_ids (target self) (NodeId (target_id c)) = Some target_ids
        /\ conn_annotation c
           = EdgeIdList ((fun i => (name self, i))
                           <$> flatten (be_connecting_edges (population self)
                                          source_ids target_ids))
  end.

(** A row [(secondary, count)] of the primary node [key]: it passes the
    secondary filter, its ID is the uint32 image of a node the backend
    lists for [key], and its count is how often the backend lists it. *)
Definition row_of (env : loop_env) (key : Z) (r : Z * Z) : Prop :=
  (forall sec, le_secondary env = Some sec -> fst r ∈ sec)
  /\ exists connected v,
       connected_of (le_direction env) key = Some connected
       /\ v ∈ connected
       /\ fst r = to_uint32 v
       /\ snd r = to_uint32 (Z.of_nat (count_occ Z.eq_dec connected v)).

(** The generator of an iteration over the resolved arrays [s] and [t]
    only holds primary nodes of the chosen side and rows of the current
    primary node. *)
Definition tracks (s t : option (list Z)) (g : gen_state) : Prop :=
  match g with
  | GenCreated s' t' _ _ => s' = s /\ t' = t
  | GenSuspended env key _ rest primary _ =>
      (exists p, primary_side (le_direction env) s t = Some p
                 /\ forall k, k ∈ key :: primary -> k ∈ p)
      /\ le_secondary env = np_unique <$> secondary_side (le_direction env) s t
      /\ Forall (row_of env key) rest
  | GenFinished => True
  end.

(** Some single node ID is not resolved by the source or by the target
    node population. *)
Definition unresolved_node : Prop :=
  exists k, np_ids (source self) (NodeId k) = None
            \/ np_ids (target self) (NodeId k) = None.

(** Advancing the iterator from world [w] comes to an end. *)
Definition ends (it : iterator) (w : World) : Prop :=
  exists fuel, snd (snd (drain fuel it w)) <> Pending.

(** The node IDs the backend lists fit the uint32 rows of the generator. *)
Definition uint32_nodes : Prop :=
  forall d key connected v,
    connected_of d key = Some connected -> v ∈ connected -> 0 <= v < 2 ^ 32.

Definition pair_of (c : connection) : Z * Z := (source_id c, target_id c).

(** A computation that leaves the random generator as it found it. *)
Definition quiet {A} (m : M A) : Prop := forall w, w_rng (fst (m w)) = w_rng w.

(** A generator whose remaining run draws no random number: it does not
    shuffle and, when it has not started yet, choosing the direction takes
    no sample (one side is [None], or neither side has more than three
    node IDs). *)
Definition draws_nothing (g : gen_state) : Prop :=
  match g with
  | GenCreated s t _ sh =>
      sh = false
      /\ (s = None \/ t = None
          \/ ((length (resolved s) <= 3)%nat /\ (length (resolved t) <= 3)%nat))
  | GenSuspended env _ _ _ _ _ => le_shuffle env = false
  | GenFinished => True
  end.

(** The cells of a one-column result. *)
Definition single_column (f : frame) : option (string * column) :=
  match f with
  | DataFrame _ [c] => Some c
  | _ => None
  end.

(** For an iteration over [s] and [t] in direction [d], the backend lists
    node [v] for the primary node [key], [key] is one of the primary node
    IDs asked for, and [v] passes the filter of the secondary side. *)
Definition listed (d : direction) (s t : option (list Z)) (key v : Z) : Prop :=
  (exists p, primary_side d s t = Some p /\ key ∈ p)
  /\ (exists connected, connected_of d key = Some connected /\ v ∈ connected)
  /\ (forall sec, secondary_side d s t = Some sec -> to_uint32 v ∈ sec).

End Model.

Arguments Yield {A} a.
Arguments StopIteration {A}.
Arguments Raise {A} e.
Arguments GroupNone {Query}.
Arguments GroupCircuitEdgeIds {Query} entries.
Arguments GroupArray {Query} a.
Arguments GroupMapping {Query} q.
Arguments GroupScalar {Query} v.
Arguments GroupList {Query} vs.

(** ** A concrete random source and a small circuit *)

#[export] Instance TapeRandom : RandomSource (list nat).
Proof.
  assert (Hdraw : forall A (fuel : nat) (tape : list nat) (xs : list A),
             (fuel <= length xs)%nat ->
             exists rest, Permutation xs (fst (tape_draw fuel tape xs) ++ rest)
                          /\ length (fst (tape_draw fuel tape xs)) = fuel).
  { intros A fuel. induction fuel as [|fuel IH]; intros tape xs Hle.
    - exists xs. simpl. split; [reflexivity | reflexivity].
    - destruct xs as [|x0 xs0]; [simpl in Hle; lia|].
      cbn [tape_draw].
      set (i := (hd O tape mod length (x0 :: xs0))%nat).
      assert (Hi : (i < length (x0 :: xs0))%nat).
      { subst i. apply Nat.mod_upper_bound. simpl. lia. }
      destruct (lookup_lt_is_Some_2 (x0 :: xs0) i Hi) as [y Hy].
      assert (Hnth : nth i (x0 :: xs0) x0 = y).
      { apply nth_lookup_Some with (d := x0) in Hy. exact Hy. }
      destruct (IH (tl tape) (delete i (x0 :: xs0))) as [rest [Hp Hl]].
      { rewrite length_delete by eauto. lia. }
      destruct (tape_draw fuel (tl tape) (delete i (x0 :: xs0))) as [out tape'] eqn:E.
      cbn [fst] in Hp, Hl |- *. exists rest. split.
      + rewrite Hnth. cbn [app]. rewrite <- Hp. apply delete_Permutation. exact Hy.
      + cbn [length]. rewrite Hl. reflexivity. }
  refine {| rand_shuffle := @tape_shuffle; rand_choice := @tape_choice |}.
  - intros A g xs. unfold tape_shuffle.
    destruct (Hdraw A (length xs) g xs (le_n _)) as [rest [Hp Hl]].
    assert (rest = []) as ->.
    { apply Permutation_length in Hp. rewrite length_app in Hp.
      destruct rest; [reflexivity | simpl in Hp; lia]. }
    rewrite app_nil_r in Hp. exact Hp.
  - intros A g xs n Hn. exact (Hdraw A n g xs Hn).
Defined.

(** An edge table: row [i] is edge [i], as [(source node, target node)]. *)
Definition edge_table := list (Z * Z).

Definition edges_where (tbl : edge_table) (P : Z * Z -> bool) : Selection :=
  selection_from_values
    (fst <$> List.filter (fun r => P (snd r)) (zip (seqZ 0 (Z.of_nat (length tbl))) tbl)).

Definition table_column (tbl : edge_table) (f : Z * Z -> Z) (sel : Selection) : list Z :=
  (fun i => f (nth (Z.to_nat i) tbl (0, 0))) <$> flatten sel.

(** A backend over an edge table, with a float attribute [syn_weight], an
    integer attribute [section] and no dynamics parameters. *)
Definition table_backend (tbl : edge_table) : Backend := {|
  be_size := N.of_nat (length tbl);
  be_source := "default";
  be_target := "default";
  be_attribute_names := ["syn_weight"; "section"];
  be_dynamics_attribute_names := [];
  be_afferent_edges := fun ns => edges_where tbl (fun r => np_isin ns (snd r));
  be_efferent_edges := fun ns => edges_where tbl (fun r => np_isin ns (fst r));
  be_connecting_edges := fun ss ts =>
    edges_where tbl (fun r => np_isin ss (fst r) && np_isin ts (snd r));
  be_source_nodes := table_column tbl fst;
  be_target_nodes := table_column tbl snd;
  be_get_attribute := fun p sel =>
    if String.eqb p "syn_weight"
    then {| col_dtype := DFloat64; col_values := (fun _ => CFloat 1) <$> flatten sel |}
    else {| col_dtype := DInt64; col_values := CInt <$> flatten sel |};
  be_get_dynamics_attribute := fun _ sel =>
    {| col_dtype := DFloat64; col_values := (fun _ => CNaN) <$> flatten sel |};
|}.

Definition plain_nodes (pop : string) : NodePopulation := {|
  np_name := pop;
  np_ids := fun g =>
    match g with
    | NodeId i => Some [i]
    | NodeIds l => Some l
    | NodeSet _ => None
    end;
|}.

(** Four edges: 0->1 twice, 0->2 once, 3->1 once. *)
Definition small_table : edge_table := [(0, 1); (0, 1); (0, 2); (3, 1)].

Definition small_population : EdgePopulation := {|
  name := "default";
  population := table_backend small_table;
  population_type := "chemical";
  source := plain_nodes "default";
  target := plain_nodes "default";
|}.

(** A stand-in for the query module: a query is the list of property
    names it mentions and selects every row. *)
Definition names_query := list string.

Definition names_query_properties (q : names_query) : gset string := list_to_set q.

Definition names_query_mask (data : edges_result) (_ _ : string) (_ : names_query)
  : option (list bool) :=
  match data with
  | EdgeFrame (DataFrame index _) => Some ((fun _ => true) <$> index)
  | EdgeFrame (Series _ _ index _) => Some ((fun _ => true) <$> index)
  | EdgeIds l => Some ((fun _ => true) <$> l)
  end.

Definition fresh_world (tape : list nat) : @World (list nat) :=
  {| w_rng := tape; w_log := [] |}.

Definition small_ids :=
  ids small_population names_query names_query_properties names_query_mask.


(** The small circuit with the afferent centre coordinates as attributes. *)
Definition positioned_population : EdgePopulation := {|
  name := "default";
  population :=
    let b := table_backend small_table in
    {| be_size := be_size b;
       be_source := be_source b;
       be_target := be_target b;
       be_attribute_names :=
         ["afferent_center_z"; "afferent_center_x"; "afferent_center_y"];
       be_dynamics_attribute_names := [];
       be_afferent_edges := be_afferent_edges b;
       be_efferent_edges := be_efferent_edges b;
       be_connecting_edges := be_connecting_edges b;
       be_source_nodes := be_source_nodes b;
       be_target_nodes := be_target_nodes b;
       be_get_attribute := fun p sel =>
         {| col_dtype := DFloat64; col_values := (fun _ => CFloat 1) <$> flatten sel |};
       be_get_dynamics_attribute := be_get_dynamics_attribute b |};
  population_type := "chemical";
  source := plain_nodes "default";
  target := plain_nodes "default";
|}.

(** ** Properties *)

(** *** numpy helpers *)

Lemma np_unique_NoDup (xs : list Z) : NoDup (np_unique xs).
Proof.
  unfold np_unique. rewrite merge_sort_Permutation. apply NoDup_remove_dups.
Qed.

Lemma np_unique_elem_of (xs : list Z) (x : Z) : x ∈ np_unique xs <-> x ∈ xs.
Proof.
  unfold np_unique. rewrite merge_sort_Permutation. apply elem_of_remove_dups.
Qed.

Lemma np_unique_length (xs : list Z) : (length (np_unique xs) <= length xs)%nat.
Proof.
  unfold np_unique. rewrite merge_sort_Permutation.
  apply submseteq_length, NoDup_submseteq; [apply NoDup_remove_dups|].
  intros x. apply elem_of_remove_dups.
Qed.


Lemma flatten_select_all (n : N) : flatten [(0, Z.of_N n)] = seqZ 0 (Z.of_N n).
Proof.
  unfold flatten. simpl. rewrite Z.sub_0_r. apply app_nil_r.
Qed.

Lemma ensure_ids_list_ints (zs : list Z) : ensure_ids_list (IntId <$> zs) = Ok zs.
Proof.
  induction zs as [|z zs IH]; csimpl; [reflexivity|]. rewrite IH. reflexivity.
Qed.

(** Unfold the monad operations down to functions on worlds. *)
Ltac run_M :=
  repeat (progress (unfold bind, ret, raise, lift, call; cbv beta iota)).

Section Properties.

Context {G : Type} `{RandomSource G}.
Variable self : EdgePopulation.
Variable Query : Type.
Variable get_properties : Query -> gset string.
Variable resolve_ids : edges_result -> string -> string -> Query -> option (list bool).

Local Abbreviation ids' := (ids self Query get_properties resolve_ids).
Local Abbreviation get' := (get self Query get_properties resolve_ids).
Local Abbreviation by_filter' :=
  (_edge_ids_by_filter self Query get_properties resolve_ids).

(** *** Laziness of [iter_connections] *)

Lemma iter_connections_created src tgt u sh rids rcount s t (w : @World G) :
  rids && rcount = false ->
  snd (_resolve_node_ids (source self) src w) = Ok s ->
  snd (_resolve_node_ids (target self) tgt w) = Ok t ->
  iter_connections self src tgt u sh rids rcount w
  = (w, Ok (created u sh rids rcount s t)).
Proof.
  intros Hflags Hs Ht. unfold iter_connections, bind. rewrite Hflags.
  assert (Hres : forall nodes g r,
             snd (_resolve_node_ids nodes g w) = Ok r ->
             _resolve_node_ids nodes g w = (w, Ok r)).
  { intros nodes g r. unfold _resolve_node_ids, ret, raise.
    destruct g as [g|]; [destruct (np_ids nodes g)|]; simpl; congruence. }
  rewrite (Hres _ _ _ Hs), (Hres _ _ _ Ht). unfold created, ret.
  destruct rcount, rids; reflexivity.
Qed.

(** C10. Calling [iter_connections] with neither [source] nor [target]
    returns an iterator and touches nothing; the error "Either `source`
    or `target` should be specified" is raised by the first [next()] on
    that iterator.  With both [return_edge_ids] and [return_edge_count]
    set, the call itself raises, whatever the other arguments are. *)
Theorem iter_connections_errors_lazy_and_eager
    (u sh rids rcount : bool) (src tgt : option node_group) (w w2 : @World G) :
  iter_connections self None None u sh rids rcount w
  = (if rids && rcount then (w, Err (InvalidArgument ExclusiveFlags))
     else (w, Ok (created u sh rids rcount None None)))
  /\ iter_next self (created u sh rids rcount None None) w2
     = (w2, ({| it_mode := it_mode (created u sh rids rcount None None);
                it_gen := GenFinished |},
             Raise (InvalidArgument MissingSourceAndTarget)))
  /\ iter_connections self src tgt u sh true true w
     = (w, Err (InvalidArgument ExclusiveFlags)).
Proof.
  split; [|split].
  - destruct (rids && rcount) eqn:E.
    + unfold iter_connections. rewrite E. reflexivity.
    + apply iter_connections_created; [exact E | reflexivity | reflexivity].
  - reflexivity.
  - reflexivity.
Qed.

(** C3. When [source] or [target] resolves to an empty array, the
    iterator returned by [iter_connections] is exhausted by its first
    [next()]: it yields nothing, and neither the call nor the iteration
    adds a backend call to the log. *)
Theorem iter_connections_empty_side
    (src tgt : option node_group) (u sh rids rcount : bool)
    (s t : option (list Z)) (w : @World G) :
  rids && rcount = false ->
  snd (_resolve_node_ids (source self) src w) = Ok s ->
  snd (_resolve_node_ids (target self) tgt w) = Ok t ->
  s = Some [] \/ t = Some [] ->
  exists it,
    iter_connections self src tgt u sh rids rcount w = (w, Ok it)
    /\ forall (fuel : nat) (w2 : @World G),
         drain self (S fuel) it w2 = (w2, ([], Exhausted)).
Proof.
  intros Hflags Hs Ht Hempty.
  exists (created u sh rids rcount s t). split.
  - apply iter_connections_created; assumption.
  - intros fuel w2. cbn [drain]. unfold iter_next, created. cbn [it_gen gen_next].
    unfold start. 
    assert (_is_empty s || _is_empty t = true) as ->.
    { destruct Hempty as [-> | ->]; [reflexivity|].
      apply orb_true_r. }
    reflexivity.
Qed.

Lemma ids_with_none by_filter (rmp : bool) (w : @World G) :
  ids_with self Query by_filter GroupNone None None rmp w
  = (logged EvSelectAll w, Ok (seqZ 0 (Z.of_N (size self)))).
Proof.
  unfold ids_with, dispatch, post_process, sample_step, limit_step,
    select_all, select_all_ranges.
  fold (size self). run_M.
  rewrite flatten_select_all, ensure_ids_list_ints. reflexivity.
Qed.

(** C8. [ids(None)] makes one [select_all] call and returns the IDs
    [0 .. size-1] in ascending order: [size] elements, the one at
    position [i] being [i]. *)
Theorem ids_none_all_ascending (rmp : bool) (w : @World G) :
  ids' GroupNone None None rmp w
  = (logged EvSelectAll w, Ok (seqZ 0 (Z.of_N (size self))))
  /\ length (seqZ 0 (Z.of_N (size self))) = N.to_nat (size self)
  /\ forall i : nat, (i < N.to_nat (size self))%nat ->
       seqZ 0 (Z.of_N (size self)) !! i = Some (Z.of_nat i).
Proof.
  split; [|split].
  - apply ids_with_none.
  - rewrite length_seqZ. lia.
  - intros i Hi. rewrite lookup_seqZ. split; lia.
Qed.

(** *** Uniqueness mode of the generator *)

Lemma shuffle_spec {A} (xs : list A) (w : @World G) :
  exists ys g, shuffle xs w = ({| w_rng := g; w_log := w_log w |}, Ok ys)
               /\ Permutation xs ys.
Proof.
  unfold shuffle. pose proof (rand_shuffle_perm A (w_rng w) xs) as Hp.
  destruct (rand_shuffle (w_rng w) xs) as [ys g]. exists ys, g. split; [reflexivity | exact Hp].
Qed.

Lemma scan_rows_fresh used rows c n rest :
  scan_rows true used rows = Some ((c, n), rest) -> c ∉ used.
Proof.
  induction rows as [|[c' n'] rows IH]; simpl; [discriminate|].
  case_bool_decide as Hin; simpl.
  - exact IH.
  - intros [= -> -> ->]. exact Hin.
Qed.

Lemma run_primaries_cases env used primary (w w' : @World G) g' sig :
  run_primaries self env used primary w = (w', (g', sig)) ->
  match sig with
  | Yield tup =>
      exists pre key c n rest primary',
        primary = pre ++ key :: primary'
        /\ g' = GenSuspended env key c rest primary' used
        /\ tup = emitted (le_direction env) key c n
        /\ (le_unique env = true -> c ∉ used)
  | _ => g' = GenFinished
  end.
Proof.
  revert w. induction primary as [|key primary IH]; intros w; cbn [run_primaries].
  - intros [= <- <- <-]. reflexivity.
  - destruct (connected_rows self env key w) as [w1 [rows|e]].
    + destruct (scan_rows (le_unique env) used rows) as [[[c n] rest]|] eqn:Hscan.
      * intros [= <- <- <-]. exists [], key, c, n, rest, primary.
        repeat split. intros Hu. rewrite Hu in Hscan.
        exact (scan_rows_fresh _ _ _ _ _ Hscan).
      * intros Hrun. specialize (IH _ Hrun). destruct sig as [tup| |e]; try exact IH.
        destruct IH as (pre & key' & c & n & rest & primary' & -> & Hg & Ht & Hu).
        exists (key :: pre), key', c, n, rest, primary'. repeat split; assumption.
    + intros [= <- <- <-]. reflexivity.
Qed.

Lemma annotate_ids m s t count (w w' : @World G) c :
  annotate self m s t count w = (w', Ok c) -> source_id c = s /\ target_id c = t.
Proof.
  unfold annotate. destruct m; run_M.
  - intros [= <- <-]. split; reflexivity.
  - destruct (pair_edges self _ _ _ w) as [w1 [r|e]]; [|discriminate].
    intros [= <- <-]. split; reflexivity.
  - intros [= <- <-]. split; reflexivity.
Qed.

Lemma emitted_ids d key c n m (w w' : @World G) conn :
  (let '(s, t, k) := emitted d key c n in annotate self m s t k w) = (w', Ok conn) ->
  primary_id d conn = key /\ secondary_id d conn = c.
Proof.
  destruct d; cbn [emitted]; intros Ha; apply annotate_ids in Ha as [Hs Ht];
    unfold primary_id, secondary_id; split; assumption.
Qed.

(** One [next()] from a suspended generator in uniqueness mode. *)
Lemma iter_next_suspended_unique m env key conn rest primary used (w w' : @World G) it' sig :
  le_unique env = true ->
  iter_next self {| it_mode := m; it_gen := GenSuspended env key conn rest primary used |} w
  = (w', (it', sig)) ->
  match sig with
  | Yield c =>
      exists pre key' conn' rest' primary',
        primary = pre ++ key' :: primary'
        /\ it' = {| it_mode := m;
                    it_gen := GenSuspended env key' conn' rest' primary'
                                ({[ conn ]} ∪ used) |}
        /\ primary_id (le_direction env) c = key'
        /\ secondary_id (le_direction env) c = conn'
        /\ conn' ∉ ({[ conn ]} ∪ used : gset Z)
  | _ => True
  end.
Proof.
  intros Hu. unfold iter_next. cbn [it_gen it_mode gen_next]. rewrite Hu.
  destruct (run_primaries self env ({[conn]} ∪ used) primary w) as [w1 [g1 sig1]] eqn:Hrun.
  apply run_primaries_cases in Hrun.
  destruct sig1 as [[[s t] k]| |e].
  - destruct Hrun as (pre & key' & c' & n & rest' & primary' & -> & -> & Ht & Hfresh).
    destruct (annotate self m s t k w1) as [w2 [c|e]] eqn:Ha.
    + intros [= <- <- <-]. exists pre, key', c', rest', primary'.
      assert (Hids : primary_id (le_direction env) c = key'
                     /\ secondary_id (le_direction env) c = c').
      { eapply (emitted_ids _ _ _ n m w1 w2). rewrite <- Ht. exact Ha. }
      destruct Hids as [Hp Hs]. repeat split; auto.
    + intros [= <- <- <-]. exact I.
  - intros [= <- <- <-]. exact I.
  - intros [= <- <- <-]. exact I.
Qed.

Lemma drain_suspended_unique fuel :
  forall m env key conn rest primary used (w w' : @World G) out e (pri sec : list Z),
    le_unique env = true ->
    NoDup primary -> NoDup pri -> NoDup sec ->
    (forall p, p ∈ pri -> p ∉ primary) ->
    (forall x, x ∈ sec -> x ∈ ({[ conn ]} ∪ used : gset Z)) ->
    drain self fuel {| it_mode := m; it_gen := GenSuspended env key conn rest primary used |} w
    = (w', (out, e)) ->
    NoDup (pri ++ (primary_id (le_direction env) <$> out))
    /\ NoDup (sec ++ (secondary_id (le_direction env) <$> out))
    /\ ((length primary < fuel)%nat -> e <> Pending).
Proof.
  induction fuel as [|fuel IH];
    intros m env key conn rest primary used w w' out e pri sec Hu Hnd Hpri Hsec Hdisj Hused;
    cbn [drain].
  - intros [= <- <- <-]. rewrite !app_nil_r. repeat split; [assumption..|lia].
  - destruct (iter_next self _ w) as [w1 [it1 sig]] eqn:Hnext.
    pose proof (iter_next_suspended_unique _ _ _ _ _ _ _ _ _ _ _ Hu Hnext) as Hcase.
    destruct sig as [c| |err].
    + destruct Hcase as (pre & key' & conn' & rest' & primary' & -> & -> & Hp & Hs & Hfresh).
      destruct (drain self fuel _ w1) as [w2 [cs e']] eqn:Hd.
      intros [= <- <- <-].
      apply NoDup_app in Hnd as (Hpre & Hpre_disj & Hnd').
      apply NoDup_cons in Hnd' as [Hkey' Hnd'].
      eapply (IH _ _ _ _ _ _ _ _ _ _ _ (pri ++ [key']) (sec ++ [conn'])) in Hd; try assumption.
      * destruct Hd as (H1 & H2 & H3). rewrite !fmap_cons, Hp, Hs.
        rewrite <- !app_assoc in H1, H2. cbn [app] in H1, H2.
        repeat split; [exact H1 | exact H2 |].
        intros Hlt. apply H3. rewrite length_app in Hlt. simpl in Hlt. lia.
      * apply NoDup_app. repeat split; [assumption| |apply NoDup_singleton].
        intros p Hp1 Hp2. apply list_elem_of_singleton in Hp2 as ->.
        apply (Hdisj _ Hp1). apply elem_of_app. right. left.
      * apply NoDup_app. repeat split; [assumption| |apply NoDup_singleton].
        intros x Hx1 Hx2. apply list_elem_of_singleton in Hx2 as ->.
        exact (Hfresh (Hused _ Hx1)).
      * intros p Hp1 Hp2. apply elem_of_app in Hp1 as [Hp1|Hp1].
        -- apply (Hdisj _ Hp1). apply elem_of_app. right. right. exact Hp2.
        -- apply list_elem_of_singleton in Hp1 as ->. exact (Hkey' Hp2).
      * intros x Hx. apply elem_of_app in Hx as [Hx|Hx].
        -- apply elem_of_union. right. exact (Hused _ Hx).
        -- apply list_elem_of_singleton in Hx as ->. apply elem_of_union. left.
           apply elem_of_singleton. reflexivity.
    + intros [= <- <- <-]. rewrite !app_nil_r. repeat split; [assumption..|discriminate].
    + intros [= <- <- <-]. rewrite !app_nil_r. repeat split; [assumption..|discriminate].
Qed.

Lemma start_unique s t sh (w w1 : @World G) env primary :
  start self s t true sh w = (w1, Ok (Some (env, primary))) ->
  le_unique env = true
  /\ NoDup primary
  /\ (length primary <= length (resolved s) + length (resolved t))%nat.
Proof.
  unfold start. destruct (_is_empty s || _is_empty t); [discriminate|].
  unfold bind. destruct (_optimal_direction self s t w) as [w0 [d|e]]; [|discriminate].
  set (p := np_unique (resolved (primary_side d s t))).
  assert (Hp : NoDup p /\ (length p <= length (resolved s) + length (resolved t))%nat).
  { split; [apply np_unique_NoDup|]. subst p.
    etransitivity; [apply np_unique_length|]. destruct d; simpl; lia. }
  destruct Hp as [Hnd Hlen]. destruct sh.
  - destruct (shuffle_spec p w0) as (ys & g & -> & Hperm). unfold ret.
    intros [= <- <- <-]. cbn [le_unique]. rewrite <- Hperm. auto.
  - unfold ret. intros [= <- <- <-]. auto.
Qed.

Lemma iter_connections_gen src tgt u sh rids rcount (w w1 : @World G) it :
  iter_connections self src tgt u sh rids rcount w = (w1, Ok it) ->
  exists s t, it_gen it = GenCreated s t u sh.
Proof.
  unfold iter_connections. destruct (rids && rcount); [discriminate|].
  unfold bind.
  destruct (_resolve_node_ids (source self) src w) as [w2 [s|e]]; [|discriminate].
  destruct (_resolve_node_ids (target self) tgt w2) as [w3 [t|e]]; [|discriminate].
  exists s, t. unfold ret in *. revert H0.
  intros Hit. destruct rcount; [|destruct rids]; injection Hit as _ <-; reflexivity.
Qed.

Lemma NoDup_both_sides d (out : list connection) :
  NoDup (primary_id d <$> out) -> NoDup (secondary_id d <$> out) ->
  NoDup (source_id <$> out) /\ NoDup (target_id <$> out).
Proof. destruct d; unfold primary_id, secondary_id; auto. Qed.

(** C1. With [unique_node_ids=True], however far the iterator returned
    by [iter_connections] is advanced, no node ID occurs twice on the
    source side of the emitted tuples and none occurs twice on the target
    side: the secondary-side IDs are pairwise distinct and every primary
    node contributes at most one tuple.  The iteration ends after at most
    one [next()] per primary node, plus one. *)
Theorem iter_connections_unique_node_ids
    (src tgt : option node_group) (sh rids rcount : bool)
    (w w1 w2 w3 : @World G) (it : iterator) (fuel : nat)
    (out : list connection) (e : ending) :
  iter_connections self src tgt true sh rids rcount w = (w1, Ok it) ->
  drain self fuel it w2 = (w3, (out, e)) ->
  NoDup (source_id <$> out)
  /\ NoDup (target_id <$> out)
  /\ ((primary_bound (it_gen it) < fuel)%nat -> e <> Pending).
Proof.
  intros Hcall Hdrain.
  apply iter_connections_gen in Hcall as (s & t & Hgen).
  destruct it as [m g]. cbn [it_gen] in *. subst g.
  destruct fuel as [|fuel]; cbn [drain] in Hdrain.
  { injection Hdrain as <- <- <-. repeat split; [constructor..|simpl; lia]. }
  unfold iter_next in Hdrain. cbn [it_gen it_mode gen_next] in Hdrain.
  destruct (start self s t true sh w2) as [w4 [[[env primary]|]|err]] eqn:Hstart.
  - apply start_unique in Hstart as (Hu & Hnd & Hlen).
    destruct (run_primaries self env ∅ primary w4) as [w5 [g1 sig]] eqn:Hrun.
    apply run_primaries_cases in Hrun.
    destruct sig as [[[a b] k]| |err].
    + destruct Hrun as (pre & key & c & n & rest & primary' & -> & -> & Ht & _).
      destruct (annotate self m a b k w5) as [w6 [conn|err]] eqn:Ha.
      * assert (Hids : primary_id (le_direction env) conn = key
                       /\ secondary_id (le_direction env) conn = c).
        { eapply (emitted_ids _ _ _ n m w5 w6). rewrite <- Ht. exact Ha. }
        destruct Hids as [Hp Hs].
        destruct (drain self fuel _ w6) as [w7 [cs e']] eqn:Hd.
        injection Hdrain as <- <- <-.
        apply NoDup_app in Hnd as (_ & _ & Hnd).
        apply NoDup_cons in Hnd as [Hkey Hnd].
        eapply (drain_suspended_unique _ _ _ _ _ _ _ _ _ _ _ _ [key] [c]) in Hd;
          try assumption.
        -- destruct Hd as (H1 & H2 & H3). cbn [app] in H1, H2.
           rewrite length_app in Hlen. cbn [length] in Hlen.
           destruct (NoDup_both_sides (le_direction env) (conn :: cs)) as [Hs' Ht'].
           ++ rewrite fmap_cons, Hp. exact H1.
           ++ rewrite fmap_cons, Hs. exact H2.
           ++ repeat split; [exact Hs' | exact Ht' |].
              cbn [primary_bound]. intros Hlt. apply H3. lia.
        -- apply NoDup_singleton.
        -- apply NoDup_singleton.
        -- intros p Hp1 Hp2. apply list_elem_of_singleton in Hp1 as ->. exact (Hkey Hp2).
        -- intros x Hx. apply list_elem_of_singleton in Hx as ->.
           apply elem_of_union. left. apply elem_of_singleton. reflexivity.
      * injection Hdrain as <- <- <-. repeat split; [constructor..|discriminate].
    + injection Hdrain as <- <- <-. repeat split; [constructor..|discriminate].
    + injection Hdrain as <- <- <-. repeat split; [constructor..|discriminate].
  - injection Hdrain as <- <- <-. repeat split; [constructor..|discriminate].
  - injection Hdrain as <- <- <-. repeat split; [constructor..|discriminate].
Qed.

(** *** The direction heuristic *)

Lemma choice_spec {A} (xs : list A) (n : nat) (w : @World G) :
  (n <= length xs)%nat ->
  exists ys g rest,
    choice xs (Z.of_nat n) w = ({| w_rng := g; w_log := w_log w |}, Ok ys)
    /\ length ys = n /\ Permutation xs (ys ++ rest).
Proof.
  intros Hn. unfold choice.
  assert ((Z.of_nat n <? 0) || (Z.of_nat (length xs) <? Z.of_nat n) = false) as ->.
  { apply orb_false_iff. split; apply Z.ltb_ge; lia. }
  rewrite Nat2Z.id.
  destruct (rand_choice_spec A (w_rng w) xs n Hn) as (rest & Hp & Hl).
  destruct (rand_choice (w_rng w) xs n) as [ys g]. exists ys, g, rest. auto.
Qed.

Lemma range_sizes_call (ev : list Z -> event) (f : list Z -> Selection)
    (node_ids : list Z) (w : @World G) :
  exists w', range_sizes (fun ns => call (ev ns) (f ns)) node_ids w
             = (w', Ok (range_counts f node_ids)).
Proof.
  revert w. induction node_ids as [|n ns IH]; intros w; cbn [range_sizes].
  - exists w. reflexivity.
  - unfold bind at 1. unfold call at 1. cbv beta iota.
    unfold bind at 1.
    destruct (IH {| w_rng := w_rng w; w_log := w_log w ++ [ev [n]] |}) as [w' ->].
    exists w'. reflexivity.
Qed.

Lemma estimate_range_size_spec (ev : list Z -> event) (f : list Z -> Selection)
    (node_ids : list Z) (w : @World G) :
  node_ids <> [] ->
  exists sample w',
    _estimate_range_size (fun ns => call (ev ns) (f ns)) node_ids 3 w
    = (w', Ok (np_median (range_counts f sample)))
    /\ sampled 3 node_ids sample.
Proof.
  intros Hne. unfold _estimate_range_size.
  destruct (Nat.eqb_spec (length node_ids) 0) as [Hz|Hz].
  { destruct node_ids; [congruence | discriminate]. }
  destruct (Nat.ltb_spec 3 (length node_ids)) as [Hlt|Hge].
  - destruct (choice_spec node_ids 3 w) as (ys & g & rest & Hc & Hl & Hp); [lia|].
    unfold bind at 1. rewrite Hc.
    destruct (range_sizes_call ev f ys {| w_rng := g; w_log := w_log w |}) as [w' Hr].
    unfold bind. rewrite Hr. exists ys, w'. split; [reflexivity|].
    split; [lia | exists rest; exact Hp].
  - unfold bind at 1. unfold ret at 1.
    destruct (range_sizes_call ev f node_ids w) as [w' Hr].
    unfold bind. rewrite Hr. exists node_ids, w'. split; [reflexivity|].
    split; [lia | exists []; rewrite app_nil_r; reflexivity].
Qed.


(** *** The ID resolver *)

Lemma typed_ids_untyped_entry vs :
  existsb is_int vs = true -> typed_ids self vs = Err InvalidIdType.
Proof.
  induction vs as [|[z|p i] vs IH]; cbn [existsb is_int typed_ids orb].
  - discriminate.
  - reflexivity.
  - intros Hex. rewrite (IH Hex). reflexivity.
Qed.

Lemma ensure_ids_list_error vs e : ensure_ids_list vs = Err e -> e = NumpyError.
Proof.
  induction vs as [|[z|p i] vs IH]; cbn [ensure_ids_list].
  - discriminate.
  - destruct (ensure_ids_list vs); [discriminate|]. intros [= <-]. auto.
  - intros [= <-]. reflexivity.
Qed.

Lemma ensure_ids_list_typed_entry vs :
  existsb (fun v => negb (is_int v)) vs = true -> ensure_ids_list vs = Err NumpyError.
Proof.
  induction vs as [|[z|p i] vs IH]; cbn [existsb is_int negb ensure_ids_list orb].
  - discriminate.
  - intros Hex. rewrite (IH Hex). reflexivity.
  - reflexivity.
Qed.

Lemma choice_error {A} (xs ys : list A) size (w w' : @World G) e :
  choice xs size w = (w', Err e) -> e = NumpyError.
Proof.
  unfold choice. destruct ((size <? 0) || (Z.of_nat (length xs) <? size)).
  - intros [= _ <-]. reflexivity.
  - destruct (rand_choice (w_rng w) xs (Z.to_nat size)). discriminate.
Qed.

Lemma post_process_error limit sample res (w w' : @World G) e :
  post_process limit sample res w = (w', Err e) -> e = NumpyError.
Proof.
  unfold post_process, bind, lift.
  destruct (sample_step sample res w) as [w1 [sampled|e1]] eqn:Hs.
  - intros [= _ He]. exact (ensure_ids_list_error _ _ He).
  - intros [= _ <-]. unfold sample_step in Hs. destruct sample as [s0|].
    + destruct (0 <? length res)%nat.
      * revert Hs. unfold bind, lift, np_array.
        destruct (forallb _ res); [|intros [= _ <-]; reflexivity].
        intros Hs. exact (choice_error _ res _ _ _ _ Hs).
      * discriminate.
    + discriminate.
Qed.

(** C4, as the code has it.  A list mixing typed edge IDs and plain
    integers fails with "All values from a list must be of type int or
    CircuitEdgeId." when its first entry is a typed ID, whatever [sample]
    and [limit] are.  When its first entry is a plain integer that check
    is not made: the call never fails with that error, and without
    [sample] and [limit] the list reaches the array conversion, which
    rejects it. *)
Theorem ids_mixed_list_first_entry_decides
    (vs : list id_value) (limit sample : option Z) (rmp : bool) (w : @World G) :
  mixed vs = true ->
  (is_typed (head vs) = true ->
   ids' (GroupList vs) limit sample rmp w = (w, Err InvalidIdType))
  /\ (is_typed (head vs) = false ->
      snd (ids' (GroupList vs) limit sample rmp w) <> Err InvalidIdType
      /\ ids' (GroupList vs) None None rmp w = (w, Err NumpyError)).
Proof.
  intros Hmixed. apply andb_true_iff in Hmixed as [Hint Htyped].
  unfold ids, ids_with, dispatch, ensure_list, ids_of_list.
  split; intros Hhead; rewrite Hhead.
  - rewrite (typed_ids_untyped_entry _ Hint). reflexivity.
  - split.
    + unfold bind at 1. unfold lift at 1.
      destruct (post_process limit sample vs w) as [w' [r|e]] eqn:Hpp.
      * discriminate.
      * apply post_process_error in Hpp as ->. discriminate.
    + unfold post_process, sample_step, limit_step. run_M.
      rewrite (ensure_ids_list_typed_entry _ Htyped). reflexivity.
Qed.


(** *** The edge accessor *)



Lemma split_second_prefixed (n : string) :
  exists stripped, split_second DYNAMICS_PREFIX (DYNAMICS_PREFIX +:+ n) = Some stripped.
Proof.
  unfold split_second.
  assert (String.index 0 DYNAMICS_PREFIX (DYNAMICS_PREFIX +:+ n) = Some O) as ->
    by (destruct n; reflexivity).
  destruct (String.index 0 DYNAMICS_PREFIX _); eauto.
Qed.

Lemma dynamics_name_prefixed (p : string) :
  p ∈ _dynamics_params_names self -> exists n, p = DYNAMICS_PREFIX +:+ n.
Proof.
  unfold _dynamics_params_names, add_dynamic_prefix.
  rewrite elem_of_list_to_set, list_elem_of_fmap. intros (n & -> & _). eauto.
Qed.












End Properties.

(** ** The theorems at concrete inputs, on the small circuit *)

Lemma iter_connections_unique_node_ids_witness :
  let it := created true true true false (Some [0; 3]) (Some [1; 2]) in
  let run := drain small_population 10 it (fresh_world [2; 7; 1]%nat) in
  NoDup (source_id <$> fst (snd run)) /\ NoDup (target_id <$> fst (snd run))
  /\ snd (snd run) <> Pending.
Proof.
  intros it run.
  destruct (iter_connections_unique_node_ids small_population
              (Some (NodeIds [0; 3])) (Some (NodeIds [1; 2])) true true false
              (fresh_world []) (fresh_world []) (fresh_world [2; 7; 1]%nat)
              (fst run) it 10 (fst (snd run)) (snd (snd run)))
    as (Hs & Ht & Hend).
  - reflexivity.
  - vm_compute. reflexivity.
  - split; [exact Hs|]. split; [exact Ht|]. apply Hend. vm_compute. lia.
Defined.


Lemma iter_connections_empty_side_witness :
  exists it,
    iter_connections small_population (Some (NodeIds [])) None false false false false
      (fresh_world []) = (fresh_world [], Ok it)
    /\ forall (fuel : nat) (w2 : @World (list nat)),
         drain small_population (S fuel) it w2 = (w2, ([], Exhausted)).
Proof.
  apply (iter_connections_empty_side small_population (Some (NodeIds [])) None
           false false false false (Some []) None (fresh_world [])).
  - reflexivity.
  - reflexivity.
  - reflexivity.
  - left. reflexivity.
Defined.

Lemma ids_mixed_int_first_counterexample :
  let vs := [IntId 1; CircuitEdgeId "default" 2] in
  mixed vs = true
  /\ small_ids (GroupList vs) None None true (fresh_world [])
     = (fresh_world [], Err NumpyError)
  /\ snd (small_ids (GroupList vs) None None true (fresh_world []))
     <> Err InvalidIdType.
Proof.
  split; [reflexivity|]. split; [vm_compute; reflexivity|].
  vm_compute. discriminate.
Qed.

Lemma ids_mixed_list_first_entry_decides_witness :
  small_ids (GroupList [CircuitEdgeId "default" 0; IntId 1]) (Some 1) None true
    (fresh_world [])
  = (fresh_world [], Err InvalidIdType).
Proof.
  apply (ids_mixed_list_first_entry_decides small_population names_query
           names_query_properties names_query_mask
           [CircuitEdgeId "default" 0; IntId 1] (Some 1) None true (fresh_world [])).
  - reflexivity.
  - reflexivity.
Defined.






Lemma ids_none_all_ascending_witness :
  small_ids GroupNone None None true (fresh_world [])
  = (logged EvSelectAll (fresh_world []), Ok [0; 1; 2; 3])
  /\ seqZ 0 (Z.of_N (size small_population)) !! 2%nat = Some 2.
Proof.
  destruct (ids_none_all_ascending small_population names_query names_query_properties
              names_query_mask true (fresh_world [])) as (Hids & _ & Hnth).
  split; [exact Hids|]. apply (Hnth 2%nat). vm_compute. lia.
Defined.



(** ** Further properties of the accessors *)

Lemma StronglySorted_le_NoDup_lt (l : list Z) :
  StronglySorted Z.le l -> NoDup l -> StronglySorted Z.lt l.
Proof.
  induction l as [|x l IH]; intros Hs Hn; [constructor|].
  apply StronglySorted_inv in Hs as [Hs Hx]. apply NoDup_cons in Hn as [Hnx Hn].
  constructor; [auto|]. rewrite Forall_forall in Hx |- *. intros y Hy.
  specialize (Hx y Hy). assert (x <> y) by (intros ->; exact (Hnx Hy)).
  lia.
Qed.

Lemma np_unique_sorted (xs : list Z) : StronglySorted Z.lt (np_unique xs).
Proof.
  apply StronglySorted_le_NoDup_lt; [|apply np_unique_NoDup].
  unfold np_unique. apply StronglySorted_merge_sort; apply _.
Qed.

Lemma selection_from_values_spec (vs : list Z) :
  flatten (selection_from_values vs) = vs
  /\ Forall (fun r => fst r < snd r) (selection_from_values vs).
Proof.
  induction vs as [|v vs [IHf IHr]]; [split; [reflexivity | constructor]|].
  cbn [selection_from_values].
  destruct (selection_from_values vs) as [|[a b] rs] eqn:Hsel.
  - cbn in IHf. subst vs. split.
    + unfold flatten. cbn. replace (v + 1 - v) with 1 by lia. reflexivity.
    + repeat constructor. cbn. lia.
  - apply Forall_cons in IHr as [Hab Hrs]. cbn [fst snd] in Hab.
    destruct (decide (a = v + 1)) as [->|Hne].
    + split.
      * unfold flatten in *. cbn [fmap list_fmap concat fst snd] in *.
        rewrite <- IHf. rewrite (seqZ_cons v) by lia.
        replace (Z.succ v) with (v + 1) by lia.
        replace (Z.pred (b - v)) with (b - (v + 1)) by lia. reflexivity.
      * constructor; [cbn; lia | exact Hrs].
    + split.
      * unfold flatten in *. cbn [fmap list_fmap concat fst snd] in *.
        rewrite <- IHf. replace (v + 1 - v) with 1 by lia. reflexivity.
      * constructor; [cbn; lia|]. constructor; [exact Hab | exact Hrs].
Qed.

Lemma StronglySorted_sublist {A} (R : relation A) (l1 l2 : list A) :
  l1 `sublist_of` l2 -> StronglySorted R l2 -> StronglySorted R l1.
Proof.
  induction 1 as [|x l1 l2 Hsub IH|x l1 l2 Hsub IH]; intros Hs.
  - constructor.
  - apply StronglySorted_inv in Hs as [Hs Hx]. constructor; [auto|].
    rewrite Forall_forall in Hx |- *. intros y Hy.
    apply Hx. exact (elem_of_sublist _ _ _ Hy Hsub).
  - apply StronglySorted_inv in Hs as [Hs _]. auto.
Qed.

Lemma seqZ_sorted (k : nat) : forall m, StronglySorted Z.lt (seqZ m (Z.of_nat k)).
Proof.
  induction k as [|k IH]; intros m; [constructor|].
  rewrite seqZ_cons by lia. replace (Z.pred (Z.of_nat (S k))) with (Z.of_nat k) by lia.
  constructor; [apply IH|]. rewrite Forall_forall. intros y Hy.
  apply elem_of_seqZ in Hy. lia.
Qed.

Lemma split_sizes_concat {A} (sizes : list nat) : forall xs : list A,
  concat (split_sizes sizes xs) = take (sum_list sizes) xs.
Proof.
  induction sizes as [|k ks IH]; intros xs; cbn [split_sizes concat].
  - rewrite take_0. reflexivity.
  - rewrite IH. cbn. apply take_take_drop.
Qed.

Lemma split_sizes_length {A} (sizes : list nat) : forall xs : list A,
  length (split_sizes sizes xs) = length sizes.
Proof.
  induction sizes as [|k ks IH]; intros xs; cbn [split_sizes length]; [reflexivity|].
  rewrite IH. reflexivity.
Qed.

Lemma split_sizes_bound {A} (bound : nat) (sizes : list nat) : forall xs : list A,
  Forall (fun k => (k <= bound)%nat) sizes ->
  Forall (fun chunk => (length chunk <= bound)%nat) (split_sizes sizes xs).
Proof.
  induction sizes as [|k ks IH]; intros xs Hb; cbn [split_sizes]; [constructor|].
  apply Forall_cons in Hb as [Hk Hks]. constructor; [|apply IH; exact Hks].
  rewrite length_take. lia.
Qed.

(** [np.array_split] into [n > 0] sections: consecutive pieces of the
    array, [n] of them, none longer than the rounded-up quotient. *)
Lemma np_array_split_sections {A} (xs : list A) (n : nat) :
  (0 < n)%nat ->
  concat (np_array_split xs n) = xs
  /\ length (np_array_split xs n) = n
  /\ Forall (fun chunk => (length chunk <= S (length xs / n))%nat) (np_array_split xs n).
Proof.
  intros Hn. unfold np_array_split.
  set (len := length xs). set (each := (len / n)%nat). set (extras := (len mod n)%nat).
  assert (Hdiv : len = (n * each + extras)%nat) by (apply Nat.div_mod_eq).
  assert (Hex : (extras < n)%nat) by (apply Nat.mod_upper_bound; lia).
  clearbody each extras.
  split; [|split].
  - rewrite split_sizes_concat, sum_list_with_app, !sum_list_replicate.
    apply take_ge. fold len. nia.
  - rewrite split_sizes_length, length_app, !length_replicate. lia.
  - apply split_sizes_bound. apply Forall_app. split.
    + apply Forall_replicate. lia.
    + apply Forall_replicate. lia.
Qed.

(** The number of chunks of [_edge_ids_by_filter] is positive and large
    enough for chunks of at most [chunk_size] IDs. *)
Lemma chunk_count_enough (len : nat) :
  let n := Z.to_nat (1 + Z.of_nat len / chunk_size) in
  (0 < n)%nat /\ Z.of_nat (S (len / n)) <= chunk_size.
Proof.
  intros n.
  assert (Hc : 0 < chunk_size) by (unfold chunk_size; lia).
  pose proof (Z.div_pos (Z.of_nat len) chunk_size ltac:(lia) Hc) as Hq.
  pose proof (Z.mul_succ_div_gt (Z.of_nat len) chunk_size Hc) as Hgt.
  set (q := Z.of_nat len / chunk_size) in *.
  assert (Hn : Z.of_nat n = 1 + q) by (subst n; lia).
  clearbody n q. split; [lia|].
  set (each := (len / n)%nat). set (extras := (len mod n)%nat).
  assert (Hdiv : len = (n * each + extras)%nat) by (apply Nat.div_mod_eq).
  clearbody each extras. nia.
Qed.

(** X6. The chunks that [_edge_ids_by_filter] cuts the ID array into,
    [np.array_split(ids, 1 + len(ids) // chunk_size)], are
    [1 + len(ids) // chunk_size] consecutive pieces whose concatenation is
    the array itself, and none is longer than [chunk_size]. *)
Theorem filter_chunks_layout {A} (xs : list A) :
  let n := Z.to_nat (1 + Z.of_nat (length xs) / chunk_size) in
  concat (np_array_split xs n) = xs
  /\ length (np_array_split xs n) = n
  /\ Forall (fun chunk => Z.of_nat (length chunk) <= chunk_size) (np_array_split xs n).
Proof.
  intros n. destruct (chunk_count_enough (length xs)) as [Hpos Heach]. fold n in Hpos, Heach.
  destruct (np_array_split_sections xs n Hpos) as (Hconcat & Hlen & Hbound).
  split; [exact Hconcat|]. split; [exact Hlen|].
  eapply Forall_impl; [exact Hbound|]. cbn beta. intros chunk Hle. lia.
Qed.

Section AccessorProperties.

Context {G : Type} `{RandomSource G}.
Variable self : EdgePopulation.
Variable Query : Type.
Variable get_properties : Query -> gset string.
Variable resolve_ids : edges_result -> string -> string -> Query -> option (list bool).

Local Abbreviation ids' := (ids self Query get_properties resolve_ids).
Local Abbreviation get' := (get self Query get_properties resolve_ids).
Local Abbreviation by_filter' :=
  (_edge_ids_by_filter self Query get_properties resolve_ids).

Lemma get_property_one_read (p : string) (sel : Selection) (w : @World G) :
  p ∈ property_names self ->
  exists ev c, _get_property self p sel w = (logged ev w, Ok c).
Proof.
  intros Hin. unfold _get_property.
  destruct (decide (p = SOURCE_NODE_ID));
    [unfold backend_source_nodes; run_M; eauto|].
  destruct (decide (p = TARGET_NODE_ID));
    [unfold backend_target_nodes; run_M; eauto|].
  destruct (decide (p ∈ _attribute_names self));
    [unfold backend_get_attribute; run_M; eauto|].
  destruct (decide (p ∈ _dynamics_params_names self)) as [Hd|Hd].
  - apply dynamics_name_prefixed in Hd as [dyn ->].
    destruct (split_second_prefixed dyn) as [stripped ->].
    unfold backend_get_dynamics_attribute. run_M. eauto.
  - exfalso. unfold property_names, _topology_property_names in Hin.
    apply elem_of_union in Hin as [Hin|Hin].
    + apply elem_of_union in Hin as [Hin|Hin]; contradiction.
    + apply elem_of_union in Hin as [Hin|Hin];
        apply elem_of_singleton in Hin; contradiction.
Qed.

Lemma get_property_unknown (p : string) (sel : Selection) (w : @World G) :
  p ∉ property_names self ->
  _get_property self p sel w = (w, Err (NoSuchProperty p)).
Proof.
  intros Hnot. unfold property_names, _topology_property_names in Hnot.
  unfold _get_property.
  destruct (decide (p = SOURCE_NODE_ID)) as [->|_].
  { exfalso. apply Hnot. apply elem_of_union. right. apply elem_of_union. left.
    apply elem_of_singleton. reflexivity. }
  destruct (decide (p = TARGET_NODE_ID)) as [->|_].
  { exfalso. apply Hnot. apply elem_of_union. right. apply elem_of_union. right.
    apply elem_of_singleton. reflexivity. }
  destruct (decide (p ∈ _attribute_names self)) as [Ha|_].
  { exfalso. apply Hnot. apply elem_of_union. left. apply elem_of_union. left. exact Ha. }
  destruct (decide (p ∈ _dynamics_params_names self)) as [Hd|_].
  { exfalso. apply Hnot. apply elem_of_union. left. apply elem_of_union. right. exact Hd. }
  reflexivity.
Qed.

(** X1. The property resolver fails with "No such property" exactly for
    the names outside [property_names], and then reads nothing; for a
    property name it succeeds with exactly one backend read. *)
Theorem get_property_fails_iff_unknown (p : string) (sel : Selection) (w : @World G) :
  (_get_property self p sel w = (w, Err (NoSuchProperty p))
   <-> p ∉ property_names self)
  /\ ((exists ev c, _get_property self p sel w = (logged ev w, Ok c))
      <-> p ∈ property_names self).
Proof.
  split; split.
  - intros Herr Hin. destruct (get_property_one_read p sel w Hin) as (ev & c & Hok).
    congruence.
  - apply get_property_unknown.
  - intros (ev & c & Hok). destruct (decide (p ∈ property_names self)) as [|Hnot];
      [assumption|]. rewrite (get_property_unknown p sel w Hnot) in Hok. discriminate.
  - apply get_property_one_read.
Qed.

Lemma set_column_names (p : string) (c : column) (cols : list (string * column)) :
  fst <$> set_column p c cols = add_name (fst <$> cols) p.
Proof.
  unfold add_name. induction cols as [|[q d] cols IH]; cbn [set_column].
  - rewrite decide_False; [reflexivity|]. intros Hin. inversion Hin.
  - destruct (decide (q = p)) as [->|Hne].
    + csimpl. rewrite decide_True; [reflexivity | left].
    + csimpl. rewrite IH. destruct (decide (p ∈ fst <$> cols)) as [Hin|Hnin].
      * rewrite decide_True; [reflexivity | right; exact Hin].
      * rewrite decide_False; [reflexivity|].
        intros Hin. apply elem_of_cons in Hin as [->|Hin]; contradiction.
Qed.

Lemma add_name_NoDup names p : NoDup names -> NoDup (add_name names p).
Proof.
  intros Hn. unfold add_name. destruct (decide (p ∈ names)) as [|Hnin]; [exact Hn|].
  apply NoDup_app. split; [exact Hn|]. split; [|apply NoDup_singleton].
  intros x Hx Hp. apply list_elem_of_singleton in Hp as ->. contradiction.
Qed.

Lemma add_name_elem_of names p q : q ∈ add_name names p <-> q ∈ names \/ q = p.
Proof.
  unfold add_name. destruct (decide (p ∈ names)) as [Hin|Hnin].
  - split; [auto|]. intros [Hq| ->]; assumption.
  - rewrite elem_of_app, list_elem_of_singleton. reflexivity.
Qed.

Lemma foldl_add_name_spec ps : forall names,
  NoDup names ->
  NoDup (foldl add_name names ps)
  /\ forall q, q ∈ foldl add_name names ps <-> q ∈ names \/ q ∈ ps.
Proof.
  induction ps as [|p ps IH]; intros names Hn; cbn [foldl].
  - split; [exact Hn|]. intros q. split; [auto|]. intros [Hq|Hq]; [exact Hq | inversion Hq].
  - destruct (IH (add_name names p) (add_name_NoDup _ _ Hn)) as [Hnd Hmem].
    split; [exact Hnd|]. intros q. rewrite Hmem, add_name_elem_of, elem_of_cons. tauto.
Qed.

Lemma foldl_add_name_fresh ps : forall names,
  NoDup (names ++ ps) -> foldl add_name names ps = names ++ ps.
Proof.
  induction ps as [|p ps IH]; intros names Hn; cbn [foldl].
  - rewrite app_nil_r. reflexivity.
  - assert (Hp : p ∉ names).
    { apply NoDup_app in Hn as (_ & Hdisj & _). intros Hin. apply (Hdisj p Hin). left. }
    unfold add_name at 2. rewrite decide_False by exact Hp.
    rewrite IH; rewrite <- app_assoc; [reflexivity | exact Hn].
Qed.

Lemma fill_columns_ok (ps : list string) (sel : Selection) :
  forall cols (w w' : @World G) cols',
    fill_columns self ps sel cols w = (w', Ok cols') ->
    fst <$> cols' = foldl add_name (fst <$> cols) ps
    /\ forall p, p ∈ ps -> p ∈ property_names self.
Proof.
  induction ps as [|p ps IH]; intros cols w w' cols'; cbn [fill_columns foldl].
  - unfold ret. intros [= _ <-]. split; [reflexivity|]. intros p Hp. inversion Hp.
  - unfold bind. destruct (_get_property self p sel w) as [w1 [c|e]] eqn:Hc; [|discriminate].
    intros Hfill. apply IH in Hfill as [Hnames Hknown].
    rewrite set_column_names in Hnames. split; [exact Hnames|].
    intros q Hq. apply elem_of_cons in Hq as [Heq|Hq]; [subst q|auto].
    destruct (decide (p ∈ property_names self)) as [|Hnot]; [assumption|].
    rewrite (get_property_unknown _ _ _ Hnot) in Hc. discriminate.
Qed.

(** X2. A successful [_get] of a list of properties on a non-empty
    selection is a table indexed by the selected IDs whose columns are the
    distinct requested names, each once, in order of first request; it
    succeeds only if every requested name is a property name. *)
Theorem get_table_shape
    (sel : Selection) (ps : list string) (w w' : @World G) (r : edges_result) :
  flatten sel <> [] ->
  _get self sel (Some (PropList ps)) w = (w', Ok r) ->
  exists f,
    r = EdgeFrame f
    /\ row_index f = flatten sel
    /\ column_names f = first_occurrences ps
    /\ NoDup (column_names f)
    /\ (forall p, p ∈ ps -> p ∈ property_names self).
Proof.
  intros Hne. unfold _get, ensure_ids.
  destruct (Nat.eqb_spec (length (flatten sel)) 0) as [Hz|_].
  { destruct (flatten sel); [congruence | discriminate]. }
  unfold bind. destruct (fill_columns self ps sel [] w) as [w1 [cols|e]] eqn:Hfill;
    [|discriminate].
  unfold ret. intros [= <- <-]. apply fill_columns_ok in Hfill as [Hnames Hknown].
  eexists. split; [reflexivity|]. cbn [row_index column_names].
  split; [reflexivity|]. split; [exact Hnames|]. split; [|exact Hknown].
  rewrite Hnames. apply foldl_add_name_spec. constructor.
Qed.

Lemma fill_columns_first_unknown (pre : list string) (p : string) (post : list string)
    (sel : Selection) :
  (forall q, q ∈ pre -> q ∈ property_names self) ->
  p ∉ property_names self ->
  forall cols (w : @World G), exists w',
    fill_columns self (pre ++ p :: post) sel cols w = (w', Err (NoSuchProperty p))
    /\ length (w_log w') = (length (w_log w) + length pre)%nat.
Proof.
  intros Hknown Hnot. induction pre as [|q pre IH]; intros cols w; cbn [app fill_columns].
  - unfold bind. rewrite (get_property_unknown _ _ _ Hnot). exists w. split; [reflexivity|].
    cbn. lia.
  - destruct (get_property_one_read q sel w) as (ev & c & Hc).
    { apply Hknown. left. }
    unfold bind at 1. rewrite Hc.
    destruct (IH (fun x Hx => Hknown x (list_elem_of_further _ _ _ Hx))
                 (set_column q c cols) (logged ev w)) as (w' & Hfill & Hlen).
    exists w'. split; [exact Hfill|]. rewrite Hlen. unfold logged. cbn [w_log length].
    rewrite length_app. cbn. lia.
Qed.

(** X3. On a non-empty selection, a property list whose first unknown
    name is [p] makes [_get] fail with "No such property: p", after one
    backend read for each name requested before [p]. *)
Theorem get_fails_at_first_unknown
    (sel : Selection) (pre : list string) (p : string) (post : list string)
    (w : @World G) :
  flatten sel <> [] ->
  (forall q, q ∈ pre -> q ∈ property_names self) ->
  p ∉ property_names self ->
  exists w',
    _get self sel (Some (PropList (pre ++ p :: post))) w = (w', Err (NoSuchProperty p))
    /\ length (w_log w') = (length (w_log w) + length pre)%nat.
Proof.
  intros Hne Hknown Hnot. unfold _get, ensure_ids.
  destruct (Nat.eqb_spec (length (flatten sel)) 0) as [Hz|_].
  { destruct (flatten sel); [congruence | discriminate]. }
  destruct (fill_columns_first_unknown pre p post sel Hknown Hnot [] w)
    as (w' & Hfill & Hlen).
  exists w'. unfold bind. rewrite Hfill. split; [reflexivity | exact Hlen].
Qed.

(** X4. Without properties, [get] returns exactly what [ids] resolves the
    group to (in the same order, duplicates kept) and fails exactly when
    [ids] does: wrapping the IDs in a selection and flattening it changes
    nothing. *)
Theorem get_without_properties (g : group Query) (w : @World G) :
  get' g None w
  = match ids' g None None true w with
    | (w', Ok edge_ids) => (w', Ok (EdgeIds edge_ids))
    | (w', Err e) => (w', Err e)
    end.
Proof.
  unfold get, get_with, ids, bind.
  destruct (ids_with self Query _ g None None true w) as [w' [edge_ids|e]];
    [|reflexivity].
  unfold _get, ensure_ids, ret.
  rewrite (proj1 (selection_from_values_spec edge_ids)). reflexivity.
Qed.

(** X5. With [unique=True], [afferent_nodes] and [efferent_nodes] return
    the strictly ascending array of the distinct node IDs that the same
    call returns with [unique=False], after the same backend calls. *)
Theorem connected_nodes_unique (nodes : option node_group) (w w' : @World G)
    (r : list Z) :
  (afferent_nodes self nodes true w = (w', Ok r) ->
   exists raw, afferent_nodes self nodes false w = (w', Ok raw)
               /\ r = np_unique raw /\ StronglySorted Z.lt r
               /\ forall x, x ∈ r <-> x ∈ raw)
  /\ (efferent_nodes self nodes true w = (w', Ok r) ->
      exists raw, efferent_nodes self nodes false w = (w', Ok raw)
                  /\ r = np_unique raw /\ StronglySorted Z.lt r
                  /\ forall x, x ∈ r <-> x ∈ raw).
Proof.
  split.
  - unfold afferent_nodes, bind, backend_source_nodes, backend_afferent_edges,
      select_all, call, ret, ensure_ids.
    destruct nodes as [g|].
    + destruct (_resolve_node_ids (target self) (Some g) w) as [w1 [node_ids|e]];
        [|discriminate].
      intros [= <- <-]. eexists. split; [reflexivity|]. split; [reflexivity|].
      split; [apply np_unique_sorted | apply np_unique_elem_of].
    + intros [= <- <-]. eexists. split; [reflexivity|]. split; [reflexivity|].
      split; [apply np_unique_sorted | apply np_unique_elem_of].
  - unfold efferent_nodes, bind, backend_target_nodes, backend_efferent_edges,
      select_all, call, ret, ensure_ids.
    destruct nodes as [g|].
    + destruct (_resolve_node_ids (source self) (Some g) w) as [w1 [node_ids|e]];
        [|discriminate].
      intros [= <- <-]. eexists. split; [reflexivity|]. split; [reflexivity|].
      split; [apply np_unique_sorted | apply np_unique_elem_of].
    + intros [= <- <-]. eexists. split; [reflexivity|]. split; [reflexivity|].
      split; [apply np_unique_sorted | apply np_unique_elem_of].
Qed.

Lemma np_mask_sublist {A} (xs : list A) (mask : list bool) (r : list A) :
  np_mask xs mask = Ok r -> r `sublist_of` xs.
Proof.
  unfold np_mask. destruct (decide (length xs = length mask)) as [Hlen|]; [|discriminate].
  intros [= <-]. rewrite <- (fst_zip xs mask) at 2 by lia.
  apply fmap_sublist. apply sublist_filter.
Qed.

Lemma filter_chunks_sublist (q : Query) (properties : gset string) :
  forall chunks (w w' : @World G) r,
    filter_chunks self Query resolve_ids q properties chunks w = (w', Ok r) ->
    r `sublist_of` concat chunks.
Proof.
  induction chunks as [|chunk chunks IH]; intros w w' r; cbn [filter_chunks concat].
  - unfold ret. intros [= _ <-]. constructor.
  - unfold bind at 1.
    destruct (get_with self Query (no_filter Query) (GroupArray chunk) _ w)
      as [w1 [data|e]]; [|discriminate].
    unfold bind at 1.
    destruct (resolve_ids data (name self) (population_type self) q) as [mask|];
      [|discriminate].
    unfold ret at 1. unfold bind at 1, lift.
    destruct (np_mask chunk mask) as [picked|e] eqn:Hmask; [|discriminate].
    unfold bind.
    destruct (filter_chunks self Query resolve_ids q properties chunks w1)
      as [w2 [rest|e]] eqn:Hrest; [|discriminate].
    unfold ret. intros [= _ <-].
    apply sublist_app; [exact (np_mask_sublist _ _ _ Hmask) | exact (IH _ _ _ Hrest)].
Qed.

Lemma py_slice_to_take {A} (xs : list A) (limit : Z) :
  exists k, py_slice_to xs limit = take k xs.
Proof. unfold py_slice_to. destruct (0 <=? limit); eauto. Qed.

(** X7. Without [sample], the IDs that [ids] returns for a query mapping
    are a subsequence of [0 .. size-1]: strictly ascending, without
    duplicates and within the population, whatever [limit] is and in
    strict and lenient mode alike. *)
Theorem ids_query_subsequence
    (q : Query) (limit : option Z) (rmp : bool) (w w' : @World G) (r : list Z) :
  ids' (GroupMapping q) limit None rmp w = (w', Ok r) ->
  r `sublist_of` seqZ 0 (Z.of_N (size self))
  /\ StronglySorted Z.lt r
  /\ forall x, x ∈ r -> 0 <= x < Z.of_N (size self).
Proof.
  intros Hids.
  assert (Hsub : r `sublist_of` seqZ 0 (Z.of_N (size self))).
  { revert Hids. unfold ids, ids_with, dispatch. unfold bind at 1 2.
    destruct (by_filter' q rmp w) as [w1 [r0|e]] eqn:Hfilter; [|discriminate].
    unfold ret at 1. unfold post_process, sample_step, bind, ret, lift, limit_step.
    assert (Hr0 : r0 `sublist_of` seqZ 0 (Z.of_N (size self))).
    { revert Hfilter. unfold _edge_ids_by_filter.
      destruct (rmp && negb (bool_decide (_ = ∅))); [discriminate|].
      unfold bind at 1. rewrite ids_with_none. intros Hchunks.
      apply filter_chunks_sublist in Hchunks.
      rewrite (proj1 (np_array_split_sections _ _
                        (proj1 (chunk_count_enough _)))) in Hchunks.
      exact Hchunks. }
    assert (Htake : exists k, match limit with
                              | Some l => py_slice_to (IntId <$> r0) l
                              | None => IntId <$> r0
                              end = IntId <$> take k r0).
    { destruct limit as [l|].
      - destruct (py_slice_to_take (IntId <$> r0) l) as [k ->].
        exists k. rewrite fmap_take. reflexivity.
      - exists (length r0). rewrite firstn_all. reflexivity. }
    destruct Htake as [k ->]. rewrite ensure_ids_list_ints. intros [= _ <-].
    etransitivity; [apply sublist_take | exact Hr0]. }
  split; [exact Hsub|]. split.
  - apply (StronglySorted_sublist _ _ _ Hsub).
    rewrite <- N_nat_Z. apply seqZ_sorted.
  - intros x Hx. apply (elem_of_sublist _ _ _ Hx) in Hsub.
    apply elem_of_seqZ in Hsub. lia.
Qed.

(** X8. A list holding typed edge IDs only resolves, without [sample] and
    [limit], to the IDs of the entries tagged with this population, in
    list order; entries of other populations are dropped without an
    error, and nothing is read from the backend. *)
Theorem ids_typed_list (entries : list (string * Z)) (rmp : bool) (w : @World G) :
  ids' (GroupList ((fun e => CircuitEdgeId (fst e) (snd e)) <$> entries)) None None rmp w
  = (w, Ok (snd <$> List.filter (fun e => String.eqb (fst e) (name self)) entries)).
Proof.
  assert (Htyped : typed_ids self ((fun e => CircuitEdgeId (fst e) (snd e)) <$> entries)
                   = Ok (IntId <$> (snd <$> List.filter
                           (fun e => String.eqb (fst e) (name self)) entries))).
  { induction entries as [|[p i] entries IH]; [reflexivity|].
    csimpl. rewrite IH. destruct (String.eqb p (name self)); reflexivity. }
  unfold ids, ids_with, dispatch, ensure_list, ids_of_list.
  destruct entries as [|[p i] entries].
  - reflexivity.
  - change (is_typed (head ((fun e => CircuitEdgeId (fst e) (snd e)) <$> (p, i) :: entries)))
      with true. cbv iota. rewrite Htyped.
    unfold post_process, sample_step, limit_step. run_M.
    rewrite ensure_ids_list_ints. reflexivity.
Qed.

Lemma range_sizes_log (ev : list Z -> event) (f : list Z -> Selection)
    (node_ids : list Z) : forall w : @World G,
  range_sizes (fun ns => call (ev ns) (f ns)) node_ids w
  = ({| w_rng := w_rng w; w_log := w_log w ++ ((fun n => ev [n]) <$> node_ids) |},
     Ok (range_counts f node_ids)).
Proof.
  induction node_ids as [|n ns IH]; intros w; cbn [range_sizes].
  - unfold ret. csimpl. rewrite app_nil_r. destruct w; reflexivity.
  - unfold bind at 1. unfold call at 1. cbv beta iota. unfold bind at 1.
    rewrite IH. unfold ret. cbn [w_rng w_log]. csimpl. rewrite <- app_assoc. reflexivity.
Qed.

Lemma estimate_range_size_log (ev : list Z -> event) (f : list Z -> Selection)
    (node_ids : list Z) (w : @World G) :
  exists sample,
    w_log (fst (_estimate_range_size (fun ns => call (ev ns) (f ns)) node_ids 3 w))
    = w_log w ++ ((fun n => ev [n]) <$> sample)
    /\ (length sample <= 3)%nat
    /\ (forall x, x ∈ sample -> x ∈ node_ids).
Proof.
  unfold _estimate_range_size.
  destruct (Nat.eqb_spec (length node_ids) 0) as [Hz|Hz].
  { exists []. cbn. rewrite app_nil_r. split; [reflexivity|]. split; [lia|].
    intros x Hx. inversion Hx. }
  destruct (Nat.ltb_spec 3 (length node_ids)) as [Hlt|Hge].
  - destruct (choice_spec node_ids 3 w) as (ys & g & rest & Hc & Hl & Hp); [lia|].
    exists ys. unfold bind at 1. rewrite Hc. unfold bind. rewrite range_sizes_log.
    cbn [fst w_log]. split; [reflexivity|]. split; [lia|].
    intros x Hx. rewrite Hp. apply elem_of_app. left. exact Hx.
  - exists node_ids. unfold bind at 1. unfold ret at 1. unfold bind.
    rewrite range_sizes_log. cbn [fst w_log]. split; [reflexivity|]. split; [lia|]. auto.
Qed.

(** X9. Choosing the direction costs at most three single-node
    [efferent_edges] lookups on source IDs followed by at most three
    single-node [afferent_edges] lookups on target IDs, and no backend
    call at all when one side is [None]. *)
Theorem optimal_direction_cost (s t : option (list Z)) (w : @World G) :
  exists source_sample target_sample,
    w_log (fst (_optimal_direction self s t w))
    = w_log w ++ ((fun n => EvEfferentEdges [n]) <$> source_sample)
              ++ ((fun n => EvAfferentEdges [n]) <$> target_sample)
    /\ (length source_sample <= 3)%nat /\ (length target_sample <= 3)%nat
    /\ (forall x, x ∈ source_sample -> x ∈ resolved s)
    /\ (forall x, x ∈ target_sample -> x ∈ resolved t)
    /\ (s = None \/ t = None -> source_sample = [] /\ target_sample = []).
Proof.
  assert (Hnone : forall w0 : @World G, exists ss ts : list Z,
             w_log w0 = w_log w0 ++ ((fun n => EvEfferentEdges [n]) <$> ss)
                                 ++ ((fun n => EvAfferentEdges [n]) <$> ts)
             /\ (length ss <= 3)%nat /\ (length ts <= 3)%nat
             /\ (forall x, x ∈ ss -> x ∈ resolved s)
             /\ (forall x, x ∈ ts -> x ∈ resolved t)
             /\ (s = None \/ t = None -> ss = [] /\ ts = [])).
  { intros w0. exists [], []. cbn. rewrite app_nil_r.
    repeat split; try lia; intros x Hx; inversion Hx. }
  unfold _optimal_direction. destruct s as [s|], t as [t|]; try apply Hnone.
  unfold backend_efferent_edges, backend_afferent_edges.
  destruct (estimate_range_size_log EvEfferentEdges
              (be_efferent_edges (population self)) s w) as (ss & Hls & Hss & Hsin).
  unfold bind at 1.
  destruct (_estimate_range_size _ s 3 w) as [w1 [ms|e]]; cbn [fst] in Hls.
  - destruct (estimate_range_size_log EvAfferentEdges
                (be_afferent_edges (population self)) t w1) as (ts & Hlt & Hts & Htin).
    exists ss, ts. unfold bind, ret.
    assert (Hlog : w_log (fst (_estimate_range_size
                     (fun ns => call (EvAfferentEdges ns)
                                  (be_afferent_edges (population self) ns)) t 3 w1))
                   = w_log w ++ ((fun n => EvEfferentEdges [n]) <$> ss)
                             ++ ((fun n => EvAfferentEdges [n]) <$> ts)).
    { rewrite Hlt, Hls, <- app_assoc. reflexivity. }
    split.
    + destruct (_estimate_range_size _ t 3 w1) as [w2 [mt|e]]; exact Hlog.
    + split; [exact Hss|]. split; [exact Hts|]. split; [exact Hsin|].
      split; [exact Htin|]. intros [Hn|Hn]; discriminate Hn.
  - exists ss, []. cbn [fst]. rewrite Hls. csimpl. rewrite app_nil_r.
    split; [reflexivity|]. split; [exact Hss|]. split; [cbn; lia|].
    split; [exact Hsin|]. split; [intros x Hx; inversion Hx|].
    intros [Hn|Hn]; discriminate Hn.
Qed.

Lemma ids_with_int_list by_filter (z : Z) (rmp : bool) (w : @World G) :
  ids_with self Query by_filter (GroupList [IntId z]) None None rmp w = (w, Ok [z]).
Proof. reflexivity. Qed.

#[local] Instance label_le_total {A} :
  Total (fun a b : string * A => String.le (fst a) (fst b)).
Proof. intros a b. apply String.le_total. Qed.

Lemma sort_index_spec {A} (entries : list (string * A)) :
  Permutation (sort_index entries) entries
  /\ Sorted String.le (fst <$> sort_index entries).
Proof.
  unfold sort_index. split; [apply merge_sort_Permutation|].
  apply Sorted_fmap with (R1 := fun a b : string * A => String.le (fst a) (fst b)).
  - auto.
  - apply Sorted_merge_sort. apply _.
Qed.

(** X10. When [property_dtypes] succeeds, its table has exactly one entry
    per property name of the population, ordered by name, and the two
    topological columns have the ID dtype. *)
Theorem property_dtypes_table (w w' : @World G) (table : list (string * dtype)) :
  property_dtypes self Query get_properties resolve_ids w = (w', Ok table) ->
  Permutation (fst <$> table) (elements (property_names self))
  /\ Sorted String.le (fst <$> table)
  /\ (SOURCE_NODE_ID, DIds) ∈ table.
Proof.
  unfold property_dtypes, get, get_with. unfold bind at 1 2.
  rewrite ids_with_int_list. unfold _get, ensure_ids.
  pose proof (proj1 (selection_from_values_spec [0])) as Hflat.
  set (sel := selection_from_values [0]) in *. rewrite Hflat. cbn [length Nat.eqb].
  unfold bind at 1.
  destruct (fill_columns self (elements (property_names self)) sel [] w)
    as [w1 [cols|e]] eqn:Hfill; [|discriminate].
  unfold ret. intros [= _ <-].
  destruct (sort_index_spec ((fun c => (fst c, col_dtype (snd c))) <$> cols))
    as [Hperm Hsorted].
  split; [|split; [exact Hsorted|]].
  - rewrite Hperm. rewrite <- list_fmap_compose.
    apply fill_columns_ok in Hfill as [Hnames _]. cbn [fmap list_fmap] in Hnames.
    rewrite foldl_add_name_fresh in Hnames by (cbn [app]; apply NoDup_elements).
    cbn [app] in Hnames. rewrite <- Hnames. reflexivity.
  - rewrite Hperm. clear Hperm Hsorted.
    assert (Hsrc : SOURCE_NODE_ID ∈ elements (property_names self)).
    { apply elem_of_elements. unfold property_names, _topology_property_names.
      apply elem_of_union. right. apply elem_of_union. left.
      apply elem_of_singleton. reflexivity. }
    revert Hfill Hsrc. generalize (elements (property_names self)) as ps.
    generalize (@nil (string * column)) at 1 as cols0.
    assert (Hgen : forall ps cols0 (w0 : @World G),
               fill_columns self ps sel cols0 w0 = (w1, Ok cols) ->
               (SOURCE_NODE_ID ∈ ps
                \/ exists c, (SOURCE_NODE_ID, c) ∈ cols0 /\ col_dtype c = DIds) ->
               exists c, (SOURCE_NODE_ID, c) ∈ cols /\ col_dtype c = DIds).
    { clear. induction ps as [|p ps IH]; intros cols0 w0; cbn [fill_columns].
      - unfold ret. intros [= _ <-] [Hin|Hc]; [inversion Hin | exact Hc].
      - unfold bind. destruct (_get_property self p sel w0)
          as [w2 [c|e]] eqn:Hc; [|discriminate].
        intros Hfill Hsrc. apply (IH _ _ Hfill).
        destruct (decide (p = SOURCE_NODE_ID)) as [->|Hne].
        + right. exists c. split.
          * clear -c. induction cols0 as [|[q d] cols0 IHc]; cbn [set_column]; [left|].
            destruct (decide (q = SOURCE_NODE_ID)) as [->|]; [left | right; exact IHc].
          * revert Hc. unfold _get_property. rewrite decide_True by reflexivity.
            unfold backend_source_nodes. run_M. intros [= _ <-]. reflexivity.
        + destruct Hsrc as [Hin|(c0 & Hin & Hd)].
          * left. apply elem_of_cons in Hin as [Heq|Hin]; [congruence | exact Hin].
          * right. exists c0. split; [|exact Hd]. clear -Hin Hne.
            induction cols0 as [|[q d] cols0 IHc]; [inversion Hin|]. cbn [set_column].
            apply elem_of_cons in Hin as [Heq|Hin].
            -- injection Heq as <- <-. rewrite decide_False by congruence. left.
            -- destruct (decide (q = p)); right; [exact Hin | exact (IHc Hin)]. }
    intros cols0 ps Hfill Hsrc.
    destruct (Hgen ps cols0 w Hfill (or_introl Hsrc)) as (c & Hin & Hd).
    apply list_elem_of_fmap. exists (SOURCE_NODE_ID, c). cbn [fst snd].
    rewrite Hd. split; [reflexivity | exact Hin].
Qed.

Lemma names_three {A} (cols : list (string * A)) (a b c : string) :
  fst <$> cols = [a; b; c] ->
  exists x y z, cols = [(a, x); (b, y); (c, z)].
Proof.
  destruct cols as [|[a' x] [|[b' y] [|[c' z] [|? ?]]]]; try discriminate.
  intros [= -> -> ->]. eauto.
Qed.

(** X11. [positions] fails its assertion, before any backend call, unless
    [side] is "afferent" or "efferent" and [kind] is "center" or
    "surface"; when it succeeds, the table has exactly the columns x, y, z
    in this order, and its rows are indexed by the IDs that [ids]
    resolves [edge_ids] to. *)
Theorem positions_columns
    (edge_ids : group Query) (side kind : string) (w : @World G) :
  (~ (side ∈ ["afferent"; "efferent"] /\ kind ∈ ["center"; "surface"]) ->
   positions self Query get_properties resolve_ids edge_ids side kind w
   = (w, Err AssertionError))
  /\ forall w' f,
       positions self Query get_properties resolve_ids edge_ids side kind w
       = (w', Ok f) ->
       column_names f = ["x"; "y"; "z"]
       /\ exists w1, ids' edge_ids None None true w = (w1, Ok (row_index f)).
Proof.
  unfold positions. split.
  - intros Hbad. case_bool_decide as Hside; cbn [negb]; [|reflexivity].
    case_bool_decide as Hkind; cbn [negb]; [|reflexivity].
    exfalso. apply Hbad. split; assumption.
  - intros w' f.
    case_bool_decide as Hside; cbn [negb]; [|discriminate].
    case_bool_decide as Hkind; cbn [negb]; [|discriminate].
    assert (Hcases : (side = "afferent" \/ side = "efferent")
                     /\ (kind = "center" \/ kind = "surface")).
    { split.
      - apply elem_of_cons in Hside as [->|Hside]; [left; reflexivity|].
        apply list_elem_of_singleton in Hside as ->. right. reflexivity.
      - apply elem_of_cons in Hkind as [->|Hkind]; [left; reflexivity|].
        apply list_elem_of_singleton in Hkind as ->. right. reflexivity. }
    clear Hside Hkind.
    unfold get, get_with, ids. unfold bind at 1 2.
    destruct (ids_with self Query _ edge_ids None None true w)
      as [w1 [resolved_ids|e]]; [|discriminate].
    pose proof (proj1 (selection_from_values_spec resolved_ids)) as Hflat.
    unfold _get, ensure_ids. rewrite Hflat. clear Hflat.
    destruct (Nat.eqb_spec (length resolved_ids) 0) as [Hz|Hnz].
    + unfold ret. intros [= <- <-].
      destruct Hcases as [[-> | ->] [-> | ->]];
        (split; [reflexivity|]; exists w1;
         destruct resolved_ids; [reflexivity | discriminate]).
    + unfold bind.
      destruct (fill_columns self (fst <$> position_props side kind) _ [] w1)
        as [w2 [cols|e]] eqn:Hfill; [|discriminate].
      unfold ret. intros [= <- <-].
      apply fill_columns_ok in Hfill as [Hcols _].
      destruct Hcases as [[-> | ->] [-> | ->]];
        (rewrite foldl_add_name_fresh in Hcols
           by (apply (bool_decide_unpack _); vm_compute; exact I);
         apply names_three in Hcols as (x & y & z & ->);
         split; [reflexivity | exists w1; reflexivity]).
Qed.

End AccessorProperties.

(** ** Further properties of the connection iterator *)

Section GeneratorProperties.

Context {G : Type} `{RandomSource G}.
Variable self : EdgePopulation.

Lemma connected_rows_error env key (w w' : @World G) e :
  connected_rows self env key w = (w', Err e) ->
  e = NodeIdsError /\ unresolved_node self.
Proof.
  unfold connected_rows, get_connected_node_ids, afferent_nodes, efferent_nodes,
    _resolve_node_ids, backend_afferent_edges, backend_efferent_edges,
    backend_source_nodes, backend_target_nodes.
  destruct (le_direction env).
  - destruct (np_ids (source self) (NodeId key)) eqn:Hk; run_M.
    + destruct (le_shuffle env); [|unfold ret; discriminate].
      match goal with |- context [shuffle ?xs ?w0] =>
        destruct (shuffle_spec xs w0) as (ys & g & -> & _) end. discriminate.
    + intros [= _ <-]. split; [reflexivity|]. exists key. auto.
  - destruct (np_ids (target self) (NodeId key)) eqn:Hk; run_M.
    + destruct (le_shuffle env); [|unfold ret; discriminate].
      match goal with |- context [shuffle ?xs ?w0] =>
        destruct (shuffle_spec xs w0) as (ys & g & -> & _) end. discriminate.
    + intros [= _ <-]. split; [reflexivity|]. exists key. auto.
Qed.

Lemma run_primaries_steps env used primary (w w' : @World G) g' sig :
  run_primaries self env used primary w = (w', (g', sig)) ->
  match sig with
  | Yield tup =>
      exists key c n rest remaining,
        g' = GenSuspended env key c rest remaining used
        /\ tup = emitted (le_direction env) key c n
        /\ next_key self env used primary key c n rest remaining
  | StopIteration => g' = GenFinished
  | Raise e => g' = GenFinished /\ e = NodeIdsError /\ unresolved_node self
  end.
Proof.
  revert w. induction primary as [|key primary IH]; intros w; cbn [run_primaries].
  - intros [= <- <- <-]. reflexivity.
  - destruct (connected_rows self env key w) as [w1 [rows|e]] eqn:Hrows.
    + destruct (scan_rows (le_unique env) used rows) as [[[c n] rest]|] eqn:Hscan.
      * intros [= <- <- <-]. exists key, c, n, rest, primary.
        split; [reflexivity|]. split; [reflexivity|].
        exists [], rows, w, w1. auto.
      * intros Hrun. specialize (IH _ Hrun). destruct sig as [tup| |e]; try exact IH.
        destruct IH as (key' & c & n & rest & remaining & Hg & Ht & Hk).
        exists key', c, n, rest, remaining. split; [exact Hg|]. split; [exact Ht|].
        destruct Hk as (pre & rows' & wa & wb & -> & Hr & Hs).
        exists (key :: pre), rows', wa, wb. auto.
    + intros [= <- <- <-]. split; [reflexivity|].
      exact (connected_rows_error _ _ _ _ _ Hrows).
Qed.

Lemma scan_rows_false used rows :
  scan_rows false used rows = match rows with [] => None | r :: rest => Some (r, rest) end.
Proof. destruct rows as [|[c n] rest]; reflexivity. Qed.

Lemma start_error s t u sh (w w' : @World G) e :
  start self s t u sh w = (w', Err e) ->
  e = InvalidArgument MissingSourceAndTarget /\ s = None /\ t = None.
Proof.
  unfold start. destruct (_is_empty s || _is_empty t) eqn:Hempty; [discriminate|].
  apply orb_false_iff in Hempty as [Hs Ht]. unfold bind at 1.
  destruct (_optimal_direction self s t w) as [w0 [d|e0]] eqn:Hdir.
  - unfold bind. destruct sh; [|unfold ret; discriminate].
    destruct (shuffle_spec (np_unique (resolved (primary_side d s t))) w0)
      as (ys & g & -> & _). discriminate.
  - intros [= _ <-]. unfold _optimal_direction in Hdir.
    destruct s as [s|], t as [t|].
    + exfalso.
      destruct (estimate_range_size_spec EvEfferentEdges
                  (be_efferent_edges (population self)) s w) as (ss & w1 & Hes & _).
      { intros ->. discriminate Hs. }
      destruct (estimate_range_size_spec EvAfferentEdges
                  (be_afferent_edges (population self)) t w1) as (ts & w2 & Het & _).
      { intros ->. discriminate Ht. }
      unfold backend_efferent_edges, backend_afferent_edges in Hdir.
      unfold bind at 1 in Hdir. rewrite Hes in Hdir.
      unfold bind at 1 in Hdir. rewrite Het in Hdir. discriminate.
    + discriminate.
    + discriminate.
    + injection Hdir as _ <-. auto.
Qed.

Lemma gen_next_steps g (w w' : @World G) g' sig :
  gen_next self g w = (w', (g', sig)) ->
  match sig with
  | Yield tup =>
      exists env key c n rest remaining used,
        g' = GenSuspended env key c rest remaining used
        /\ tup = emitted (le_direction env) key c n
        /\ yield_step self g w env key c n rest remaining used
  | StopIteration => g' = GenFinished
  | Raise e =>
      g' = GenFinished
      /\ ((e = NodeIdsError /\ unresolved_node self)
          \/ (e = InvalidArgument MissingSourceAndTarget
              /\ exists u sh, g = GenCreated None None u sh))
  end.
Proof.
  destruct g as [s t u sh|env key conn rest primary used|]; cbn [gen_next].
  - destruct (start self s t u sh w) as [w0 [[[env primary]|]|e]] eqn:Hstart.
    + intros Hrun. apply run_primaries_steps in Hrun.
      destruct sig as [tup| |e].
      * destruct Hrun as (key & c & n & rest & remaining & Hg & Ht & Hk).
        exists env, key, c, n, rest, remaining, ∅. split; [exact Hg|].
        split; [exact Ht|]. cbn [yield_step]. exists w0, primary. auto.
      * exact Hrun.
      * destruct Hrun as (-> & -> & Hun). auto.
    + intros [= <- <- <-]. reflexivity.
    + intros [= <- <- <-]. apply start_error in Hstart as (-> & -> & ->).
      split; [reflexivity|]. right. split; [reflexivity|]. eauto.
  - destruct (le_unique env) eqn:Hu.
    + intros Hrun. apply run_primaries_steps in Hrun.
      destruct sig as [tup| |e].
      * destruct Hrun as (key' & c & n & rest' & remaining & Hg & Ht & Hk).
        exists env, key', c, n, rest', remaining, ({[conn]} ∪ used).
        split; [exact Hg|]. split; [exact Ht|]. cbn [yield_step].
        split; [reflexivity|]. left. auto.
      * exact Hrun.
      * destruct Hrun as (-> & -> & Hun). auto.
    + rewrite scan_rows_false. destruct rest as [|[c n] rest'].
      * intros Hrun. apply run_primaries_steps in Hrun.
        destruct sig as [tup| |e].
        -- destruct Hrun as (key' & c & n & rest' & remaining & Hg & Ht & Hk).
           exists env, key', c, n, rest', remaining, used.
           split; [exact Hg|]. split; [exact Ht|]. cbn [yield_step].
           split; [reflexivity|]. right. auto.
        -- exact Hrun.
        -- destruct Hrun as (-> & -> & Hun). auto.
      * intros [= <- <- <-]. exists env, key, c, n, rest', primary, used.
        split; [reflexivity|]. split; [reflexivity|]. cbn [yield_step].
        split; [reflexivity|]. right. split; [exact Hu|]. split; [reflexivity|].
        left. auto.
  - intros [= <- <- <-]. reflexivity.
Qed.

Lemma annotate_error m s t k (w w' : @World G) e :
  annotate self m s t k w = (w', Err e) -> e = NodeIdsError /\ unresolved_node self.
Proof.
  unfold annotate. destruct m; run_M; try discriminate.
  unfold pair_edges, pathway_edges, _resolve_node_ids, backend_connecting_edges.
  destruct (np_ids (source self) (NodeId s)) eqn:Hs; run_M;
    [|intros [= _ <-]; split; [reflexivity | exists s; auto]].
  destruct (np_ids (target self) (NodeId t)) eqn:Ht; run_M; [discriminate|].
  intros [= _ <-]. split; [reflexivity | exists t; auto].
Qed.

Lemma to_uint32_range (x : Z) : 0 <= to_uint32 x < 2 ^ 32.
Proof. unfold to_uint32. apply Z.mod_pos_bound. lia. Qed.

Lemma connected_rows_rows env key (w w' : @World G) rows :
  connected_rows self env key w = (w', Ok rows) ->
  exists connected,
    connected_of self (le_direction env) key = Some connected
    /\ Permutation rows
         (match le_secondary env with
          | Some sec => List.filter (fun r => np_isin sec (fst r))
          | None => fun rows0 => rows0
          end ((fun r => (to_uint32 (fst r), to_uint32 (snd r)))
                 <$> np_unique_counts connected))
    /\ (le_shuffle env = false ->
        rows = match le_secondary env with
               | Some sec => List.filter (fun r => np_isin sec (fst r))
               | None => fun rows0 => rows0
               end ((fun r => (to_uint32 (fst r), to_uint32 (snd r)))
                      <$> np_unique_counts connected)).
Proof.
  unfold connected_rows, connected_of, get_connected_node_ids, afferent_nodes,
    efferent_nodes, _resolve_node_ids, backend_afferent_edges, backend_efferent_edges,
    backend_source_nodes, backend_target_nodes, ensure_ids.
  destruct (le_direction env).
  - destruct (np_ids (source self) (NodeId key)) as [ids|]; run_M; [|discriminate].
    cbn [resolved default fmap option_fmap option_map].
    eexists. split; [reflexivity|].
    destruct (le_secondary env) as [sec|], (le_shuffle env);
      try (match goal with Hs : context [shuffle ?xs ?w0] |- _ =>
             destruct (shuffle_spec xs w0) as (ys & g & Hsh & Hp); rewrite Hsh in Hs;
             injection Hs as _ <- end;
           split; [symmetry; exact Hp | discriminate]);
      (unfold ret in *;
       match goal with Hs : (_, Ok _) = (_, Ok _) |- _ => injection Hs as _ <- end;
       split; [reflexivity | reflexivity]).
  - destruct (np_ids (target self) (NodeId key)) as [ids|]; run_M; [|discriminate].
    cbn [resolved default fmap option_fmap option_map].
    eexists. split; [reflexivity|].
    destruct (le_secondary env) as [sec|], (le_shuffle env);
      try (match goal with Hs : context [shuffle ?xs ?w0] |- _ =>
             destruct (shuffle_spec xs w0) as (ys & g & Hsh & Hp); rewrite Hsh in Hs;
             injection Hs as _ <- end;
           split; [symmetry; exact Hp | discriminate]);
      (unfold ret in *;
       match goal with Hs : (_, Ok _) = (_, Ok _) |- _ => injection Hs as _ <- end;
       split; [reflexivity | reflexivity]).
Qed.

Lemma scan_rows_suffix u used rows r rest :
  scan_rows u used rows = Some (r, rest) -> exists skipped, rows = skipped ++ r :: rest.
Proof.
  induction rows as [|[c n] rows IH]; cbn [scan_rows]; [discriminate|].
  destruct (u && bool_decide (c ∈ used)).
  - intros Hs. destruct (IH Hs) as [skipped ->]. exists ((c, n) :: skipped). reflexivity.
  - intros [= <- <-]. exists []. reflexivity.
Qed.

Lemma connected_rows_row_of env key (w w' : @World G) rows :
  connected_rows self env key w = (w', Ok rows) -> Forall (row_of self env key) rows.
Proof.
  intros Hrows. apply connected_rows_rows in Hrows as (connected & Hc & Hperm & _).
  rewrite Forall_forall. intros r Hr. rewrite Hperm in Hr.
  assert (Hin : r ∈ (fun r0 => (to_uint32 (fst r0), to_uint32 (snd r0)))
                      <$> np_unique_counts connected
                /\ forall sec, le_secondary env = Some sec -> fst r ∈ sec).
  { destruct (le_secondary env) as [sec|].
    - apply list_elem_of_In, filter_In in Hr as [Hr Hsec]. split.
      + apply list_elem_of_In. exact Hr.
      + intros sec' [= <-]. unfold np_isin in Hsec.
        apply bool_decide_eq_true_1 in Hsec. exact Hsec.
    - split; [exact Hr | discriminate]. }
  destruct Hin as [Hin Hsec]. split; [exact Hsec|].
  apply list_elem_of_fmap in Hin as ([v n] & -> & Hvn).
  unfold np_unique_counts in Hvn. apply list_elem_of_fmap in Hvn as (v' & [= -> ->] & Hv).
  apply (proj1 (np_unique_elem_of _ _)) in Hv. exists connected, v'. cbn [fst snd].
  split; [exact Hc|]. split; [exact Hv|]. split; reflexivity.
Qed.

Lemma next_key_facts env used primary key c n rest remaining :
  next_key self env used primary key c n rest remaining ->
  key ∈ primary
  /\ (forall k, k ∈ remaining -> k ∈ primary)
  /\ row_of self env key (c, n)
  /\ Forall (row_of self env key) rest
  /\ (length remaining < length primary)%nat.
Proof.
  intros (pre & rows & wa & wb & -> & Hrows & Hscan).
  apply connected_rows_row_of in Hrows.
  apply scan_rows_suffix in Hscan as [skipped ->].
  apply Forall_app in Hrows as [_ Hrows]. apply Forall_cons in Hrows as [Hr Hrest].
  split; [apply elem_of_app; right; left|].
  split; [intros k Hk; apply elem_of_app; right; right; exact Hk|].
  split; [exact Hr|]. split; [exact Hrest|].
  rewrite length_app. cbn. lia.
Qed.

Lemma start_spec s t u sh (w w' : @World G) env primary :
  start self s t u sh w = (w', Ok (Some (env, primary))) ->
  le_unique env = u /\ le_shuffle env = sh
  /\ (exists p, primary_side (le_direction env) s t = Some p
                /\ Permutation primary (np_unique p)
                /\ (sh = false -> primary = np_unique p))
  /\ le_secondary env = np_unique <$> secondary_side (le_direction env) s t.
Proof.
  unfold start. destruct (_is_empty s || _is_empty t); [discriminate|].
  unfold bind at 1.
  destruct (_optimal_direction self s t w) as [w0 [d|e]] eqn:Hdir; [|discriminate].
  assert (Hside : exists p, primary_side d s t = Some p).
  { unfold _optimal_direction in Hdir. destruct s as [s|], t as [t|].
    - destruct d; cbn; eauto.
    - injection Hdir as _ <-. cbn. eauto.
    - injection Hdir as _ <-. cbn. eauto.
    - discriminate. }
  destruct Hside as [p Hp]. unfold bind. rewrite Hp.
  change (resolved (Some p)) with p.
  destruct sh.
  - destruct (shuffle_spec (np_unique p) w0) as (ys & g & -> & Hperm).
    unfold ret. intros [= <- <- <-]. cbn [le_unique le_shuffle le_direction le_secondary].
    repeat split; try reflexivity. exists p. split; [exact Hp|].
    split; [symmetry; exact Hperm | discriminate].
  - unfold ret. intros [= <- <- <-]. cbn [le_unique le_shuffle le_direction le_secondary].
    repeat split; try reflexivity. exists p. split; [exact Hp|]. split; reflexivity.
Qed.

(** One [next()] on the iterator, in terms of the generator step. *)
Lemma iter_next_steps (it : iterator) (w w' : @World G) it' sig :
  iter_next self it w = (w', (it', sig)) ->
  it_mode it' = it_mode it
  /\ match sig with
     | Yield c =>
         exists env key cn n rest remaining used,
           it_gen it' = GenSuspended env key cn rest remaining used
           /\ yield_step self (it_gen it) w env key cn n rest remaining used
           /\ primary_id (le_direction env) c = key
           /\ secondary_id (le_direction env) c = cn
           /\ fst (conn_source c) = np_name (source self)
           /\ fst (conn_target c) = np_name (target self)
           /\ annotated self (it_mode it) c
           /\ (it_mode it = AddCircuitIds -> conn_annotation c = EdgeCount n)
     | StopIteration => it_gen it' = GenFinished
     | Raise e =>
         it_gen it' = GenFinished
         /\ ((e = NodeIdsError /\ unresolved_node self)
             \/ (e = InvalidArgument MissingSourceAndTarget
                 /\ exists u sh, it_gen it = GenCreated None None u sh))
     end.
Proof.
  unfold iter_next.
  destruct (gen_next self (it_gen it) w) as [w1 [g1 sig1]] eqn:Hgen.
  apply gen_next_steps in Hgen. destruct sig1 as [[[a b] k]| |e].
  - destruct Hgen as (env & key & cn & n & rest & remaining & used & -> & Ht & Hstep).
    destruct (annotate self (it_mode it) a b k w1) as [w2 [c|e]] eqn:Ha.
    + intros [= <- <- <-]. split; [reflexivity|].
      exists env, key, cn, n, rest, remaining, used. split; [reflexivity|].
      split; [exact Hstep|].
      assert (Hids : primary_id (le_direction env) c = key
                     /\ secondary_id (le_direction env) c = cn).
      { eapply (emitted_ids self _ _ _ n (it_mode it) w1 w2). rewrite <- Ht. exact Ha. }
      destruct Hids as [Hp Hs]. split; [exact Hp|]. split; [exact Hs|].
      assert (Hk : k = n) by (destruct (le_direction env); cbn in Ht; congruence).
      subst k. clear Ht Hp Hs Hstep. revert Ha. unfold annotate.
      destruct (it_mode it); run_M.
      * intros [= _ <-]. cbn. repeat split; eauto.
      * unfold pair_edges, pathway_edges, _resolve_node_ids, backend_connecting_edges.
        destruct (np_ids (source self) (NodeId a)) as [sids|] eqn:Hsa; run_M;
          [|discriminate].
        destruct (np_ids (target self) (NodeId b)) as [tids|] eqn:Htb; run_M;
          [|discriminate].
        intros [= _ <-]. cbn. repeat split; try discriminate.
        exists sids, tids. unfold source_id, target_id. cbn. auto.
      * intros [= _ <-]. cbn. repeat split; discriminate.
    + intros [= <- <- <-]. split; [reflexivity|]. split; [reflexivity|].
      left. exact (annotate_error _ _ _ _ _ _ _ Ha).
  - intros [= <- <- <-]. split; [reflexivity|]. exact Hgen.
  - intros [= <- <- <-]. split; [reflexivity|]. exact Hgen.
Qed.

Lemma drain_Forall (I : iterator -> Prop) (P : connection -> Prop) :
  (forall it (w w' : @World G) it' c,
      I it -> iter_next self it w = (w', (it', Yield c)) -> P c /\ I it') ->
  forall fuel it (w w' : @World G) out e,
    I it -> drain self fuel it w = (w', (out, e)) -> Forall P out.
Proof.
  intros Hstep. induction fuel as [|fuel IH]; intros it w w' out e HI; cbn [drain].
  - intros [= _ <- _]. constructor.
  - destruct (iter_next self it w) as [w1 [it1 [c| |err]]] eqn:Hnext.
    + destruct (Hstep _ _ _ _ _ HI Hnext) as [HP HI1].
      destruct (drain self fuel it1 w1) as [w2 [cs e']] eqn:Hd.
      intros [= _ <- _]. constructor; [exact HP | exact (IH _ _ _ _ _ HI1 Hd)].
    + intros [= _ <- _]. constructor.
    + intros [= _ <- _]. constructor.
Qed.

(** X12. Every tuple the iterator yields carries the name of the source
    node population on its source and of the target node population on
    its target, and the annotation of the requested mode: a count with
    [return_edge_count], nothing without flags, and with
    [return_edge_ids] the IDs that the backend's connecting-edges
    selection gives for the resolved pair, tagged with the edge
    population name. *)
Theorem iter_connections_tuples
    (fuel : nat) (it : iterator) (w w' : @World G)
    (out : list connection) (e : ending) :
  drain self fuel it w = (w', (out, e)) ->
  Forall (fun c => fst (conn_source c) = np_name (source self)
                   /\ fst (conn_target c) = np_name (target self)
                   /\ annotated self (it_mode it) c) out.
Proof.
  apply (drain_Forall (fun it0 => it_mode it0 = it_mode it)); [|reflexivity].
  intros it0 w0 w1 it1 c Hmode Hnext. apply iter_next_steps in Hnext as [Hm Hyield].
  destruct Hyield as (env & key & cn & n & rest & remaining & used
                      & _ & _ & _ & _ & Hs & Ht & Ha & _).
  rewrite Hmode in Ha. split; [auto|]. congruence.
Qed.

Lemma yield_step_tracks s t g (w : @World G) env key cn n rest remaining used :
  tracks self s t g ->
  yield_step self g w env key cn n rest remaining used ->
  tracks self s t (GenSuspended env key cn rest remaining used)
  /\ row_of self env key (cn, n).
Proof.
  intros Htr Hstep.
  destruct g as [s' t' u sh|env0 key0 conn0 rest0 primary0 used0|]; cbn in Htr, Hstep.
  - destruct Htr as [-> ->].
    destruct Hstep as (w0 & primary & Hstart & -> & Hkey).
    apply start_spec in Hstart as (_ & _ & (p & Hp & Hperm & _) & Hsec).
    apply next_key_facts in Hkey as (Hin & Hrem & Hrow & Hrest & _).
    split; [|exact Hrow]. cbn [tracks]. split; [|split; [exact Hsec | exact Hrest]].
    exists p. split; [exact Hp|]. intros k Hk. apply np_unique_elem_of.
    rewrite <- Hperm. apply elem_of_cons in Hk as [->|Hk]; auto.
  - destruct Hstep as [-> Hcases]. destruct Htr as ((p & Hp & Hsub) & Hsec & Hrest0).
    assert (Hnew : forall used',
               next_key self env0 used' primary0 key cn n rest remaining ->
               tracks self s t (GenSuspended env0 key cn rest remaining used)
               /\ row_of self env0 key (cn, n)).
    { intros used' Hkey.
      apply next_key_facts in Hkey as (Hin & Hrem & Hrow & Hrest & _).
      split; [|exact Hrow]. cbn [tracks]. split; [|split; [exact Hsec | exact Hrest]].
      exists p. split; [exact Hp|]. intros k Hk. apply Hsub. right.
      apply elem_of_cons in Hk as [->|Hk]; auto. }
    destruct Hcases as [(_ & _ & Hkey)|(_ & _ & [(-> & -> & ->)|(_ & Hkey)])].
    + exact (Hnew _ Hkey).
    + apply Forall_cons in Hrest0 as [Hrow Hrest]. split; [|exact Hrow].
      cbn [tracks]. split; [|split; [exact Hsec | exact Hrest]]. eauto.
    + exact (Hnew _ Hkey).
  - contradiction.
Qed.

(** Both ends of a yielded tuple are in the resolved arrays, and the
    tuple is a row of its primary node. *)
Lemma drain_tracks (s t : option (list Z)) (m : mode) :
  forall fuel it (w w' : @World G) out e,
    it_mode it = m -> tracks self s t (it_gen it) ->
    drain self fuel it w = (w', (out, e)) ->
    Forall (fun c =>
              (forall ids, s = Some ids -> source_id c ∈ ids)
              /\ (forall ids, t = Some ids -> target_id c ∈ ids)
              /\ exists d connected v,
                   connected_of self d (primary_id d c) = Some connected
                   /\ v ∈ connected
                   /\ secondary_id d c = to_uint32 v
                   /\ (m = AddCircuitIds ->
                       conn_annotation c
                       = EdgeCount (to_uint32
                                      (Z.of_nat (count_occ Z.eq_dec connected v)))))
           out.
Proof.
  intros fuel it w w' out e Hmode Htr.
  apply (drain_Forall (fun it0 => it_mode it0 = m /\ tracks self s t (it_gen it0)));
    [|split; assumption].
  clear. intros it0 w0 w1 it1 c [Hmode Htr] Hnext.
  apply iter_next_steps in Hnext as [Hm Hyield].
  destruct Hyield as (env & key & cn & n & rest & remaining & used
                      & Hg & Hstep & Hp & Hs & _ & _ & _ & Hcount).
  destruct (yield_step_tracks _ _ _ _ _ _ _ _ _ _ _ Htr Hstep) as [Htr1 Hrow].
  split; [|split; [congruence | rewrite Hg; exact Htr1]].
  destruct Htr1 as ((p & Hside & Hsub) & Hsec & _).
  destruct Hrow as [Hfilter (connected & v & Hconn & Hv & Hfst & Hsnd)].
  cbn [fst snd] in Hfilter, Hfst, Hsnd.
  assert (Hkey : key ∈ p) by (apply Hsub; left).
  assert (Hcn : forall ids, secondary_side (le_direction env) s t = Some ids -> cn ∈ ids).
  { intros ids Hids. rewrite Hids in Hsec. apply np_unique_elem_of.
    apply Hfilter. exact Hsec. }
  split; [|split].
  - intros ids ->. destruct (le_direction env); cbn in Hside, Hcn, Hp, Hs.
    + injection Hside as <-. congruence.
    + rewrite Hs. auto.
  - intros ids ->. destruct (le_direction env); cbn in Hside, Hcn, Hp, Hs.
    + rewrite Hs. auto.
    + injection Hside as <-. congruence.
  - exists (le_direction env), connected, v. rewrite Hp, Hs.
    split; [exact Hconn|]. split; [exact Hv|]. split; [exact Hfst|].
    intros Hadd. rewrite Hmode in Hcount. rewrite (Hcount Hadd), Hsnd. reflexivity.
Qed.

(** X13. An iteration over resolved arrays only yields tuples whose
    source is in the source array, when one is given, and whose target is
    in the target array, when one is given. *)
Theorem iter_connections_within_groups
    (s t : option (list Z)) (u sh : bool) (fuel : nat) (it : iterator)
    (w w' : @World G) (out : list connection) (e : ending) :
  it_gen it = GenCreated s t u sh ->
  drain self fuel it w = (w', (out, e)) ->
  Forall (fun c => (forall ids, s = Some ids -> source_id c ∈ ids)
                   /\ (forall ids, t = Some ids -> target_id c ∈ ids)) out.
Proof.
  intros Hgen Hdrain.
  eapply Forall_impl.
  - apply (drain_tracks s t (it_mode it) _ _ _ _ _ _ eq_refl) in Hdrain; [exact Hdrain|].
    rewrite Hgen. split; reflexivity.
  - cbn beta. intros c (Hs & Ht & _). auto.
Qed.

(** X14. Every yielded tuple is a connection of the backend: for the
    direction the iteration runs in, the secondary ID is the uint32 image
    of a node that the backend lists for the primary node (a source of
    its afferent edges, or a target of its efferent edges), and with
    [return_edge_count] the count is the uint32 image of the number of
    times the backend lists that node, that is, of edges between the
    two. *)
Theorem iter_connections_connected
    (s t : option (list Z)) (u sh : bool) (fuel : nat) (it : iterator)
    (w w' : @World G) (out : list connection) (e : ending) :
  it_gen it = GenCreated s t u sh ->
  drain self fuel it w = (w', (out, e)) ->
  Forall (fun c =>
            exists d connected v,
              connected_of self d (primary_id d c) = Some connected
              /\ v ∈ connected
              /\ secondary_id d c = to_uint32 v
              /\ (it_mode it = AddCircuitIds ->
                  conn_annotation c
                  = EdgeCount (to_uint32 (Z.of_nat (count_occ Z.eq_dec connected v)))))
         out.
Proof.
  intros Hgen Hdrain.
  eapply Forall_impl.
  - apply (drain_tracks s t (it_mode it) _ _ _ _ _ _ eq_refl) in Hdrain; [exact Hdrain|].
    rewrite Hgen. split; reflexivity.
  - cbn beta. intros c (_ & _ & Hc). exact Hc.
Qed.

(** X15. An iteration can fail in two ways only: with "Either `source` or
    `target` should be specified", at the first [next()] and before
    anything is yielded, when both arrays are [None]; or with the node
    population's error, when it does not resolve a single node ID. *)
Theorem iter_connections_failures
    (s t : option (list Z)) (u sh : bool) (fuel : nat) (it : iterator)
    (w w' : @World G) (out : list connection) (err : error) :
  it_gen it = GenCreated s t u sh ->
  drain self fuel it w = (w', (out, Failed err)) ->
  (err = InvalidArgument MissingSourceAndTarget /\ s = None /\ t = None /\ out = [])
  \/ (err = NodeIdsError /\ unresolved_node self).
Proof.
  assert (Hgen : forall fuel it (w w' : @World G) out err,
             drain self fuel it w = (w', (out, Failed err)) ->
             (err = InvalidArgument MissingSourceAndTarget
              /\ out = [] /\ exists u sh, it_gen it = GenCreated None None u sh)
             \/ (err = NodeIdsError /\ unresolved_node self)).
  { clear. induction fuel as [|fuel IH]; intros it w w' out err; cbn [drain].
    - discriminate.
    - destruct (iter_next self it w) as [w1 [it1 [c| |e]]] eqn:Hnext.
      + destruct (drain self fuel it1 w1) as [w2 [cs e']] eqn:Hd.
        intros [= _ <- ->]. apply IH in Hd as [(_ & _ & u & sh & Hcreated)|Hnode];
          [|right; exact Hnode].
        apply iter_next_steps in Hnext as [_ Hyield].
        destruct Hyield as (env & key & cn & n & rest & remaining & used & Hg & _).
        congruence.
      + discriminate.
      + intros [= _ <- <-]. apply iter_next_steps in Hnext as [_ [_ Hraise]].
        destruct Hraise as [Hnode|[-> Hcreated]]; [right; exact Hnode|].
        left. auto. }
  intros Hit Hdrain. apply Hgen in Hdrain as [(-> & -> & u' & sh' & Hcreated)|Hnode];
    [|right; exact Hnode].
  left. rewrite Hit in Hcreated. injection Hcreated as -> -> _ _. auto.
Qed.

Lemma drain_stable (fuel : nat) : forall it (w w' : @World G) out e,
  drain self fuel it w = (w', (out, e)) -> e <> Pending ->
  forall extra, drain self (fuel + extra) it w = (w', (out, e)).
Proof.
  induction fuel as [|fuel IH]; intros it w w' out e; cbn [drain Nat.add].
  - intros [= _ _ <-] Hne. contradiction.
  - destruct (iter_next self it w) as [w1 [it1 [c| |err]]].
    + destruct (drain self fuel it1 w1) as [w2 [cs e']] eqn:Hd.
      intros [= <- <- <-] Hne extra. rewrite (IH _ _ _ _ _ Hd Hne). reflexivity.
    + intros Heq _ extra. exact Heq.
    + intros Heq _ extra. exact Heq.
Qed.

Lemma ends_step m env key conn rest primary used (w : @World G) :
  (forall key' cn rest' remaining used' w1,
      (length remaining < length primary)%nat ->
      ends self {| it_mode := m; it_gen := GenSuspended env key' cn rest' remaining used' |} w1) ->
  (forall c n rest' w1,
      rest = (c, n) :: rest' ->
      ends self {| it_mode := m; it_gen := GenSuspended env key c rest' primary used |} w1) ->
  ends self {| it_mode := m; it_gen := GenSuspended env key conn rest primary used |} w.
Proof.
  intros Hnew Hsame. unfold ends in *.
  destruct (iter_next self
              {| it_mode := m; it_gen := GenSuspended env key conn rest primary used |} w)
    as [w1 [it1 [c| |err]]] eqn:Hnext.
  - pose proof (iter_next_steps _ _ _ _ _ Hnext) as [Hmode Hyield].
    destruct Hyield as (env' & key' & cn & n & rest' & remaining & used'
                        & Hg & Hstep & _).
    destruct it1 as [m1 g1]. cbn [it_gen it_mode] in Hg, Hmode, Hstep. subst g1 m1.
    cbn [yield_step] in Hstep. destruct Hstep as [-> Hcases].
    assert (Hnext' : ends self {| it_mode := m;
                             it_gen := GenSuspended env key' cn rest' remaining used' |} w1).
    { destruct Hcases as [(_ & _ & Hk)|(_ & -> & [(-> & -> & ->)|(_ & Hk)])].
      - apply Hnew. apply next_key_facts in Hk. tauto.
      - apply (Hsame cn n). reflexivity.
      - apply Hnew. apply next_key_facts in Hk. tauto. }
    destruct Hnext' as [fuel Hfuel]. exists (S fuel). cbn [drain]. rewrite Hnext.
    destruct (drain self fuel _ w1) as [w2 [cs e']]. exact Hfuel.
  - exists 1%nat. cbn [drain]. rewrite Hnext. discriminate.
  - exists 1%nat. cbn [drain]. rewrite Hnext. discriminate.
Qed.

Lemma ends_suspended (bound : nat) :
  forall primary, (length primary < bound)%nat ->
  forall rest m env key conn used (w : @World G),
    ends self {| it_mode := m; it_gen := GenSuspended env key conn rest primary used |} w.
Proof.
  induction bound as [|bound IHb]; intros primary Hlen; [lia|].
  induction rest as [|r rest IHr]; intros m env key conn used w; apply ends_step.
  - intros key' cn rest' remaining used' w1 Hshort. apply IHb. lia.
  - intros c n rest' w1 Hrest. discriminate Hrest.
  - intros key' cn rest' remaining used' w1 Hshort. apply IHb. lia.
  - intros c n rest' w1 [= -> ->]. apply IHr.
Qed.

(** X16. Every iteration is finite: from any state of the iterator and in
    any world, some number of [next()] calls reaches [StopIteration] or
    an error, and asking for more calls changes neither what was yielded
    nor how it ended. *)
Theorem iter_connections_terminates (it : iterator) (w : @World G) :
  exists fuel w' out e,
    e <> Pending
    /\ forall extra, drain self (fuel + extra) it w = (w', (out, e)).
Proof.
  assert (Hends : ends self it w).
  { destruct it as [m g]. destruct g as [s t u sh|env key conn rest primary used|].
    - unfold ends.
      destruct (iter_next self {| it_mode := m; it_gen := GenCreated s t u sh |} w)
        as [w1 [it1 [c| |err]]] eqn:Hnext.
      + pose proof (iter_next_steps _ _ _ _ _ Hnext) as [Hmode Hyield].
        destruct Hyield as (env' & key' & cn & n & rest' & remaining & used' & Hg & _).
        destruct it1 as [m1 g1]. cbn [it_gen it_mode] in Hg, Hmode. subst g1 m1.
        destruct (ends_suspended (S (length remaining)) remaining (Nat.lt_succ_diag_r _)
                    rest' m env' key' cn used' w1) as [fuel Hfuel].
        exists (S fuel). cbn [drain]. rewrite Hnext.
        destruct (drain self fuel _ w1) as [w2 [cs e']]. exact Hfuel.
      + exists 1%nat. cbn [drain]. rewrite Hnext. discriminate.
      + exists 1%nat. cbn [drain]. rewrite Hnext. discriminate.
    - apply (ends_suspended (S (length primary))). lia.
    - exists 1%nat. cbn. discriminate. }
  destruct Hends as [fuel Hfuel].
  destruct (drain self fuel it w) as [w' [out e]] eqn:Hd.
  exists fuel, w', out, e. split; [exact Hfuel|].
  intros extra. apply drain_stable; assumption.
Qed.

Lemma NoDup_fst_filter {A B} (P : A * B -> bool) (l : list (A * B)) :
  NoDup (fst <$> l) -> NoDup (fst <$> List.filter P l).
Proof.
  intros Hn. eapply sublist_NoDup; [exact Hn|]. apply fmap_sublist. clear Hn.
  induction l as [|x l IH]; cbn [List.filter]; [constructor|].
  destruct (P x); [apply sublist_skip | apply sublist_cons]; exact IH.
Qed.

Lemma connected_rows_NoDup env key (w w' : @World G) rows :
  uint32_nodes self ->
  connected_rows self env key w = (w', Ok rows) -> NoDup (fst <$> rows).
Proof.
  intros Hrange Hrows.
  apply connected_rows_rows in Hrows as (connected & Hc & Hperm & _).
  rewrite Hperm.
  assert (Hn : NoDup (fst <$> ((fun r => (to_uint32 (fst r), to_uint32 (snd r)))
                                 <$> np_unique_counts connected))).
  { unfold np_unique_counts. rewrite <- !list_fmap_compose.
    apply NoDup_fmap_2_strong; [|apply np_unique_NoDup].
    intros x y Hx Hy. cbn. unfold to_uint32.
    apply (proj1 (np_unique_elem_of _ _)) in Hx.
    apply (proj1 (np_unique_elem_of _ _)) in Hy.
    rewrite (Z.mod_small x) by exact (Hrange _ _ _ _ Hc Hx).
    rewrite (Z.mod_small y) by exact (Hrange _ _ _ _ Hc Hy). auto. }
  destruct (le_secondary env); [apply NoDup_fst_filter|]; exact Hn.
Qed.

Lemma next_key_NoDup env used primary key c n rest remaining :
  uint32_nodes self -> NoDup primary ->
  next_key self env used primary key c n rest remaining ->
  NoDup (key :: remaining) /\ NoDup (c :: (fst <$> rest)) /\ key ∈ primary
  /\ forall k, k ∈ remaining -> k ∈ primary.
Proof.
  intros Hrange Hnd (pre & rows & wa & wb & -> & Hrows & Hscan).
  apply connected_rows_NoDup in Hrows; [|exact Hrange].
  apply scan_rows_suffix in Hscan as [skipped ->].
  rewrite fmap_app, fmap_cons in Hrows.
  apply NoDup_app in Hrows as (_ & _ & Hrows). apply NoDup_app in Hnd as (_ & _ & Hnd).
  split; [exact Hnd|]. split; [exact Hrows|].
  split; [apply elem_of_app; right; left|].
  intros k Hk. apply elem_of_app. right. right. exact Hk.
Qed.

Lemma drain_pairs (fuel : nat) :
  uint32_nodes self ->
  forall m env key conn rest primary used (w w' : @World G) out e (seen : list (Z * Z)),
    NoDup seen -> NoDup (key :: primary) -> NoDup (conn :: (fst <$> rest)) ->
    (forall p x, (p, x) ∈ seen -> (p ∉ primary) /\ (p = key -> x ∉ (fst <$> rest))) ->
    drain self fuel {| it_mode := m; it_gen := GenSuspended env key conn rest primary used |} w
    = (w', (out, e)) ->
    NoDup (seen ++ ((fun c => (primary_id (le_direction env) c,
                               secondary_id (le_direction env) c)) <$> out)).
Proof.
  intros Hrange. induction fuel as [|fuel IH];
    intros m env key conn rest primary used w w' out e seen Hseen Hprim Hrest Hinv;
    cbn [drain].
  - intros [= _ <- _]. rewrite app_nil_r. exact Hseen.
  - destruct (iter_next self _ w) as [w1 [it1 [c| |err]]] eqn:Hnext.
    + pose proof (iter_next_steps _ _ _ _ _ Hnext) as [Hmode Hyield].
      destruct Hyield as (env' & key' & cn & n & rest' & remaining & used'
                          & Hg & Hstep & Hp & Hs & _).
      destruct it1 as [m1 g1]. cbn [it_gen it_mode] in Hg, Hmode, Hstep. subst g1 m1.
      cbn [yield_step] in Hstep. destruct Hstep as [-> Hcases].
      destruct (drain self fuel _ w1) as [w2 [cs e']] eqn:Hd.
      intros [= _ <- _]. rewrite fmap_cons, Hp, Hs.
      apply NoDup_cons in Hprim as [Hkey Hprim].
      assert (Hfresh : (key' = key /\ remaining = primary
                        /\ rest = (cn, n) :: rest')
                       \/ (NoDup (key' :: remaining) /\ NoDup (cn :: (fst <$> rest'))
                           /\ key' ∈ primary
                           /\ forall k, k ∈ remaining -> k ∈ primary)).
      { destruct Hcases as [(_ & _ & Hk)|(_ & _ & [Hsame|(_ & Hk)])].
        - right. exact (next_key_NoDup _ _ _ _ _ _ _ _ Hrange Hprim Hk).
        - left. exact Hsame.
        - right. exact (next_key_NoDup _ _ _ _ _ _ _ _ Hrange Hprim Hk). }
      apply (IH _ _ _ _ _ _ _ _ _ _ _ (seen ++ [(key', cn)])) in Hd.
      * rewrite <- app_assoc in Hd. exact Hd.
      * apply NoDup_app. split; [exact Hseen|]. split; [|apply NoDup_singleton].
        intros [p x] Hpx Hin. apply list_elem_of_singleton in Hin as [= -> ->].
        destruct (Hinv _ _ Hpx) as [Hnp Hnx].
        destruct Hfresh as [(-> & -> & ->)|(_ & _ & Hin & _)].
        -- apply (Hnx eq_refl). csimpl. left.
        -- exact (Hnp Hin).
      * destruct Hfresh as [(-> & -> & _)|(Hnd & _)]; [|exact Hnd].
        apply NoDup_cons. split; assumption.
      * destruct Hfresh as [(_ & _ & ->)|(_ & Hnd & _)]; [|exact Hnd].
        csimpl in Hrest. apply NoDup_cons in Hrest as [_ Hrest]. exact Hrest.
      * intros p x Hpx. apply elem_of_app in Hpx as [Hpx|Hpx].
        -- destruct (Hinv _ _ Hpx) as [Hnp Hnx].
           destruct Hfresh as [(-> & -> & ->)|(_ & _ & Hin & Hsub)].
           ++ split; [exact Hnp|]. intros Heq Hx. apply (Hnx Heq). csimpl. right. exact Hx.
           ++ split; [intros Hr; apply Hnp, Hsub, Hr|].
              intros -> _. exact (Hnp Hin).
        -- apply list_elem_of_singleton in Hpx as [= -> ->].
           destruct Hfresh as [(-> & -> & ->)|(Hnd & Hnr & _)].
           ++ split; [exact Hkey|]. intros _.
              csimpl in Hrest. apply NoDup_cons in Hrest as [_ Hrest].
              apply NoDup_cons in Hrest as [Hcn _]. exact Hcn.
           ++ apply NoDup_cons in Hnd as [Hk _]. apply NoDup_cons in Hnr as [Hc _].
              split; [exact Hk | intros _; exact Hc].
    + intros [= _ <- _]. rewrite app_nil_r. exact Hseen.
    + intros [= _ <- _]. rewrite app_nil_r. exact Hseen.
Qed.

(** X17. When the node IDs the backend lists fit in 32 bits, no iteration
    yields the same (source, target) pair twice, with or without
    [unique_node_ids] and [shuffle]. *)
Theorem iter_connections_distinct_pairs
    (s t : option (list Z)) (u sh : bool) (fuel : nat) (it : iterator)
    (w w' : @World G) (out : list connection) (e : ending) :
  uint32_nodes self ->
  it_gen it = GenCreated s t u sh ->
  drain self fuel it w = (w', (out, e)) ->
  NoDup (pair_of <$> out).
Proof.
  intros Hrange Hgen. destruct it as [m g]. cbn [it_gen] in Hgen. subst g.
  destruct fuel as [|fuel]; cbn [drain].
  { intros [= _ <- _]. constructor. }
  destruct (iter_next self _ w) as [w1 [it1 [c| |err]]] eqn:Hnext;
    [|intros [= _ <- _]; constructor..].
  pose proof (iter_next_steps _ _ _ _ _ Hnext) as [Hmode Hyield].
  destruct Hyield as (env & key & cn & n & rest & remaining & used
                      & Hg & Hstep & Hp & Hs & _).
  destruct it1 as [m1 g1]. cbn [it_gen it_mode] in Hg, Hmode, Hstep. subst g1 m1.
  cbn [yield_step] in Hstep. destruct Hstep as (w0 & primary & Hstart & -> & Hk).
  apply start_spec in Hstart as (_ & _ & (p & _ & Hperm & _) & _).
  assert (Hnd : NoDup primary) by (rewrite Hperm; apply np_unique_NoDup).
  destruct (next_key_NoDup _ _ _ _ _ _ _ _ Hrange Hnd Hk) as (Hkeys & Hrows & _ & _).
  destruct (drain self fuel _ w1) as [w2 [cs e']] eqn:Hd.
  intros [= _ <- _].
  apply (drain_pairs _ Hrange _ _ _ _ _ _ _ _ _ _ _ [(key, cn)]) in Hd.
  - cbn [app] in Hd.
    assert (Hall : NoDup ((fun c0 => (primary_id (le_direction env) c0,
                                      secondary_id (le_direction env) c0))
                            <$> c :: cs)).
    { rewrite fmap_cons, Hp, Hs. exact Hd. }
    clear -Hall. destruct (le_direction env); unfold primary_id, secondary_id in Hall.
    + exact Hall.
    + apply (NoDup_fmap_1 (fun q : Z * Z => (snd q, fst q))).
      rewrite <- list_fmap_compose. exact Hall.
  - apply NoDup_singleton.
  - exact Hkeys.
  - exact Hrows.
  - intros p0 x Hpx. apply list_elem_of_singleton in Hpx as [= -> ->].
    apply NoDup_cons in Hkeys as [Hk1 _]. apply NoDup_cons in Hrows as [Hc1 _].
    split; [exact Hk1 | intros _; exact Hc1].
Qed.

Lemma StronglySorted_app_r {A} (R : relation A) (l1 l2 : list A) :
  StronglySorted R (l1 ++ l2) -> StronglySorted R l2.
Proof.
  induction l1 as [|x l1 IH]; cbn [app]; [auto|].
  intros Hs. apply StronglySorted_inv in Hs as [Hs _]. auto.
Qed.

Lemma drain_ascending (fuel : nat) :
  forall m env key conn rest primary used (w w' : @World G) out e,
    StronglySorted Z.lt (key :: primary) ->
    drain self fuel {| it_mode := m; it_gen := GenSuspended env key conn rest primary used |} w
    = (w', (out, e)) ->
    StronglySorted Z.le (primary_id (le_direction env) <$> out)
    /\ Forall (fun c => key <= primary_id (le_direction env) c) out.
Proof.
  induction fuel as [|fuel IH];
    intros m env key conn rest primary used w w' out e Hsorted; cbn [drain].
  - intros [= _ <- _]. split; constructor.
  - destruct (iter_next self _ w) as [w1 [it1 [c| |err]]] eqn:Hnext;
      [|intros [= _ <- _]; split; constructor..].
    pose proof (iter_next_steps _ _ _ _ _ Hnext) as [Hmode Hyield].
    destruct Hyield as (env' & key' & cn & n & rest' & remaining & used'
                        & Hg & Hstep & Hp & _).
    destruct it1 as [m1 g1]. cbn [it_gen it_mode] in Hg, Hmode, Hstep. subst g1 m1.
    cbn [yield_step] in Hstep. destruct Hstep as [-> Hcases].
    assert (Hnext' : key <= key' /\ StronglySorted Z.lt (key' :: remaining)).
    { assert (Hnew : forall used0,
                 next_key self env used0 primary key' cn n rest' remaining ->
                 key <= key' /\ StronglySorted Z.lt (key' :: remaining)).
      { intros used0 (pre & rows & wa & wb & -> & _).
        apply StronglySorted_inv in Hsorted as [Hs Hall]. split.
        - rewrite Forall_forall in Hall. apply Z.lt_le_incl, Hall.
          apply elem_of_app. right. left.
        - exact (StronglySorted_app_r _ _ _ Hs). }
      destruct Hcases as [(_ & _ & Hk)|(_ & _ & [(-> & -> & _)|(_ & Hk)])].
      - exact (Hnew _ Hk).
      - split; [lia | exact Hsorted].
      - exact (Hnew _ Hk). }
    destruct Hnext' as [Hle Hsorted'].
    destruct (drain self fuel _ w1) as [w2 [cs e']] eqn:Hd.
    intros [= _ <- _]. apply (IH _ _ _ _ _ _ _ _ _ _ _ Hsorted') in Hd as [Hcs Hall].
    rewrite fmap_cons, Hp. split.
    + constructor; [exact Hcs|]. rewrite Forall_fmap. exact Hall.
    + constructor; [rewrite Hp; exact Hle|].
      eapply Forall_impl; [exact Hall|]. cbn beta. intros c0 Hc0. lia.
Qed.

(** X18. With [shuffle=False] the tuples come in ascending order of the
    primary node ID: by source when only [source] is given, by target
    when only [target] is given, and by one of the two when both are. *)
Theorem iter_connections_ascending
    (s t : option (list Z)) (u : bool) (fuel : nat) (it : iterator)
    (w w' : @World G) (out : list connection) (e : ending) :
  it_gen it = GenCreated s t u false ->
  drain self fuel it w = (w', (out, e)) ->
  (StronglySorted Z.le (source_id <$> out) \/ StronglySorted Z.le (target_id <$> out))
  /\ (t = None -> StronglySorted Z.le (source_id <$> out))
  /\ (s = None -> StronglySorted Z.le (target_id <$> out)).
Proof.
  intros Hgen. destruct it as [m g]. cbn [it_gen] in Hgen. subst g.
  assert (Hnil : forall A (f : connection -> A) (R : relation A),
             StronglySorted R (f <$> [])) by (intros; constructor).
  destruct fuel as [|fuel]; cbn [drain].
  { intros [= _ <- _]. repeat split; auto. }
  destruct (iter_next self _ w) as [w1 [it1 [c| |err]]] eqn:Hnext;
    [|intros [= _ <- _]; repeat split; auto..].
  pose proof (iter_next_steps _ _ _ _ _ Hnext) as [Hmode Hyield].
  destruct Hyield as (env & key & cn & n & rest & remaining & used
                      & Hg & Hstep & Hp & _).
  destruct it1 as [m1 g1]. cbn [it_gen it_mode] in Hg, Hmode, Hstep. subst g1 m1.
  cbn [yield_step] in Hstep.
  destruct Hstep as (w0 & primary & Hstart & -> & (pre & rows & wa & wb & -> & _)).
  apply start_spec in Hstart as (_ & _ & (p & Hside & _ & Heq) & _).
  assert (Hsorted : StronglySorted Z.lt (key :: remaining)).
  { apply (StronglySorted_app_r _ pre). rewrite (Heq eq_refl). apply np_unique_sorted. }
  destruct (drain self fuel _ w1) as [w2 [cs e']] eqn:Hd.
  intros [= _ <- _]. apply (drain_ascending _ _ _ _ _ _ _ _ _ _ _ _ Hsorted) in Hd
    as [Hcs Hall].
  assert (Hout : StronglySorted Z.le (primary_id (le_direction env) <$> c :: cs)).
  { rewrite fmap_cons. constructor; [exact Hcs|]. rewrite Forall_fmap, Hp. exact Hall. }
  clear -Hout Hside. destruct (le_direction env); cbn in Hside.
  - split; [left; exact Hout|]. split; [intros _; exact Hout|]. congruence.
  - split; [right; exact Hout|]. split; [congruence|]. intros _; exact Hout.
Qed.

(** The rows of a primary node hold every node the backend lists for it
    that passes the filter. *)
Lemma connected_rows_complete env key (w w' : @World G) rows connected v :
  connected_rows self env key w = (w', Ok rows) ->
  connected_of self (le_direction env) key = Some connected ->
  v ∈ connected ->
  (forall sec, le_secondary env = Some sec -> to_uint32 v ∈ sec) ->
  exists n, (to_uint32 v, n) ∈ rows.
Proof.
  intros Hrows Hc Hv Hsec.
  apply connected_rows_rows in Hrows as (connected' & Hc' & Hperm & _).
  rewrite Hc in Hc'. injection Hc' as <-.
  exists (to_uint32 (Z.of_nat (count_occ Z.eq_dec connected v))).
  rewrite Hperm.
  assert (Hin : (to_uint32 v, to_uint32 (Z.of_nat (count_occ Z.eq_dec connected v)))
                ∈ (fun r : Z * Z => (to_uint32 (fst r), to_uint32 (snd r)))
                    <$> np_unique_counts connected).
  { apply list_elem_of_fmap.
    exists (v, Z.of_nat (count_occ Z.eq_dec connected v)). split; [reflexivity|].
    unfold np_unique_counts. apply list_elem_of_fmap. exists v.
    split; [reflexivity|]. apply np_unique_elem_of. exact Hv. }
  destruct (le_secondary env) as [sec|]; [|exact Hin].
  apply list_elem_of_In, filter_In. split; [apply list_elem_of_In; exact Hin|].
  cbn [fst]. unfold np_isin. apply bool_decide_eq_true_2. apply Hsec. reflexivity.
Qed.

(** Without [unique_node_ids], the outer loop only passes over primary
    nodes that have no row. *)
Lemma run_primaries_passed env used primary (w w' : @World G) g' sig :
  le_unique env = false ->
  run_primaries self env used primary w = (w', (g', sig)) ->
  match sig with
  | Yield tup =>
      exists pre key c n rest remaining (wa wb : @World G),
        primary = pre ++ key :: remaining
        /\ g' = GenSuspended env key c rest remaining used
        /\ tup = emitted (le_direction env) key c n
        /\ connected_rows self env key wa = (wb, Ok ((c, n) :: rest))
        /\ forall k, k ∈ pre ->
                     exists wa wb : @World G, connected_rows self env k wa = (wb, Ok [])
  | StopIteration =>
      forall k, k ∈ primary ->
                exists wa wb : @World G, connected_rows self env k wa = (wb, Ok [])
  | Raise _ => True
  end.
Proof.
  intros Hu. revert w. induction primary as [|key primary IH]; intros w;
    cbn [run_primaries].
  - intros [= <- <- <-]. intros k Hk. inversion Hk.
  - destruct (connected_rows self env key w) as [w1 [rows|e]] eqn:Hrows.
    + rewrite Hu, scan_rows_false. destruct rows as [|[c n] rest].
      * intros Hrun. specialize (IH _ Hrun). destruct sig as [tup| |e].
        -- destruct IH as (pre & key' & c & n & rest & remaining & wa & wb
                           & -> & Hg & Ht & Hr & Hpre).
           exists (key :: pre), key', c, n, rest, remaining, wa, wb.
           split; [reflexivity|]. split; [exact Hg|]. split; [exact Ht|].
           split; [exact Hr|]. intros k Hk. apply elem_of_cons in Hk as [->|Hk].
           ++ exists w, w1. exact Hrows.
           ++ exact (Hpre k Hk).
        -- intros k Hk. apply elem_of_cons in Hk as [->|Hk].
           ++ exists w, w1. exact Hrows.
           ++ exact (IH k Hk).
        -- exact I.
      * intros [= <- <- <-]. exists [], key, c, n, rest, primary, w, w1.
        split; [reflexivity|]. split; [reflexivity|]. split; [reflexivity|].
        split; [exact Hrows|]. intros k Hk. inversion Hk.
    + intros [= <- <- <-]. exact I.
Qed.

(** An iteration that just started is a suspended one with no row left. *)
Lemma drain_created m s t u sh fuel (w w0 : @World G) env primary key conn :
  start self s t u sh w = (w0, Ok (Some (env, primary))) ->
  le_unique env = false ->
  drain self (S fuel) {| it_mode := m; it_gen := GenCreated s t u sh |} w
  = drain self (S fuel)
      {| it_mode := m; it_gen := GenSuspended env key conn [] primary ∅ |} w0.
Proof.
  intros Hstart Hu. cbn [drain]. unfold iter_next. cbn [gen_next it_gen it_mode].
  rewrite Hstart, Hu. cbn [scan_rows]. reflexivity.
Qed.

Lemma drain_complete (fuel : nat) :
  forall m env key conn rest primary used (w w' : @World G) out,
    le_unique env = false ->
    drain self fuel {| it_mode := m; it_gen := GenSuspended env key conn rest primary used |} w
    = (w', (out, Exhausted)) ->
    (forall r, r ∈ rest ->
               exists c, c ∈ out /\ primary_id (le_direction env) c = key
                         /\ secondary_id (le_direction env) c = fst r)
    /\ (forall k connected v,
           k ∈ primary ->
           connected_of self (le_direction env) k = Some connected ->
           v ∈ connected ->
           (forall sec, le_secondary env = Some sec -> to_uint32 v ∈ sec) ->
           exists c, c ∈ out /\ primary_id (le_direction env) c = k
                     /\ secondary_id (le_direction env) c = to_uint32 v).
Proof.
  induction fuel as [|fuel IH];
    intros m env key conn rest primary used w w' out Hu; cbn [drain];
    [discriminate|].
  unfold iter_next. cbn [gen_next it_gen it_mode]. rewrite Hu, scan_rows_false.
  destruct rest as [|[c0 n0] rest'].
  - destruct (run_primaries self env used primary w) as [w1 [g1 sig]] eqn:Hrun.
    pose proof (run_primaries_passed _ _ _ _ _ _ _ Hu Hrun) as Hpassed.
    destruct sig as [[[a b] k0]| |e]; [| |discriminate].
    + destruct Hpassed as (pre & key' & c & n & rest & remaining & wa & wb
                           & -> & -> & Ht & Hrows & Hpre).
      destruct (annotate self m a b k0 w1) as [w2 [cn|e]] eqn:Ha; [|discriminate].
      destruct (drain self fuel _ w2) as [w3 [cs e']] eqn:Hd.
      intros [= _ <- ->].
      assert (Hids : primary_id (le_direction env) cn = key'
                     /\ secondary_id (le_direction env) cn = c).
      { eapply (emitted_ids self _ _ _ n m w1 w2). rewrite <- Ht. exact Ha. }
      destruct Hids as [Hp Hs].
      apply (IH _ _ _ _ _ _ _ _ _ _ Hu) in Hd as [Hrest Hprimary].
      split; [intros r Hr; inversion Hr|].
      intros k connected v Hk Hc Hv Hsec.
      apply elem_of_app in Hk as [Hk|Hk].
      * destruct (Hpre k Hk) as (wc & wd & Hempty).
        destruct (connected_rows_complete _ _ _ _ _ _ _ Hempty Hc Hv Hsec) as [n' Hin].
        inversion Hin.
      * apply elem_of_cons in Hk as [->|Hk].
        -- destruct (connected_rows_complete _ _ _ _ _ _ _ Hrows Hc Hv Hsec)
             as [n' Hin].
           apply elem_of_cons in Hin as [Heq|Hin].
           ++ injection Heq as Hv' _. exists cn. split; [left|].
              split; [exact Hp | congruence].
           ++ destruct (Hrest _ Hin) as (c' & Hc' & Hp' & Hs').
              exists c'. split; [right; exact Hc'|]. split; [exact Hp' | exact Hs'].
        -- destruct (Hprimary k connected v Hk Hc Hv Hsec) as (c' & Hc' & Hp' & Hs').
           exists c'. split; [right; exact Hc'|]. split; [exact Hp' | exact Hs'].
    + intros [= _ <-]. split; [intros r Hr; inversion Hr|].
      intros k connected v Hk Hc Hv Hsec.
      destruct (Hpassed k Hk) as (wc & wd & Hempty).
      destruct (connected_rows_complete _ _ _ _ _ _ _ Hempty Hc Hv Hsec) as [n' Hin].
      inversion Hin.
  - destruct (emitted (le_direction env) key c0 n0) as [[a b] k0] eqn:Ht.
    destruct (annotate self m a b k0 w) as [w2 [cn|e]] eqn:Ha; [|discriminate].
    assert (Hids : primary_id (le_direction env) cn = key
                   /\ secondary_id (le_direction env) cn = c0).
    { eapply (emitted_ids self _ _ _ n0 m w w2). rewrite Ht. exact Ha. }
    destruct Hids as [Hp Hs].
    destruct (drain self fuel _ w2) as [w3 [cs e']] eqn:Hd.
    intros [= _ <- ->].
    apply (IH _ _ _ _ _ _ _ _ _ _ Hu) in Hd as [Hrest Hprimary].
    split.
    + intros r Hr. apply elem_of_cons in Hr as [->|Hr].
      * exists cn. split; [left|]. split; [exact Hp | exact Hs].
      * destruct (Hrest _ Hr) as (c' & Hc' & Hp' & Hs').
        exists c'. split; [right; exact Hc'|]. split; [exact Hp' | exact Hs'].
    + intros k connected v Hk Hc Hv Hsec.
      destruct (Hprimary k connected v Hk Hc Hv Hsec) as (c' & Hc' & Hp' & Hs').
      exists c'. split; [right; exact Hc'|]. split; [exact Hp' | exact Hs'].
Qed.

(** X19. Without [unique_node_ids], an iteration that runs to its end has
    yielded every connection of the backend between the requested nodes:
    for the direction it ran in, each node the backend lists for a
    requested primary node, and that is among the requested secondary
    nodes when these are given, appears (as its uint32 image) in a tuple
    with that primary node. *)
Theorem iter_connections_complete
    (s t : option (list Z)) (sh : bool) (fuel : nat) (it : iterator)
    (w w' : @World G) (out : list connection) :
  it_gen it = GenCreated s t false sh ->
  drain self fuel it w = (w', (out, Exhausted)) ->
  exists d,
    (s = None -> d = DirTarget) /\ (t = None -> d = DirSource)
    /\ forall key v,
         listed self d s t key v ->
         exists c, c ∈ out /\ primary_id d c = key /\ secondary_id d c = to_uint32 v.
Proof.
  intros Hgen. destruct it as [m g]. cbn [it_gen] in Hgen. subst g.
  destruct fuel as [|fuel]; [discriminate|].
  destruct (start self s t false sh w) as [w0 [[[env primary]|]|e]] eqn:Hstart.
  - rewrite (drain_created m _ _ _ _ _ _ _ _ _ 0 0 Hstart)
      by (apply start_spec in Hstart as (Hu & _); exact Hu).
    pose proof (start_spec _ _ _ _ _ _ _ _ Hstart) as (Hu & _ & (p & Hp & Hperm & _) & Hsec).
    intros Hd. apply drain_complete in Hd as [_ Hprimary]; [|exact Hu].
    exists (le_direction env). split; [|split].
    + intros ->. destruct (le_direction env); [discriminate Hp | reflexivity].
    + intros ->. destruct (le_direction env); [reflexivity | discriminate Hp].
    + intros key v ((p' & Hp' & Hkey) & (connected & Hc & Hv) & Hfilter).
      rewrite Hp in Hp'. injection Hp' as <-.
      apply (Hprimary key connected v).
      * rewrite Hperm. apply np_unique_elem_of. exact Hkey.
      * exact Hc.
      * exact Hv.
      * intros sec Hsec'. rewrite Hsec in Hsec'.
        destruct (secondary_side (le_direction env) s t) as [sec0|] eqn:Hside;
          [|discriminate]. injection Hsec' as <-.
        apply np_unique_elem_of. apply Hfilter. reflexivity.
  - cbn [drain]. unfold iter_next. cbn [gen_next it_gen it_mode]. rewrite Hstart.
    intros [= _ <-].
    assert (Hempty : _is_empty s || _is_empty t = true).
    { revert Hstart. unfold start. destruct (_is_empty s || _is_empty t); [reflexivity|].
      unfold bind at 1. destruct (_optimal_direction self s t w) as [w1 [d|e]];
        [|discriminate].
      unfold bind. destruct sh.
      - destruct (shuffle_spec (np_unique (resolved (primary_side d s t))) w1)
          as (ys & g & -> & _). discriminate.
      - discriminate. }
    assert (Hnil : forall l : list Z, Nat.eqb (length l) 0 = true -> l = []).
    { intros [|x l]; [reflexivity | discriminate]. }
    destruct s as [s|].
    + destruct (Nat.eqb (length s) 0) eqn:Hs.
      * apply Hnil in Hs as ->. exists DirSource.
        split; [discriminate|]. split; [reflexivity|].
        intros key v ((p' & [= <-] & Hkey) & _). inversion Hkey.
      * cbn [_is_empty] in Hempty. rewrite Hs in Hempty. cbn [orb] in Hempty.
        destruct t as [t|]; [|discriminate]. apply Hnil in Hempty as ->.
        exists DirTarget. split; [discriminate|]. split; [discriminate|].
        intros key v ((p' & [= <-] & Hkey) & _). inversion Hkey.
    + destruct t as [t|]; [|discriminate]. cbn in Hempty. apply Hnil in Hempty as ->.
      exists DirTarget. split; [reflexivity|]. split; [discriminate|].
      intros key v ((p' & [= <-] & Hkey) & _). inversion Hkey.
  - cbn [drain]. unfold iter_next. cbn [gen_next it_gen it_mode]. rewrite Hstart.
    discriminate.
Qed.

End GeneratorProperties.

(** ** Further properties: slicing, consistency, the random state *)

Lemma ensure_ids_list_inv (res : list id_value) (zs : list Z) :
  ensure_ids_list res = Ok zs -> res = IntId <$> zs.
Proof.
  revert zs. induction res as [|[z|pop z] res IH]; intros zs; cbn [ensure_ids_list].
  - intros [= <-]. reflexivity.
  - destruct (ensure_ids_list res) as [zs'|e]; [|discriminate].
    intros [= <-]. rewrite (IH zs' eq_refl). reflexivity.
  - discriminate.
Qed.

Lemma py_slice_to_fmap {A B} (f : A -> B) (xs : list A) (limit : Z) :
  py_slice_to (f <$> xs) limit = f <$> py_slice_to xs limit.
Proof.
  unfold py_slice_to. rewrite length_fmap.
  destruct (0 <=? limit); rewrite fmap_take; reflexivity.
Qed.

Section CompositionProperties.

Context {G : Type} `{RandomSource G}.
Variable self : EdgePopulation.
Variable Query : Type.
Variable get_properties : Query -> gset string.
Variable resolve_ids : edges_result -> string -> string -> Query -> option (list bool).

Local Abbreviation ids'' := (ids self Query get_properties resolve_ids).
Local Abbreviation get'' := (get self Query get_properties resolve_ids).

(** X20. [limit] cuts the array that [ids] returns without it, as the
    Python slice [result[:limit]] does: a limit of at least the length
    keeps everything, a smaller non-negative one keeps that many IDs from
    the front, and a negative one is not rejected but drops that many IDs
    from the end.  The backend calls are the same. *)
Theorem ids_limit_slice
    (g : group Query) (limit : Z) (rmp : bool) (w w' : @World G) (full : list Z) :
  ids'' g None None rmp w = (w', Ok full) ->
  ids'' g (Some limit) None rmp w = (w', Ok (py_slice_to full limit))
  /\ py_slice_to full limit `prefix_of` full
  /\ (Z.of_nat (length full) <= limit -> py_slice_to full limit = full)
  /\ (0 <= limit -> py_slice_to full limit = take (Z.to_nat limit) full)
  /\ (limit < 0 ->
      py_slice_to full limit = take (length full - Z.to_nat (- limit)) full).
Proof.
  unfold ids, ids_with, bind.
  destruct (dispatch self Query _ g rmp w) as [w1 [res|e]]; [|discriminate].
  unfold post_process, sample_step, limit_step, bind, ret, lift.
  intros [= <- Hfull]. apply ensure_ids_list_inv in Hfull as ->.
  rewrite py_slice_to_fmap, ensure_ids_list_ints.
  split; [reflexivity|]. unfold py_slice_to.
  split; [destruct (0 <=? limit); apply prefix_take|].
  split; [|split].
  - intros Hlen. destruct (0 <=? limit) eqn:Hsign; apply take_ge; lia.
  - intros Hpos. apply Z.leb_le in Hpos as ->. reflexivity.
  - intros Hneg. destruct (0 <=? limit) eqn:Hsign; [lia|]. f_equal. lia.
Qed.

(** X23. [afferent_nodes] with [unique=False] is, edge by edge, the
    source-node column that [afferent_edges] returns for the same target
    group, and [efferent_nodes] the target-node column of
    [efferent_edges], whenever the group has an edge at all; the backend
    calls are then the same. *)
Theorem connected_nodes_column (nodes : node_group) (w w1 : @World G) (raw : list Z) :
  (afferent_nodes self (Some nodes) false w = (w1, Ok raw) ->
   exists w2 f,
     afferent_edges self (Some nodes) (Some (PropList [SOURCE_NODE_ID])) w
     = (w2, Ok (EdgeFrame f))
     /\ (row_index f <> [] ->
         w2 = w1 /\ single_column f = Some (SOURCE_NODE_ID, ids_column raw)))
  /\ (efferent_nodes self (Some nodes) false w = (w1, Ok raw) ->
      exists w2 f,
        efferent_edges self (Some nodes) (Some (PropList [TARGET_NODE_ID])) w
        = (w2, Ok (EdgeFrame f))
        /\ (row_index f <> [] ->
            w2 = w1 /\ single_column f = Some (TARGET_NODE_ID, ids_column raw))).
Proof.
  split.
  - unfold afferent_nodes, afferent_edges, pathway_edges, _resolve_node_ids.
    destruct (np_ids (target self) nodes) as [ids|]; [|run_M; discriminate].
    unfold backend_afferent_edges, backend_source_nodes, ensure_ids. run_M.
    change (resolved (Some ids)) with ids.
    intros [= <- <-]. cbn [truthy length Nat.eqb negb].
    unfold _get, ensure_ids.
    destruct (Nat.eqb (length (flatten (be_afferent_edges (population self) ids))) 0)
      eqn:Hlen.
    + eexists _, _. split; [reflexivity|]. intros Hrows. contradiction Hrows.
      reflexivity.
    + cbn [fill_columns]. unfold _get_property.
      destruct (decide (SOURCE_NODE_ID = SOURCE_NODE_ID)) as [_|Hne];
        [|contradiction Hne; reflexivity].
      unfold backend_source_nodes, ensure_ids. run_M.
      eexists _, _. split; [reflexivity|]. intros _. split; reflexivity.
  - unfold efferent_nodes, efferent_edges, pathway_edges, _resolve_node_ids.
    destruct (np_ids (source self) nodes) as [ids|]; [|run_M; discriminate].
    unfold backend_efferent_edges, backend_target_nodes, ensure_ids. run_M.
    intros [= <- <-]. cbn [truthy length Nat.eqb negb].
    unfold _get, ensure_ids.
    destruct (Nat.eqb (length (flatten (be_efferent_edges (population self) ids))) 0)
      eqn:Hlen.
    + eexists _, _. split; [reflexivity|]. intros Hrows. contradiction Hrows.
      reflexivity.
    + cbn [fill_columns]. unfold _get_property.
      destruct (decide (TARGET_NODE_ID = SOURCE_NODE_ID)) as [Heq|_];
        [discriminate Heq|].
      destruct (decide (TARGET_NODE_ID = TARGET_NODE_ID)) as [_|Hne];
        [|contradiction Hne; reflexivity].
      unfold backend_target_nodes, ensure_ids. run_M.
      eexists _, _. split; [reflexivity|]. intros _. split; reflexivity.
Qed.

(** *** The random state *)

Lemma quiet_ret {A} (a : A) : quiet (@ret G A a).
Proof. intros w. reflexivity. Qed.

Lemma quiet_raise {A} (e : error) : quiet (@raise G A e).
Proof. intros w. reflexivity. Qed.

Lemma quiet_lift {A} (r : result A) : quiet (@lift G A r).
Proof. intros w. reflexivity. Qed.

Lemma quiet_call {A} (ev : event) (v : A) : quiet (@call G A ev v).
Proof. intros w. reflexivity. Qed.

Lemma quiet_bind {A B} (m : @M G A) (k : A -> @M G B) :
  quiet m -> (forall a, quiet (k a)) -> quiet (bind m k).
Proof.
  intros Hm Hk w. unfold bind. specialize (Hm w).
  destruct (m w) as [w1 [a|e]]; cbn [fst] in Hm |- *; [|exact Hm].
  rewrite (Hk a w1). exact Hm.
Qed.

(** One step through a computation that is built from logged calls. *)
Ltac quiet_step :=
  match goal with
  | |- quiet (bind _ _) => apply quiet_bind; [|intros ?]
  | |- quiet (ret _) => apply quiet_ret
  | |- quiet (raise _) => apply quiet_raise
  | |- quiet (lift _) => apply quiet_lift
  | |- quiet (call _ _) => apply quiet_call
  | |- quiet (match ?x with _ => _ end) => destruct x
  | |- _ => solve [auto]
  end.

Lemma quiet_resolve_node_ids (nodes : NodePopulation) (g : option node_group) :
  quiet (@_resolve_node_ids G nodes g).
Proof. unfold _resolve_node_ids. repeat quiet_step. Qed.

Lemma quiet_get_property (p : string) (sel : Selection) :
  quiet (@_get_property G self p sel).
Proof.
  unfold _get_property, backend_source_nodes, backend_target_nodes,
    backend_get_attribute, backend_get_dynamics_attribute.
  repeat quiet_step.
Qed.

Lemma quiet_fill_columns (ps : list string) (sel : Selection) :
  forall cols, quiet (@fill_columns G self ps sel cols).
Proof.
  induction ps as [|p ps IH]; intros cols; cbn [fill_columns].
  - apply quiet_ret.
  - apply quiet_bind; [apply quiet_get_property | intros c; apply IH].
Qed.

Lemma quiet_get_selection (sel : Selection) (properties : option props) :
  quiet (@_get G self sel properties).
Proof.
  pose proof quiet_get_property. pose proof quiet_fill_columns.
  unfold _get. repeat quiet_step.
Qed.

Lemma quiet_ids_with (by_filter : Query -> bool -> @M G (list Z)) :
  (forall q rmp, quiet (by_filter q rmp)) ->
  forall g limit rmp, quiet (ids_with self Query by_filter g limit None rmp).
Proof.
  intros Hfilter g limit rmp.
  unfold ids_with, dispatch, post_process, sample_step, select_all.
  repeat quiet_step.
Qed.

Lemma quiet_get_with (by_filter : Query -> bool -> @M G (list Z)) :
  (forall q rmp, quiet (by_filter q rmp)) ->
  forall g properties, quiet (get_with self Query by_filter g properties).
Proof.
  intros Hfilter g properties. unfold get_with.
  apply quiet_bind; [apply quiet_ids_with; exact Hfilter|].
  intros edge_ids. apply quiet_get_selection.
Qed.

Lemma quiet_no_filter (q : Query) (rmp : bool) : quiet (@no_filter G Query q rmp).
Proof. apply quiet_raise. Qed.

Lemma quiet_filter_chunks (q : Query) (properties : gset string) (chunks : list (list Z)) :
  quiet (@filter_chunks G _ self Query resolve_ids q properties chunks).
Proof.
  induction chunks as [|chunk chunks IH]; cbn [filter_chunks].
  - apply quiet_ret.
  - pose proof (quiet_get_with _ quiet_no_filter). repeat quiet_step.
Qed.

Lemma quiet_edge_ids_by_filter (q : Query) (rmp : bool) :
  quiet (_edge_ids_by_filter self Query get_properties resolve_ids q rmp).
Proof.
  unfold _edge_ids_by_filter.
  pose proof (quiet_ids_with _ quiet_no_filter). pose proof quiet_filter_chunks.
  repeat quiet_step.
Qed.

Lemma quiet_afferent_nodes (nodes : option node_group) (unique : bool) :
  quiet (@afferent_nodes G self nodes unique).
Proof.
  pose proof quiet_resolve_node_ids.
  unfold afferent_nodes, backend_afferent_edges, backend_source_nodes, select_all.
  repeat quiet_step.
Qed.

Lemma quiet_efferent_nodes (nodes : option node_group) (unique : bool) :
  quiet (@efferent_nodes G self nodes unique).
Proof.
  pose proof quiet_resolve_node_ids.
  unfold efferent_nodes, backend_efferent_edges, backend_target_nodes, select_all.
  repeat quiet_step.
Qed.

Lemma quiet_pathway_edges (src tgt : option node_group) (properties : option props) :
  quiet (@pathway_edges G self src tgt properties).
Proof.
  pose proof quiet_resolve_node_ids. pose proof quiet_get_selection.
  unfold pathway_edges, backend_afferent_edges, backend_efferent_edges,
    backend_connecting_edges.
  repeat quiet_step.
Qed.

(** X21. Only [ids] with [sample] and the connection iterator draw random
    numbers: [ids] without [sample], [get], [pathway_edges] (and with it
    [afferent_edges], [efferent_edges], [pair_edges]), [afferent_nodes],
    [efferent_nodes], [property_dtypes] and [positions] leave the random
    generator as they found it, whether they succeed or fail. *)
Theorem accessors_keep_random_state :
  (forall g limit rmp, quiet (ids'' g limit None rmp))
  /\ (forall g properties, quiet (get'' g properties))
  /\ (forall src tgt properties,
         quiet (G := G) (pathway_edges self src tgt properties))
  /\ (forall nodes unique, quiet (G := G) (afferent_nodes self nodes unique))
  /\ (forall nodes unique, quiet (G := G) (efferent_nodes self nodes unique))
  /\ quiet (property_dtypes self Query get_properties resolve_ids)
  /\ (forall edge_ids side kind,
         quiet (positions self Query get_properties resolve_ids edge_ids side kind)).
Proof.
  pose proof (quiet_ids_with _ quiet_edge_ids_by_filter) as Hids.
  pose proof (quiet_get_with _ quiet_edge_ids_by_filter) as Hget.
  split; [exact Hids|]. split; [exact Hget|].
  split; [exact quiet_pathway_edges|].
  split; [exact quiet_afferent_nodes|]. split; [exact quiet_efferent_nodes|].
  split.
  - unfold property_dtypes, get. repeat quiet_step.
  - intros edge_ids side kind. unfold positions, get. repeat quiet_step.
Qed.

Lemma quiet_range_sizes (func : list Z -> @M G Selection) (node_ids : list Z) :
  (forall ids, quiet (func ids)) -> quiet (range_sizes func node_ids).
Proof.
  intros Hfunc. induction node_ids as [|n node_ids IH]; cbn [range_sizes];
    repeat quiet_step.
Qed.

Lemma quiet_estimate_range_size (func : list Z -> @M G Selection) (node_ids : list Z)
    (n : nat) :
  (forall ids, quiet (func ids)) -> (length node_ids <= n)%nat ->
  quiet (_estimate_range_size func node_ids n).
Proof.
  intros Hfunc Hlen. pose proof (quiet_range_sizes func) as Hsizes.
  unfold _estimate_range_size.
  replace (n <? length node_ids)%nat with false by (symmetry; apply Nat.ltb_ge; lia).
  repeat quiet_step.
Qed.

Lemma quiet_start (s t : option (list Z)) (u : bool) :
  s = None \/ t = None
  \/ ((length (resolved s) <= 3)%nat /\ (length (resolved t) <= 3)%nat) ->
  quiet (@start G _ self s t u false).
Proof.
  intros Hsmall. unfold start, _optimal_direction.
  destruct (_is_empty s || _is_empty t); [apply quiet_ret|].
  apply quiet_bind; [|intros d; repeat quiet_step].
  destruct s as [s|], t as [t|]; try solve [repeat quiet_step].
  destruct Hsmall as [Hs|[Ht|[Hs Ht]]]; [discriminate..|].
  apply quiet_bind; [|intros a; apply quiet_bind; [|intros b; apply quiet_ret]].
  - apply quiet_estimate_range_size; [intros ids; apply quiet_call | exact Hs].
  - apply quiet_estimate_range_size; [intros ids; apply quiet_call | exact Ht].
Qed.

Lemma quiet_connected_rows (env : loop_env) (key : Z) :
  le_shuffle env = false -> quiet (@connected_rows G _ self env key).
Proof.
  intros Hsh. pose proof quiet_afferent_nodes. pose proof quiet_efferent_nodes.
  unfold connected_rows, get_connected_node_ids. rewrite Hsh.
  apply quiet_bind; [destruct (le_direction env); auto|].
  intros connected. apply quiet_ret.
Qed.

Lemma quiet_annotate (m : mode) (a b k : Z) : quiet (@annotate G self m a b k).
Proof.
  pose proof quiet_pathway_edges. unfold annotate, pair_edges. repeat quiet_step.
Qed.

Lemma run_primaries_random_state env used primary (w : @World G) :
  le_shuffle env = false ->
  w_rng (fst (run_primaries self env used primary w)) = w_rng w.
Proof.
  intros Hsh. revert w. induction primary as [|key primary IH]; intros w;
    cbn [run_primaries]; [reflexivity|].
  pose proof (quiet_connected_rows env key Hsh w) as Hq.
  destruct (connected_rows self env key w) as [w1 [rows|e]]; cbn [fst] in Hq |- *;
    [|exact Hq].
  destruct (scan_rows (le_unique env) used rows) as [[[c n] rest]|]; [exact Hq|].
  rewrite IH. exact Hq.
Qed.

Lemma iter_next_random_state (it : iterator) (w w' : @World G) it' sig :
  draws_nothing (it_gen it) ->
  iter_next self it w = (w', (it', sig)) ->
  w_rng w' = w_rng w /\ draws_nothing (it_gen it').
Proof.
  intros Hcalm. unfold iter_next.
  destruct (gen_next self (it_gen it) w) as [w1 [g1 sig1]] eqn:Hgen.
  assert (Hstep : w_rng w1 = w_rng w /\ draws_nothing g1).
  { destruct (it_gen it) as [s t u sh|env key conn rest primary used|];
      cbn [gen_next draws_nothing] in Hgen, Hcalm.
    - destruct Hcalm as [-> Hsmall].
      pose proof (quiet_start s t u Hsmall w) as Hq.
      destruct (start self s t u false w) as [w0 [[[env primary]|]|e]] eqn:Hstart;
        cbn [fst] in Hq.
      + apply start_spec in Hstart as (_ & Hsh & _).
        pose proof (run_primaries_random_state env ∅ primary w0 Hsh) as Hrun.
        rewrite Hgen in Hrun. cbn [fst] in Hrun. split; [congruence|].
        apply run_primaries_steps in Hgen. destruct sig1 as [tup| |e].
        * destruct Hgen as (key & c & n & rest & remaining & -> & _). exact Hsh.
        * subst g1. exact I.
        * destruct Hgen as [-> _]. exact I.
      + injection Hgen as <- <- <-. split; [exact Hq | exact I].
      + injection Hgen as <- <- <-. split; [exact Hq | exact I].
    - assert (Hrun : forall used' g' sig',
                 run_primaries self env used' primary w = (w1, (g', sig')) ->
                 w_rng w1 = w_rng w /\ draws_nothing g').
      { intros used' g' sig' Hrun.
        pose proof (run_primaries_random_state env used' primary w Hcalm) as Hq.
        rewrite Hrun in Hq. cbn [fst] in Hq. split; [exact Hq|].
        apply run_primaries_steps in Hrun. destruct sig' as [tup| |e].
        - destruct Hrun as (key' & c & n & rest' & remaining & -> & _). exact Hcalm.
        - subst g'. exact I.
        - destruct Hrun as [-> _]. exact I. }
      destruct (le_unique env); [exact (Hrun _ _ _ Hgen)|].
      destruct (scan_rows false used rest) as [[[c n] rest']|];
        [|exact (Hrun _ _ _ Hgen)].
      injection Hgen as <- <- <-. split; [reflexivity | exact Hcalm].
    - injection Hgen as <- <- <-. split; [reflexivity | exact I]. }
  destruct Hstep as [Hrng Hcalm1]. destruct sig1 as [[[a b] k]| |e].
  - pose proof (quiet_annotate (it_mode it) a b k w1) as Hq.
    destruct (annotate self (it_mode it) a b k w1) as [w2 [c|e]]; cbn [fst] in Hq;
      intros [= <- <- <-]; (split; [congruence|]); [exact Hcalm1 | exact I].
  - intros [= <- <- <-]. split; [exact Hrng | exact Hcalm1].
  - intros [= <- <- <-]. split; [exact Hrng | exact Hcalm1].
Qed.

Lemma drain_random_state (fuel : nat) :
  forall (it : iterator) (w w' : @World G) out e,
    draws_nothing (it_gen it) ->
    drain self fuel it w = (w', (out, e)) -> w_rng w' = w_rng w.
Proof.
  induction fuel as [|fuel IH]; intros it w w' out e Hcalm; cbn [drain].
  - intros [= <- _ _]. reflexivity.
  - destruct (iter_next self it w) as [w1 [it1 sig]] eqn:Hnext.
    apply (iter_next_random_state _ _ _ _ _ Hcalm) in Hnext as [Hrng Hcalm1].
    destruct sig as [c| |err].
    + destruct (drain self fuel it1 w1) as [w2 [cs e']] eqn:Hd.
      intros [= <- _ _]. rewrite (IH _ _ _ _ _ Hcalm1 Hd). exact Hrng.
    + intros [= <- _ _]. exact Hrng.
    + intros [= <- _ _]. exact Hrng.
Qed.

(** X22. With [shuffle=False], an iteration draws no random number when
    only one of [source] and [target] is given, or when neither has more
    than three node IDs: however far it is advanced and however it ends,
    the random generator is as it was. *)
Theorem iter_connections_keeps_random_state
    (s t : option (list Z)) (u : bool) (fuel : nat) (it : iterator)
    (w w' : @World G) (out : list connection) (e : ending) :
  it_gen it = GenCreated s t u false ->
  s = None \/ t = None
  \/ ((length (resolved s) <= 3)%nat /\ (length (resolved t) <= 3)%nat) ->
  drain self fuel it w = (w', (out, e)) ->
  w_rng w' = w_rng w.
Proof.
  intros Hgen Hsmall. apply drain_random_state. rewrite Hgen. split; [reflexivity|].
  exact Hsmall.
Qed.

End CompositionProperties.

(** ** The further properties at concrete inputs, on the small circuit *)

Lemma small_table_nodes (n : nat) :
  0 <= fst (nth n small_table (0, 0)) < 2 ^ 32
  /\ 0 <= snd (nth n small_table (0, 0)) < 2 ^ 32.
Proof.
  do 4 (destruct n as [|n]; [cbn; lia|]). destruct n; cbn; lia.
Qed.

Lemma small_population_uint32 : uint32_nodes small_population.
Proof.
  intros d key connected v Hc Hv.
  destruct d; cbn in Hc; injection Hc as <-;
    apply list_elem_of_fmap in Hv as (i & -> & _); apply small_table_nodes.
Qed.

Lemma get_table_shape_witness :
  exists f,
    snd (_get small_population (selection_from_values [0; 3])
           (Some (PropList ["section"; "syn_weight"; "section"])) (fresh_world []))
    = Ok (EdgeFrame f)
    /\ row_index f = [0; 3]
    /\ column_names f = ["section"; "syn_weight"].
Proof.
  set (run := _get small_population (selection_from_values [0; 3])
                (Some (PropList ["section"; "syn_weight"; "section"])) (fresh_world [])).
  destruct (get_table_shape small_population (selection_from_values [0; 3])
              ["section"; "syn_weight"; "section"] (fresh_world []) (fst run)
              (match snd run with Ok r => r | Err _ => EdgeIds [] end))
    as (f & Hr & Hrows & Hcols & _).
  - vm_compute. discriminate.
  - vm_compute. reflexivity.
  - exists f. split; [rewrite <- Hr; vm_compute; reflexivity|].
    split; [exact Hrows | exact Hcols].
Defined.

Lemma get_fails_at_first_unknown_witness :
  exists w',
    _get small_population (selection_from_values [0; 3])
      (Some (PropList (["section"] ++ "nope" :: ["syn_weight"]))) (fresh_world [])
    = (w', Err (NoSuchProperty "nope"))
    /\ length (w_log w') = 1%nat.
Proof.
  apply (get_fails_at_first_unknown small_population (selection_from_values [0; 3])
           ["section"] "nope" ["syn_weight"] (fresh_world [])).
  - vm_compute. discriminate.
  - intros q Hq. apply list_elem_of_singleton in Hq as ->.
    apply (bool_decide_unpack _). vm_compute. exact I.
  - intros Hin. apply (bool_decide_eq_true_2 _) in Hin. vm_compute in Hin.
    discriminate Hin.
Defined.

Lemma connected_nodes_unique_witness :
  exists w' raw,
    afferent_nodes small_population (Some (NodeIds [1])) false (fresh_world [])
    = (w', Ok raw)
    /\ [0; 3] = np_unique raw
    /\ StronglySorted Z.lt [0; 3].
Proof.
  set (run := afferent_nodes small_population (Some (NodeIds [1])) true (fresh_world [])).
  destruct (connected_nodes_unique small_population (Some (NodeIds [1]))
              (fresh_world []) (fst run) [0; 3]) as [Hafferent _].
  destruct Hafferent as (raw & Hraw & Hr & Hsorted & _).
  - vm_compute. reflexivity.
  - exists (fst run), raw. split; [exact Hraw|]. split; [exact Hr | exact Hsorted].
Defined.

Lemma ids_query_subsequence_witness :
  StronglySorted Z.lt [0; 1]
  /\ [0; 1] `sublist_of` seqZ 0 (Z.of_N (size small_population)).
Proof.
  set (run := small_ids (GroupMapping ["syn_weight"]) (Some 2) None true (fresh_world [])).
  destruct (ids_query_subsequence small_population names_query names_query_properties
              names_query_mask ["syn_weight"] (Some 2) true (fresh_world [])
              (fst run) [0; 1]) as (Hsub & Hsorted & _).
  - vm_compute. reflexivity.
  - split; [exact Hsorted | exact Hsub].
Defined.

Lemma optimal_direction_cost_witness :
  w_log (fst (_optimal_direction small_population (Some [0; 3]) None (fresh_world [])))
  = w_log (fresh_world []).
Proof.
  destruct (optimal_direction_cost small_population (Some [0; 3]) None (fresh_world []))
    as (source_sample & target_sample & Hlog & _ & _ & _ & _ & Hnone).
  destruct Hnone as [-> ->]; [right; reflexivity|].
  rewrite Hlog. cbn [fmap list_fmap app]. apply app_nil_r.
Defined.

Lemma property_dtypes_table_witness :
  exists table,
    snd (property_dtypes small_population names_query names_query_properties
           names_query_mask (fresh_world [])) = Ok table
    /\ Sorted String.le (fst <$> table)
    /\ (SOURCE_NODE_ID, DIds) ∈ table.
Proof.
  set (run := property_dtypes small_population names_query names_query_properties
                names_query_mask (fresh_world [])).
  destruct (property_dtypes_table small_population names_query names_query_properties
              names_query_mask (fresh_world []) (fst run)
              (match snd run with Ok table => table | Err _ => [] end))
    as (_ & Hsorted & Hsource).
  - vm_compute. reflexivity.
  - eexists. split; [vm_compute; reflexivity|]. split; [exact Hsorted | exact Hsource].
Defined.

Lemma positions_columns_witness :
  positions positioned_population names_query names_query_properties names_query_mask
    (GroupArray [0; 3]) "left" "center" (fresh_world [])
  = (fresh_world [], Err AssertionError)
  /\ exists f,
       snd (positions positioned_population names_query names_query_properties
              names_query_mask (GroupArray [0; 3]) "afferent" "center" (fresh_world []))
       = Ok f
       /\ column_names f = ["x"; "y"; "z"].
Proof.
  split.
  - apply (positions_columns positioned_population names_query names_query_properties
             names_query_mask (GroupArray [0; 3]) "left" "center" (fresh_world [])).
    intros [Hside _]. apply (bool_decide_eq_true_2 _) in Hside. vm_compute in Hside.
    discriminate Hside.
  - set (run := positions positioned_population names_query names_query_properties
                  names_query_mask (GroupArray [0; 3]) "afferent" "center"
                  (fresh_world [])).
    destruct (positions_columns positioned_population names_query names_query_properties
                names_query_mask (GroupArray [0; 3]) "afferent" "center"
                (fresh_world [])) as [_ Hok].
    destruct (Hok (fst run)
                (match snd run with Ok f => f | Err _ => DataFrame [] [] end))
      as [Hcols _].
    + vm_compute. reflexivity.
    + eexists. split; [vm_compute; reflexivity | exact Hcols].
Defined.

Lemma iter_connections_tuples_witness :
  let it := created false false true false (Some [0; 3]) (Some [1; 2]) in
  let run := drain small_population 10 it (fresh_world []) in
  Forall (fun c => fst (conn_source c) = "default"
                   /\ fst (conn_target c) = "default"
                   /\ annotated small_population AddEdgeIds c) (fst (snd run))
  /\ length (fst (snd run)) = 3%nat.
Proof.
  intros it run. split; [|vm_compute; reflexivity].
  apply (iter_connections_tuples small_population 10 it (fresh_world []) (fst run)
           (fst (snd run)) (snd (snd run))).
  vm_compute. reflexivity.
Defined.

Lemma iter_connections_within_groups_witness :
  let it := created false true false true (Some [0; 3]) (Some [1]) in
  let run := drain small_population 10 it (fresh_world [5; 2]%nat) in
  Forall (fun c => source_id c ∈ [0; 3] /\ target_id c ∈ [1]) (fst (snd run))
  /\ length (fst (snd run)) = 2%nat.
Proof.
  intros it run. split; [|vm_compute; reflexivity].
  eapply Forall_impl.
  - apply (iter_connections_within_groups small_population (Some [0; 3]) (Some [1])
             false true 10 it (fresh_world [5; 2]%nat) (fst run)
             (fst (snd run)) (snd (snd run))).
    + reflexivity.
    + vm_compute. reflexivity.
  - cbn beta. intros c [Hs Ht]. split; [apply Hs | apply Ht]; reflexivity.
Defined.

Lemma iter_connections_connected_witness :
  let it := created false false false true None (Some [1; 2]) in
  let run := drain small_population 10 it (fresh_world []) in
  Forall (fun c =>
            exists d connected v,
              connected_of small_population d (primary_id d c) = Some connected
              /\ v ∈ connected
              /\ secondary_id d c = to_uint32 v
              /\ (AddCircuitIds = AddCircuitIds ->
                  conn_annotation c
                  = EdgeCount (to_uint32 (Z.of_nat (count_occ Z.eq_dec connected v)))))
         (fst (snd run))
  /\ length (fst (snd run)) = 3%nat.
Proof.
  intros it run. split; [|vm_compute; reflexivity].
  apply (iter_connections_connected small_population None (Some [1; 2])
           false false 10 it (fresh_world []) (fst run)
           (fst (snd run)) (snd (snd run))).
  - reflexivity.
  - vm_compute. reflexivity.
Defined.

Lemma iter_connections_failures_witness :
  (InvalidArgument MissingSourceAndTarget = InvalidArgument MissingSourceAndTarget
   /\ @None (list Z) = None /\ @None (list Z) = None /\ @nil connection = [])
  \/ (InvalidArgument MissingSourceAndTarget = NodeIdsError
      /\ unresolved_node small_population).
Proof.
  apply (iter_connections_failures small_population None None false false 3
           (created false false false false None None) (fresh_world [])
           (fresh_world []) [] (InvalidArgument MissingSourceAndTarget)).
  - reflexivity.
  - vm_compute. reflexivity.
Defined.

Lemma iter_connections_distinct_pairs_witness :
  let it := created false true false true (Some [0; 3; 0]) (Some [1; 2; 1]) in
  let run := drain small_population 10 it (fresh_world [4; 1; 3]%nat) in
  NoDup (pair_of <$> fst (snd run)) /\ length (fst (snd run)) = 3%nat.
Proof.
  intros it run. split; [|vm_compute; reflexivity].
  apply (iter_connections_distinct_pairs small_population (Some [0; 3; 0])
           (Some [1; 2; 1]) false true 10 it (fresh_world [4; 1; 3]%nat) (fst run)
           (fst (snd run)) (snd (snd run))).
  - exact small_population_uint32.
  - reflexivity.
  - vm_compute. reflexivity.
Defined.

Lemma iter_connections_ascending_witness :
  let it := created false false false true (Some [3; 0]) None in
  let run := drain small_population 10 it (fresh_world []) in
  StronglySorted Z.le (source_id <$> fst (snd run))
  /\ length (fst (snd run)) = 3%nat.
Proof.
  intros it run. split; [|vm_compute; reflexivity].
  apply (iter_connections_ascending small_population (Some [3; 0]) None false 10 it
           (fresh_world []) (fst run) (fst (snd run)) (snd (snd run))).
  - reflexivity.
  - vm_compute. reflexivity.
  - reflexivity.
Defined.

Lemma iter_connections_complete_witness :
  let it := created false false false false (Some [0; 3]) None in
  let run := drain small_population 10 it (fresh_world []) in
  exists c, c ∈ fst (snd run) /\ source_id c = 0 /\ target_id c = to_uint32 2.
Proof.
  intros it run.
  destruct (iter_connections_complete small_population (Some [0; 3]) None false 10 it
              (fresh_world []) (fst run) (fst (snd run))) as (d & _ & Hd & Hall).
  - reflexivity.
  - vm_compute. reflexivity.
  - rewrite (Hd eq_refl) in Hall. apply (Hall 0 2). split; [|split].
    + exists [0; 3]. split; [reflexivity|]. apply list_elem_of_In. cbn. auto.
    + exists [1; 1; 2]. split; [vm_compute; reflexivity|].
      apply list_elem_of_In. cbn. auto.
    + intros sec Hsec. discriminate Hsec.
Defined.

Lemma ids_limit_slice_witness :
  small_ids (GroupArray [5; 6; 7; 8]) (Some (-1)) None true (fresh_world [])
  = (fresh_world [], Ok [5; 6; 7]).
Proof.
  refine (proj1 (ids_limit_slice small_population names_query names_query_properties
                   names_query_mask (GroupArray [5; 6; 7; 8]) (-1) true
                   (fresh_world []) (fresh_world []) [5; 6; 7; 8] _)).
  reflexivity.
Defined.

Lemma iter_connections_keeps_random_state_witness :
  let it := created true false false true (Some [0; 3]) (Some [1; 2]) in
  w_rng (fst (drain small_population 10 it (fresh_world [7; 7]%nat))) = [7; 7]%nat.
Proof.
  intros it.
  set (run := drain small_population 10 it (fresh_world [7; 7]%nat)).
  apply (iter_connections_keeps_random_state small_population (Some [0; 3])
           (Some [1; 2]) true 10 it (fresh_world [7; 7]%nat) (fst run)
           (fst (snd run)) (snd (snd run))).
  - reflexivity.
  - right. right. split; cbn; lia.
  - vm_compute. reflexivity.
Defined.

Lemma connected_nodes_column_witness :
  exists w2 f,
    afferent_edges small_population (Some (NodeIds [1]))
      (Some (PropList [SOURCE_NODE_ID])) (fresh_world [])
    = (w2, Ok (EdgeFrame f))
    /\ single_column f = Some (SOURCE_NODE_ID, ids_column [0; 0; 3]).
Proof.
  set (run := afferent_nodes small_population (Some (NodeIds [1])) false (fresh_world [])).
  destruct (connected_nodes_column small_population (NodeIds [1]) (fresh_world [])
              (fst run) [0; 0; 3]) as [Hafferent _].
  destruct Hafferent as (w2 & f & Hedges & Hcolumn).
  - vm_compute. reflexivity.
  - exists w2, f. split; [exact Hedges|]. apply Hcolumn.
    eassert (Hrun : afferent_edges small_population (Some (NodeIds [1]))
                      (Some (PropList [SOURCE_NODE_ID])) (fresh_world []) = _)
      by (vm_compute; reflexivity).
    rewrite Hrun in Hedges. injection Hedges as <- <-. discriminate.
Defined.
